(** * The crawl engine of [app.py] ([EnhancedDataCollector])

    A shallow embedding of the collector: configuration, URL filters,
    the fetch/retry loop, the extractors, the checkpoint file and the
    event-loop interleaving of one run, followed by the properties
    established about them.

    Conventions.
    - A Python [str] is a Rocq [string]; each character stands for one
      code point in U+0000..U+00FF, so [len] is [String.length] and the
      UTF-8 size counts two bytes for every character above U+007F.
    - Python sets are [gset string], dictionaries are [gmap string _].
    - Python integers are [Z]; the page-size ceiling, a JSON number that
      may be fractional, is a rational.
    - Library calls whose code is not part of the repository ([urlparse],
      [BeautifulSoup], [hashlib.md5], [langdetect]) are fields of the
      record [Externals]; every definition and theorem is parametric in
      it. *)

From Stdlib Require Import ZArith QArith String Ascii List Bool Lia.
From stdpp Require Import base gmap strings list fin_maps fin_sets.

Local Open Scope string_scope.
Local Open Scope list_scope.
Local Open Scope Z_scope.
Set Warnings "-clear-no-such-hyp".

(* ===================================================================== *)
(** * Text primitives *)
(* ===================================================================== *)

Module Text.

(** [len(s)] *)
Definition len (s : string) : Z := Z.of_nat (String.length s).

(** Width of one character in UTF-8 (code points below U+0100). *)
Definition utf8_width (c : ascii) : Z :=
  if (N_of_ascii c <? 128)%N then 1%Z else 2%Z.

(** [len(s.encode('utf-8'))] *)
Fixpoint utf8_len (s : string) : Z :=
  match s with
  | EmptyString => 0
  | String c s' => utf8_width c + utf8_len s'
  end.

(** [str.lower] on one character: A-Z, and U+00C0..U+00DE except the
    multiplication sign U+00D7, move up by 32. *)
Definition lower_char (c : ascii) : ascii :=
  let n := N_of_ascii c in
  if ((65 <=? n) && (n <=? 90))%N then ascii_of_N (n + 32)
  else if ((192 <=? n) && (n <=? 222) && negb (n =? 215))%N
       then ascii_of_N (n + 32)
  else c.

(** [s.lower()] *)
Fixpoint lower (s : string) : string :=
  match s with
  | EmptyString => EmptyString
  | String c s' => String (lower_char c) (lower s')
  end.

(** [s.startswith(p)] *)
Fixpoint startswith (s p : string) {struct p} : bool :=
  match p, s with
  | EmptyString, _ => true
  | String _ _, EmptyString => false
  | String a p', String b s' => if Ascii.eqb a b then startswith s' p' else false
  end.

(** [needle in hay] *)
Fixpoint contains (needle hay : string) : bool :=
  startswith hay needle ||
  match hay with
  | EmptyString => false
  | String _ hay' => contains needle hay'
  end.

(** [s.endswith(e)] *)
Fixpoint endswith (s e : string) : bool :=
  String.eqb s e ||
  match s with
  | EmptyString => false
  | String _ s' => endswith s' e
  end.

(** [s[:n]] for [n >= 0] *)
Definition take (n : Z) (s : string) : string :=
  String.substring 0 (Z.to_nat n) s.

(** Characters for which [str.isspace] holds, the class [\s] of [re]
    on [str] patterns. *)
Definition is_space (c : ascii) : bool :=
  let n := N_of_ascii c in
  (((9 <=? n) && (n <=? 13)) || ((28 <=? n) && (n <=? 32))
   || (n =? 133) || (n =? 160))%N.

(** [re.sub(r'\s+', ' ', s)]: [in_run] tells that the previous
    character was white space, whose run has already been replaced. *)
Fixpoint collapse_ws (in_run : bool) (s : string) : string :=
  match s with
  | EmptyString => EmptyString
  | String c s' =>
      if is_space c
      then (if in_run then collapse_ws true s' else String " " (collapse_ws true s'))
      else String c (collapse_ws false s')
  end.

Fixpoint lstrip (s : string) : string :=
  match s with
  | EmptyString => EmptyString
  | String c s' => if is_space c then lstrip s' else s
  end.

Fixpoint rev_onto (s acc : string) : string :=
  match s with
  | EmptyString => acc
  | String c s' => rev_onto s' (String c acc)
  end.

Definition rev (s : string) : string := rev_onto s EmptyString.

(** [s.strip()] *)
Definition strip (s : string) : string := rev (lstrip (rev (lstrip s))).

End Text.

(* ===================================================================== *)
(** * Configuration ([config.json]) *)
(* ===================================================================== *)

Record Config := {
  seed_urls : list string;
  allowed_domains : list string;
  code_extensions : list string;
  (* crawling *)
  max_concurrent_requests : Z;
  retry_limit : Z;
  follow_external_links : bool;
  max_urls_to_crawl : Z;
  (* data_quality *)
  max_page_size_mb : Q;
  min_text_length : Z;
  min_code_length : Z;
  remove_duplicates : bool;
  dq_detect_language : bool
}.

(* ===================================================================== *)
(** * Library calls *)
(* ===================================================================== *)

(** What [BeautifulSoup(html, 'html.parser')] exposes to [parse_content],
    after the unwanted tags have been decomposed. *)
Record Soup := {
  (** [None]: no title tag; [Some None]: a title tag whose [.string] is
      [None]; [Some (Some t)]: a title tag with one string child. *)
  soup_title : option (option string);
  (** [content] of the description meta tag, when the tag has one *)
  soup_description : option string;
  (** [content] of the keywords meta tag, when the tag has one *)
  soup_keywords : option string;
  (** [get_text(separator=' ')] of article, else main, else body *)
  soup_main_text : option string
}.

Record Externals := {
  (** [urlparse(url).netloc] *)
  urlparse_netloc : string -> string;
  (** [urlparse(url).path] *)
  urlparse_path : string -> string;
  (** [Path(path).suffix] *)
  path_suffix : string -> string;
  (** [hashlib.md5(s.encode('utf-8')).hexdigest()] *)
  md5_hexdigest : string -> string;
  (** the parser; [None] when it raises *)
  beautiful_soup : string -> option Soup;
  (** [soup_hrefs html base_url]: for every [a]/[link] tag with an href,
      in document order, the [clean_url] that [urlunparse] returns for
      [urljoin(base_url, href)] with the fragment removed. An entry
      [None] marks the point where the parser, [urljoin] or [urlparse]
      raises, which ends the loop of [extract_links]. *)
  soup_hrefs : string -> string -> list (option string);
  (** [langdetect.detect]; [None] on [LangDetectException] *)
  detect : string -> option string;
  (** the import of [langdetect] and [tldextract] succeeded *)
  LANG_DETECT_AVAILABLE : bool
}.

(* ===================================================================== *)
(** * URL filters *)
(* ===================================================================== *)

Section Filters.
Variable E : Externals.
Variable config : Config.

(** The [for allowed in ...: if allowed in domain: return True] loop. *)
Fixpoint any_allowed (domain : string) (alloweds : list string) : bool :=
  match alloweds with
  | [] => false
  | allowed :: rest =>
      if Text.contains allowed domain then true else any_allowed domain rest
  end.

Definition is_allowed_domain (url : string) : bool :=
  if negb (follow_external_links config) then true
  else
    let domain := Text.lower (urlparse_netloc E url) in
    any_allowed domain (allowed_domains config).

Fixpoint any_suffix (path : string) (exts : list string) : bool :=
  match exts with
  | [] => false
  | ext :: rest => if Text.endswith path ext then true else any_suffix path rest
  end.

Definition is_code_url (url : string) : bool :=
  let path := Text.lower (urlparse_path E url) in
  any_suffix path (code_extensions config).

End Filters.

(* ===================================================================== *)
(** * The fetcher *)
(* ===================================================================== *)

(** What one [session.get] of the retry loop comes to. *)
Inductive Attempt :=
| Answer (status : Z) (body : string)   (** a response; [body] is [response.text()] *)
| TimedOut                              (** [asyncio.TimeoutError] *)
| Raised.                               (** any other [Exception] *)

(** What [fetch] does that the outside can see. *)
Inductive FetchEvent :=
| Get (attempt : nat)
| Sleep (seconds : Z).

Record Fetched := {
  fetched : option string;
  fetch_trace : list FetchEvent
}.

Definition after (evs : list FetchEvent) (r : Fetched) : Fetched :=
  {| fetched := fetched r; fetch_trace := evs ++ fetch_trace r |}.

Fixpoint requests (tr : list FetchEvent) : nat :=
  match tr with
  | [] => O
  | Get _ :: tr' => S (requests tr')
  | Sleep _ :: tr' => requests tr'
  end.

Fixpoint slept (tr : list FetchEvent) : Z :=
  match tr with
  | [] => 0
  | Get _ :: tr' => slept tr'
  | Sleep s :: tr' => s + slept tr'
  end.

Section Fetch.
Variable config : Config.
(** [server n] is the outcome of the request made when [retries = n]. *)
Variable server : nat -> Attempt.

(** [len(content.encode('utf-8')) / (1024 * 1024)] *)
Definition size_mb (content : string) : Q :=
  inject_Z (Text.utf8_len content) / inject_Z (1024 * 1024).

(** [size_mb > max_page_size_mb] *)
Definition too_large (content : string) : bool :=
  negb (Qle_bool (size_mb content) (max_page_size_mb config)).

(** The [while retries < retry_limit] loop. [remaining] is
    [retry_limit - retries], so the guard holds exactly when
    [remaining] is a successor. *)
Fixpoint fetch_loop (remaining : nat) (retries : nat) : Fetched :=
  match remaining with
  | O => {| fetched := None; fetch_trace := [] |}
  | S remaining' =>
      match server retries with
      | Answer status content =>
          if status =? 200 then
            if too_large content
            then {| fetched := None; fetch_trace := [Get retries] |}
            else {| fetched := Some content; fetch_trace := [Get retries] |}
          else if (status =? 429) || (status =? 503) then
            let wait_time := 2 ^ Z.of_nat retries in
            after [Get retries; Sleep wait_time]
                  (fetch_loop remaining' (S retries))
          else {| fetched := None; fetch_trace := [Get retries] |}
      | TimedOut =>
          after [Get retries; Sleep 1] (fetch_loop remaining' (S retries))
      | Raised =>
          after [Get retries; Sleep 1] (fetch_loop remaining' (S retries))
      end
  end.

Definition fetch : Fetched :=
  fetch_loop (Z.to_nat (retry_limit config)) 0.

End Fetch.

(** A server given by the list of its first answers, timing out
    afterwards. *)
Definition scripted (script : list Attempt) : nat -> Attempt :=
  λ n, nth n script TimedOut.

(* ===================================================================== *)
(** * Records and collector state *)
(* ===================================================================== *)

Record WebpageRecord := {
  wp_url : string;
  wp_timestamp : string;
  wp_title : string;
  wp_description : string;
  wp_keywords : string;
  wp_content : string;
  wp_language : option string;
  wp_size_bytes : Z;
  wp_source_domain : string
}.

Record CodeRecord := {
  cd_url : string;
  cd_timestamp : string;
  cd_file_extension : string;
  cd_language : option string;
  cd_code : string;
  cd_size_bytes : Z;
  cd_source_domain : string
}.

(** The dictionaries with [type] ["webpage"] and ["code"]. *)
Inductive DataRecord :=
| Webpage (r : WebpageRecord)
| Code (r : CodeRecord).

Definition size_bytes (d : DataRecord) : Z :=
  match d with
  | Webpage r => wp_size_bytes r
  | Code r => cd_size_bytes r
  end.

(** The counters of [class Statistics]; its two clock readings are
    not part of the model. *)
Record Statistics := {
  pages_crawled : Z;
  pages_failed : Z;
  code_files_collected : Z;
  total_bytes : Z;
  duplicates_skipped : Z
}.

Definition Statistics_init : Statistics :=
  {| pages_crawled := 0; pages_failed := 0; code_files_collected := 0;
     total_bytes := 0; duplicates_skipped := 0 |}.

(** The mutable fields of [EnhancedDataCollector]. A [datetime] is kept
    as its [isoformat()] text. *)
Record Collector := {
  stats : Statistics;
  urls_to_visit : gset string;
  visited_urls : gset string;
  failed_urls : gmap string Z;
  content_hashes : gset string;
  running : bool;
  start_time : option string
}.

Definition Collector_init (config : Config) : Collector :=
  {| stats := Statistics_init;
     urls_to_visit := list_to_set (seed_urls config);
     visited_urls := ∅;
     failed_urls := ∅;
     content_hashes := ∅;
     running := true;
     start_time := None |}.

Definition set_stats (s : Statistics) (c : Collector) : Collector :=
  {| stats := s; urls_to_visit := urls_to_visit c;
     visited_urls := visited_urls c; failed_urls := failed_urls c;
     content_hashes := content_hashes c; running := running c;
     start_time := start_time c |}.

Definition set_urls_to_visit (p : gset string) (c : Collector) : Collector :=
  {| stats := stats c; urls_to_visit := p;
     visited_urls := visited_urls c; failed_urls := failed_urls c;
     content_hashes := content_hashes c; running := running c;
     start_time := start_time c |}.

Definition set_visited_urls (v : gset string) (c : Collector) : Collector :=
  {| stats := stats c; urls_to_visit := urls_to_visit c;
     visited_urls := v; failed_urls := failed_urls c;
     content_hashes := content_hashes c; running := running c;
     start_time := start_time c |}.

Definition set_failed_urls (f : gmap string Z) (c : Collector) : Collector :=
  {| stats := stats c; urls_to_visit := urls_to_visit c;
     visited_urls := visited_urls c; failed_urls := f;
     content_hashes := content_hashes c; running := running c;
     start_time := start_time c |}.

Definition set_content_hashes (h : gset string) (c : Collector) : Collector :=
  {| stats := stats c; urls_to_visit := urls_to_visit c;
     visited_urls := visited_urls c; failed_urls := failed_urls c;
     content_hashes := h; running := running c;
     start_time := start_time c |}.

Definition set_running (b : bool) (c : Collector) : Collector :=
  {| stats := stats c; urls_to_visit := urls_to_visit c;
     visited_urls := visited_urls c; failed_urls := failed_urls c;
     content_hashes := content_hashes c; running := b;
     start_time := start_time c |}.

Definition set_start_time (t : option string) (c : Collector) : Collector :=
  {| stats := stats c; urls_to_visit := urls_to_visit c;
     visited_urls := visited_urls c; failed_urls := failed_urls c;
     content_hashes := content_hashes c; running := running c;
     start_time := t |}.

Definition bump_pages_crawled (s : Statistics) : Statistics :=
  {| pages_crawled := pages_crawled s + 1; pages_failed := pages_failed s;
     code_files_collected := code_files_collected s;
     total_bytes := total_bytes s;
     duplicates_skipped := duplicates_skipped s |}.

Definition bump_pages_failed (s : Statistics) : Statistics :=
  {| pages_crawled := pages_crawled s; pages_failed := pages_failed s + 1;
     code_files_collected := code_files_collected s;
     total_bytes := total_bytes s;
     duplicates_skipped := duplicates_skipped s |}.

Definition bump_duplicates_skipped (s : Statistics) : Statistics :=
  {| pages_crawled := pages_crawled s; pages_failed := pages_failed s;
     code_files_collected := code_files_collected s;
     total_bytes := total_bytes s;
     duplicates_skipped := duplicates_skipped s + 1 |}.

(** The two updates of [save_data] after a successful write. *)
Definition count_saved (d : DataRecord) (s : Statistics) : Statistics :=
  {| pages_crawled := pages_crawled s; pages_failed := pages_failed s;
     code_files_collected :=
       match d with
       | Code _ => code_files_collected s + 1
       | Webpage _ => code_files_collected s
       end;
     total_bytes := total_bytes s + size_bytes d;
     duplicates_skipped := duplicates_skipped s |}.

(* ===================================================================== *)
(** * Extractors and the per-URL pipeline *)
(* ===================================================================== *)

Section Pipeline.
Variable E : Externals.
Variable config : Config.

Definition clean_text (text : string) : string :=
  Text.strip (Text.collapse_ws false text).

Definition get_content_hash (content : string) : string :=
  md5_hexdigest E content.

Definition detect_language (text : string) : option string :=
  if negb (LANG_DETECT_AVAILABLE E) || negb (dq_detect_language config)
  then None
  else detect E text.

(** The loop of [extract_links] over the tags, adding to [links]. *)
Fixpoint collect_links (hrefs : list (option string)) (links : gset string)
  : gset string :=
  match hrefs with
  | [] => links
  | None :: _ => links
  | Some clean_url :: rest =>
      if (Text.startswith clean_url "http://"
          || Text.startswith clean_url "https://")
         && is_allowed_domain E config clean_url
      then collect_links rest ({[clean_url]} ∪ links)
      else collect_links rest links
  end.

Definition extract_links (html base_url : string) : gset string :=
  collect_links (soup_hrefs E html base_url) ∅.

(** [now] is [datetime.utcnow().isoformat()]. *)
Definition parse_code_content (content url now : string) : option DataRecord :=
  let path := urlparse_path E url in
  let extension := path_suffix E path in
  if Text.len content <? min_code_length config then None
  else
    let language :=
      if 500 <? Text.len content
      then detect_language (Text.take 500 content)
      else None in
    Some (Code {| cd_url := url;
                  cd_timestamp := now;
                  cd_file_extension := extension;
                  cd_language := language;
                  cd_code := Text.take 50000 content;
                  cd_size_bytes := Text.utf8_len content;
                  cd_source_domain := urlparse_netloc E url |}).

(** [parse_content] reads and updates [content_hashes] and
    [stats.duplicates_skipped]; it returns the collector with them. *)
Definition parse_content (html url now : string) (c : Collector)
  : option DataRecord * Collector :=
  match beautiful_soup E html with
  | None => (None, c)
  | Some soup =>
      let title :=
        match soup_title soup with
        | Some t => t
        | None => Some "No Title"
        end in
      let meta_desc := default "" (soup_description soup) in
      let keywords := default "" (soup_keywords soup) in
      let text_content := default "" (soup_main_text soup) in
      let cleaned_text := clean_text text_content in
      if Text.len cleaned_text <? min_text_length config then (None, c)
      else
        let keep (c' : Collector) :=
          let language := detect_language (Text.take 1000 cleaned_text) in
          match title with
          | None => (None, c')      (* clean_text(None) raises *)
          | Some title =>
              (Some (Webpage
                 {| wp_url := url;
                    wp_timestamp := now;
                    wp_title := clean_text title;
                    wp_description := clean_text meta_desc;
                    wp_keywords := keywords;
                    wp_content := cleaned_text;
                    wp_language := language;
                    wp_size_bytes := Text.utf8_len cleaned_text;
                    wp_source_domain := urlparse_netloc E url |}), c')
          end in
        if remove_duplicates config then
          let content_hash := get_content_hash cleaned_text in
          if bool_decide (content_hash ∈ content_hashes c)
          then (None, set_stats (bump_duplicates_skipped (stats c)) c)
          else keep (set_content_hashes ({[content_hash]} ∪ content_hashes c) c)
        else keep c
  end.

(** [save_data] from its call to its return, with nothing else running
    in between: [write_ok] tells whether the file operations went
    through. The moments in between are events of [exec]. *)
Definition save_data (data : DataRecord) (write_ok : bool)
    (c : Collector) (data_file : list DataRecord)
  : Collector * list DataRecord :=
  if write_ok
  then (set_stats (count_saved data (stats c)) c, data_file ++ [data])
  else (c, data_file).

(** One turn of [for link in new_links]. *)
Definition add_link (visited : gset string) (pending : gset string)
    (link : string) : gset string :=
  if bool_decide (link ∉ visited)
     && (Z.of_nat (size pending) <? max_urls_to_crawl config)
  then {[link]} ∪ pending
  else pending.

Definition add_links (visited : gset string) (links : list string)
    (pending : gset string) : gset string :=
  foldl (add_link visited) pending links.

(** [process_url] up to its first suspension: [None] when the URL has
    been visited already and the coroutine returns. *)
Definition process_url_begin (url : string) (c : Collector) : option Collector :=
  if bool_decide (url ∈ visited_urls c) then None
  else Some (set_visited_urls ({[url]} ∪ visited_urls c) c).

(** [not content] *)
Definition falsy (content : option string) : bool :=
  match content with
  | None => true
  | Some s => String.eqb s ""
  end.

(** [process_url] from the return of [fetch] to the point where it
    either returns or calls [save_data]: the record to save, when there
    is one, and the collector. No suspension lies in this stretch. *)
Definition process_url_parse (url : string) (content : option string)
    (now : string) (c : Collector) : option DataRecord * Collector :=
  match content with
  | None | Some "" =>
      let c := set_stats (bump_pages_failed (stats c)) c in
      let c := set_failed_urls
                 (<[url := default 0 (failed_urls c !! url) + 1]> (failed_urls c)) c in
      (None, c)
  | Some content =>
      if is_code_url E config url
      then (parse_code_content content url now, c)
      else
        let '(data, c) := parse_content content url now c in
        match data with
        | Some _ =>
            if follow_external_links config then
              let new_links := extract_links content url in
              (data, set_urls_to_visit
                       (add_links (visited_urls c) (elements new_links)
                                  (urls_to_visit c)) c)
            else (data, c)
        | None => (data, c)
        end
  end.

(** [process_url] from the resumption of [save_data], after the file
    operations, to its end: the two counters of [save_data] when the
    write went through, then [pages_crawled]. *)
Definition process_url_saved (data : DataRecord) (write_ok : bool)
    (c : Collector) : Collector :=
  let s := if write_ok then count_saved data (stats c) else stats c in
  set_stats (bump_pages_crawled s) c.

(** [process_url] from the return of [fetch] to its end, with nothing
    else running in between. *)
Definition process_url_finish (url : string) (content : option string)
    (now : string) (write_ok : bool)
    (c : Collector) (data_file : list DataRecord)
  : Collector * list DataRecord :=
  match content with
  | None | Some "" =>
      let c := set_stats (bump_pages_failed (stats c)) c in
      let c := set_failed_urls
                 (<[url := default 0 (failed_urls c !! url) + 1]> (failed_urls c)) c in
      (c, data_file)
  | Some content =>
      let '(data, c) :=
        if is_code_url E config url
        then (parse_code_content content url now, c)
        else
          let '(data, c) := parse_content content url now c in
          match data with
          | Some _ =>
              if follow_external_links config then
                let new_links := extract_links content url in
                (data, set_urls_to_visit
                         (add_links (visited_urls c) (elements new_links)
                                    (urls_to_visit c)) c)
              else (data, c)
          | None => (data, c)
          end in
      match data with
      | Some d =>
          let '(c, data_file) := save_data d write_ok c data_file in
          (set_stats (bump_pages_crawled (stats c)) c, data_file)
      | None => (c, data_file)
      end
  end.

(** [process_url] run without interleaving, against one server. *)
Definition process_url (server : nat -> Attempt) (url now : string)
    (write_ok : bool) (c : Collector) (data_file : list DataRecord)
  : Collector * list DataRecord :=
  match process_url_begin url c with
  | None => (c, data_file)
  | Some c =>
      process_url_finish url (fetched (fetch config server)) now write_ok
                         c data_file
  end.

End Pipeline.

(* ===================================================================== *)
(** * The checkpoint file *)
(* ===================================================================== *)

(** A parsed JSON document. An object lists each key once, as
    [json.dumps] writes it and [json.loads] returns it. *)
Unset Elimination Schemes.
Inductive Json :=
| JNull
| JInt (n : Z)
| JFloat (q : Q)
| JStr (s : string)
| JArr (items : list Json)
| JObj (fields : list (string * Json)).
Set Elimination Schemes.

Fixpoint assoc (key : string) (fields : list (string * Json)) : option Json :=
  match fields with
  | [] => None
  | (k, v) :: rest => if String.eqb k key then Some v else assoc key rest
  end.

(** [d.get(key, dflt)]; [None] when [d] is not a dictionary and the
    call raises. *)
Definition get (key : string) (dflt : Json) (d : Json) : option Json :=
  match d with
  | JObj fields => Some (default dflt (assoc key fields))
  | _ => None
  end.

(** Python truth value of a JSON value. *)
Definition truthy (j : Json) : bool :=
  match j with
  | JNull => false
  | JInt n => negb (n =? 0)
  | JFloat q => negb (Qeq_bool q 0)
  | JStr s => negb (String.eqb s "")
  | JArr items => match items with [] => false | _ => true end
  | JObj fields => match fields with [] => false | _ => true end
  end.

(** The values [to_dict] derives from the clock in floating point. *)
Record Reading := {
  total_mb : Q;
  elapsed_seconds : Z;
  elapsed_hours : Q;
  pages_per_minute : Q
}.

Definition to_dict (r : Reading) (s : Statistics) : Json :=
  JObj [ ("pages_crawled", JInt (pages_crawled s));
         ("pages_failed", JInt (pages_failed s));
         ("code_files_collected", JInt (code_files_collected s));
         ("total_bytes", JInt (total_bytes s));
         ("total_mb", JFloat (total_mb r));
         ("duplicates_skipped", JInt (duplicates_skipped s));
         ("elapsed_seconds", JInt (elapsed_seconds r));
         ("elapsed_hours", JFloat (elapsed_hours r));
         ("pages_per_minute", JFloat (pages_per_minute r)) ].

(** The dictionary [state] of [save_checkpoint] as it stands when the
    coroutine suspends to open the file: the two URL lists and the
    statistics are copies, while ["failed_urls"] is the collector's own
    dictionary and is read only when the text is produced. *)
Record Snapshot := {
  snap_timestamp : string;
  snap_visited_urls : list string;
  snap_urls_to_visit : list string;
  snap_statistics : Json;
  snap_start_time : option string
}.

Definition checkpoint_state (now : string) (r : Reading) (c : Collector) : Snapshot :=
  {| snap_timestamp := now;
     snap_visited_urls := elements (visited_urls c);
     snap_urls_to_visit := elements (urls_to_visit c);
     snap_statistics := to_dict r (stats c);
     snap_start_time := start_time c |}.

Definition dump_counts (failed : gmap string Z) : Json :=
  JObj ((λ kv : string * Z, (kv.1, JInt kv.2)) <$> map_to_list failed).

(** [json.dumps(state)], read back as a document. *)
Definition dump_state (st : Snapshot) (failed : gmap string Z) : Json :=
  JObj [ ("timestamp", JStr (snap_timestamp st));
         ("visited_urls", JArr (JStr <$> snap_visited_urls st));
         ("urls_to_visit", JArr (JStr <$> snap_urls_to_visit st));
         ("failed_urls", dump_counts failed);
         ("statistics", snap_statistics st);
         ("start_time", match snap_start_time st with
                        | Some t => JStr t
                        | None => JNull
                        end) ].

Inductive File :=
| Missing                 (** no such file *)
| Truncated               (** opened with mode ['w'], nothing written yet *)
| Document (j : Json).    (** a complete JSON text *)

(** The file holds a complete JSON text. *)
Definition is_document (f : File) : bool :=
  match f with
  | Document _ => true
  | _ => false
  end.

(** [save_checkpoint], the file it leaves. [c] is the collector when
    the coroutine is called and builds [state]; it then suspends to open
    the file, and [failed] is the collector's [failed_urls] dictionary
    when [json.dumps] reads it afterwards, with whatever the coroutines
    that ran in between have recorded there. *)
Definition save_checkpoint (now : string) (r : Reading) (c : Collector)
    (failed : gmap string Z) : File :=
  Document (dump_state (checkpoint_state now r c) failed).

Definition as_str (j : Json) : option string :=
  match j with JStr s => Some s | _ => None end.

Definition as_int (j : Json) : option Z :=
  match j with JInt n => Some n | _ => None end.

Definition as_str_list (j : Json) : option (list string) :=
  match j with
  | JArr items => mapM as_str items
  | _ => None
  end.

Definition as_count (kv : string * Json) : option (string * Z) :=
  match kv.2 with JInt n => Some (kv.1, n) | _ => None end.

Definition as_counts (j : Json) : option (gmap string Z) :=
  match j with
  | JObj fields => list_to_map <$> mapM as_count fields
  | _ => None
  end.

(** One statement of the [try] block of [load_checkpoint]: when it
    raises, the handler returns [False] and the assignments made so far
    stay. *)
Definition attempt {A : Type} (r : option A) (c : Collector)
    (k : A -> Collector * bool) : Collector * bool :=
  match r with
  | Some a => k a
  | None => (c, false)
  end.

Definition load_counter (key : string) (stats_data : Json) : option Z :=
  get key (JInt 0) stats_data ≫= as_int.

(** The five assignments from [stats_data]. They raise only when
    [stats_data] is not a dictionary, and then before the first of them
    takes effect. The model also gives up on a counter that is not an
    integer, and on URL lists and failure counts of another JSON type
    than [save_checkpoint] writes, which Python would store as they
    are. *)
Definition load_statistics (stats_data : Json) : option Statistics :=
  n1 ← load_counter "pages_crawled" stats_data;
  n2 ← load_counter "pages_failed" stats_data;
  n3 ← load_counter "code_files_collected" stats_data;
  n4 ← load_counter "total_bytes" stats_data;
  n5 ← load_counter "duplicates_skipped" stats_data;
  Some {| pages_crawled := n1; pages_failed := n2;
          code_files_collected := n3; total_bytes := n4;
          duplicates_skipped := n5 |}.

Definition load_checkpoint (file : File) (c : Collector) : Collector * bool :=
  match file with
  | Missing => (c, false)
  | Truncated => (c, false)
  | Document state =>
      attempt (get "visited_urls" (JArr []) state ≫= as_str_list) c (λ visited,
      let c1 := set_visited_urls (list_to_set visited) c in
      attempt (get "urls_to_visit" (JArr []) state ≫= as_str_list) c1 (λ pending,
      let c2 := set_urls_to_visit (list_to_set pending) c1 in
      attempt (get "failed_urls" (JObj []) state ≫= as_counts) c2 (λ failed,
      let c3 := set_failed_urls failed c2 in
      attempt (get "statistics" (JObj []) state ≫= load_statistics) c3 (λ s,
      let c4 := set_stats s c3 in
      attempt (get "start_time" JNull state) c4 (λ t,
      if truthy t
      then attempt (as_str t) c4 (λ iso, (set_start_time (Some iso) c4, true))
      else (c4, true))))))
  end.

(* ===================================================================== *)
(** * One process on the event loop *)
(* ===================================================================== *)

#[global] Instance WebpageRecord_eq_dec : EqDecision WebpageRecord.
Proof. solve_decision. Defined.

#[global] Instance CodeRecord_eq_dec : EqDecision CodeRecord.
Proof. solve_decision. Defined.

#[global] Instance DataRecord_eq_dec : EqDecision DataRecord.
Proof. solve_decision. Defined.

(** Where a [process_url] coroutine of the current batch stands.
    - [Created]: handed to [asyncio.gather], not yet run;
    - [Sleeping]: marked visited, in the politeness delay or queueing
      for the semaphore;
    - [Fetching]: inside [async with self.semaphore];
    - [Saving data]: suspended in [save_data], which is to append
      [data]; the file operations, run by a worker thread, are not
      through yet;
    - [Stored data write_ok]: the file operations are through, with the
      line appended ([write_ok]) or with an exception, and [save_data]
      has not resumed yet;
    - [Finished]: returned. *)
Inductive Phase :=
| Created
| Sleeping
| Fetching
| Saving (data : DataRecord)
| Stored (data : DataRecord) (write_ok : bool)
| Finished.

#[global] Instance Phase_eq_dec : EqDecision Phase.
Proof. solve_decision. Defined.

Record Task := {
  task_url : string;
  task_phase : Phase
}.

(** The collector object, the semaphore, the coroutines of the batch in
    flight, a [save_checkpoint] that has opened the file and not yet
    written, and the two files, which outlive the process. *)
Record World := {
  collector : Collector;
  semaphore : Z;
  tasks : list Task;
  saving : option Snapshot;
  checkpoint_file : File;
  data_file : list DataRecord
}.

(** The atomic stretches between two suspension points, and what the
    environment decides in each. *)
Inductive Event :=
| Dispatch (urls_batch : list string)
    (** one turn of the loop of [run]: the URLs popped, in order *)
| Begin (i : nat)
    (** coroutine [i] runs from its start to [asyncio.sleep] *)
| Acquire (i : nat)
    (** coroutine [i] takes a slot of the semaphore *)
| Complete (i : nat) (server : nat -> Attempt) (now : string)
    (** [fetch] returns in coroutine [i], which runs to its end or to
        the file operations of [save_data] *)
| Append (i : nat) (write_ok : bool)
    (** the worker thread is through with the file operations that
        [save_data] of coroutine [i] waits for *)
| Saved (i : nat)
    (** [save_data] resumes in coroutine [i], which runs to its end *)
| Signal
    (** [signal_handler], or the end of the loop of [run] *)
| SaveOpen (now : string) (r : Reading)
    (** [save_checkpoint] builds [state] and opens the file *)
| SaveWrite
    (** [save_checkpoint] writes the text and closes the file *)
| Restart (resume : bool) (now : string).
    (** the process ends and the program is started again *)

Definition is_restart (e : Event) : bool :=
  match e with
  | Restart _ _ => true
  | _ => false
  end.

Definition is_phase (p q : Phase) : bool := bool_decide (p = q).

Definition in_phase (p : Phase) (t : Task) : bool := is_phase p (task_phase t).

Definition set_phase (p : Phase) (t : Task) : Task :=
  {| task_url := task_url t; task_phase := p |}.

(** Number of coroutines inside [async with self.semaphore]. *)
Definition in_flight (w : World) : nat :=
  length (List.filter (in_phase Fetching) (tasks w)).

Section Run.
Variable E : Externals.
Variable config : Config.

(** [__init__] followed by the start of [run]. *)
Definition start_process (resume : bool) (now : string)
    (checkpoint : File) (log : list DataRecord) : World :=
  let c := Collector_init config in
  let c := if resume then (load_checkpoint checkpoint c).1 else c in
  {| collector := set_start_time (Some now) c;
     semaphore := max_concurrent_requests config;
     tasks := [];
     saving := None;
     checkpoint_file := checkpoint;
     data_file := log |}.

(** The parts of [should_continue] that depend on the collector; the
    time limit can only stop the loop earlier. *)
Definition should_continue (c : Collector) : bool :=
  running c
  && negb (bool_decide (urls_to_visit c = ∅))
  && negb (max_urls_to_crawl config <=? Z.of_nat (size (visited_urls c))).

Definition batch_size (c : Collector) : Z :=
  Z.min (max_concurrent_requests config * 2) (Z.of_nat (size (urls_to_visit c))).

Definition with_task (i : nat) (t : Task) (c : Collector) (w : World) : World :=
  {| collector := c; semaphore := semaphore w;
     tasks := <[i := t]> (tasks w); saving := saving w;
     checkpoint_file := checkpoint_file w; data_file := data_file w |}.

(** [exec e w] is the world after event [e], or [None] when [e] cannot
    happen in [w].
    - [Dispatch] needs [should_continue], a batch that [gather] has
      seen to its end, and as many distinct pending URLs as
      [batch_size] tells.
    - [Acquire] needs a free slot. It also needs every coroutine of the
      batch to have started: [gather] schedules the first step of each
      of them before [run] suspends, and the event loop runs these
      steps before it resumes a coroutine whose sleep has ended.
    - [Complete] takes [process_url] from the return of [fetch], which
      leaves [async with self.semaphore], to its end or, when there is
      a record, to the suspension in [save_data].
    - [Append] is the moment the line reaches the log, or the file
      operations fail; the three of them ([open], [write], [close]) go
      through together or not at all. Other coroutines, and readers of
      the log, run between [Append] and [Saved], where the counters of
      [save_data] and [pages_crawled] are updated.
    Library calls are total here: an exception that escapes
    [process_url] is not modelled. *)
Definition exec (e : Event) (w : World) : option World :=
  let c := collector w in
  match e with
  | Dispatch urls_batch =>
      if should_continue c
         && forallb (in_phase Finished) (tasks w)
         && negb (batch_size c =? 0)
         && (Z.of_nat (length urls_batch) =? batch_size c)
         && bool_decide (NoDup urls_batch)
         && bool_decide (Forall (λ u, u ∈ urls_to_visit c) urls_batch)
      then Some {| collector :=
                     set_urls_to_visit
                       (urls_to_visit c ∖ list_to_set urls_batch) c;
                   semaphore := semaphore w;
                   tasks := (λ u, {| task_url := u; task_phase := Created |})
                              <$> urls_batch;
                   saving := saving w;
                   checkpoint_file := checkpoint_file w;
                   data_file := data_file w |}
      else None
  | Begin i =>
      match tasks w !! i with
      | Some t =>
          if in_phase Created t then
            match process_url_begin (task_url t) c with
            | Some c' => Some (with_task i (set_phase Sleeping t) c' w)
            | None => Some (with_task i (set_phase Finished t) c w)
            end
          else None
      | None => None
      end
  | Acquire i =>
      match tasks w !! i with
      | Some t =>
          if in_phase Sleeping t
             && forallb (λ t', negb (in_phase Created t')) (tasks w)
             && (0 <? semaphore w)
          then Some {| collector := c; semaphore := semaphore w - 1;
                       tasks := <[i := set_phase Fetching t]> (tasks w);
                       saving := saving w;
                       checkpoint_file := checkpoint_file w;
                       data_file := data_file w |}
          else None
      | None => None
      end
  | Complete i server now =>
      match tasks w !! i with
      | Some t =>
          if in_phase Fetching t then
            let content := fetched (fetch config server) in
            let '(data, c') :=
              process_url_parse E config (task_url t) content now c in
            let phase :=
              match data with
              | Some d => Saving d
              | None => Finished
              end in
            Some {| collector := c'; semaphore := semaphore w + 1;
                    tasks := <[i := set_phase phase t]> (tasks w);
                    saving := saving w;
                    checkpoint_file := checkpoint_file w;
                    data_file := data_file w |}
          else None
      | None => None
      end
  | Append i write_ok =>
      match tasks w !! i with
      | Some t =>
          match task_phase t with
          | Saving d =>
              Some {| collector := c; semaphore := semaphore w;
                      tasks := <[i := set_phase (Stored d write_ok) t]> (tasks w);
                      saving := saving w;
                      checkpoint_file := checkpoint_file w;
                      data_file := if write_ok then data_file w ++ [d]
                                   else data_file w |}
          | _ => None
          end
      | None => None
      end
  | Saved i =>
      match tasks w !! i with
      | Some t =>
          match task_phase t with
          | Stored d write_ok =>
              Some (with_task i (set_phase Finished t)
                              (process_url_saved d write_ok c) w)
          | _ => None
          end
      | None => None
      end
  | Signal =>
      Some {| collector := set_running false c; semaphore := semaphore w;
              tasks := tasks w; saving := saving w;
              checkpoint_file := checkpoint_file w;
              data_file := data_file w |}
  | SaveOpen now r =>
      match saving w with
      | None =>
          Some {| collector := c; semaphore := semaphore w;
                  tasks := tasks w;
                  saving := Some (checkpoint_state now r c);
                  checkpoint_file := Truncated;
                  data_file := data_file w |}
      | Some _ => None
      end
  | SaveWrite =>
      match saving w with
      | Some st =>
          Some {| collector := c; semaphore := semaphore w;
                  tasks := tasks w;
                  saving := None;
                  checkpoint_file := Document (dump_state st (failed_urls c));
                  data_file := data_file w |}
      | None => None
      end
  | Restart resume now =>
      Some (start_process resume now (checkpoint_file w) (data_file w))
  end.

(** Worlds a first start on an empty disk can lead to.
    [asyncio.Semaphore] refuses a negative size, so no process exists
    for such a configuration. *)
Inductive reachable : World -> Prop :=
| reach_boot now :
    0 <= max_concurrent_requests config ->
    reachable (start_process false now Missing [])
| reach_step w e w' :
    reachable w -> exec e w = Some w' -> reachable w'.

(** Running a list of events in order. *)
Fixpoint exec_all (es : list Event) (w : World) : option World :=
  match es with
  | [] => Some w
  | e :: es' =>
      match exec e w with
      | Some w' => exec_all es' w'
      | None => None
      end
  end.

(** Worlds one process lifetime leads to from [w0]: any events but
    [Restart]. *)
Inductive same_process (w0 : World) : World -> Prop :=
| same_start : same_process w0 w0
| same_step w e w' :
    same_process w0 w ->
    is_restart e = false ->
    exec e w = Some w' ->
    same_process w0 w'.

End Run.

(** The content fingerprint of a webpage record, [None] for code. *)
Definition fingerprint (E : Externals) (d : DataRecord) : option string :=
  match d with
  | Webpage r => Some (md5_hexdigest E (wp_content r))
  | Code _ => None
  end.

(** The fingerprints of the webpage records of a log, in order. *)
Definition fingerprints (E : Externals) (log : list DataRecord) : list string :=
  omap (fingerprint E) log.

(* ===================================================================== *)
(** * Predicates used in the statements *)
(* ===================================================================== *)

(** [needle] occurs in [hay]. *)
Definition occurs_in (needle hay : string) : Prop :=
  ∃ pre post : string, hay = pre +:+ needle +:+ post.

(** No coroutine of the batch is still to be started. *)
Definition all_started (l : list Task) : Prop :=
  ∀ j t, l !! j = Some t → task_phase t ≠ Created.

Definition fetching (l : list Task) : nat :=
  length (List.filter (in_phase Fetching) l).

(** Free slots and coroutines inside the semaphore add up to its
    size. *)
Definition semaphore_inv (config : Config) (w : World) : Prop :=
  semaphore w + Z.of_nat (in_flight w) = max_concurrent_requests config
  ∧ 0 <= semaphore w.

(** A checkpoint taken from a collector whose visited and pending sets
    are disjoint. *)
Definition sound_snapshot (st : Snapshot) : Prop :=
  ∃ now r c, st = checkpoint_state now r c
             ∧ visited_urls c ## urls_to_visit c.

Definition sound_file (f : File) : Prop :=
  match f with
  | Document j => ∃ st failed, j = dump_state st failed ∧ sound_snapshot st
  | _ => True
  end.

(** The invariant of the frontier. *)
Record frontier_inv (w : World) : Prop := {
  inv_disjoint :
    visited_urls (collector w) ## urls_to_visit (collector w);
  inv_created :
    ∀ j t, tasks w !! j = Some t → task_phase t = Created →
           (task_url t ∉ visited_urls (collector w))
           ∧ task_url t ∉ urls_to_visit (collector w);
  inv_distinct :
    ∀ j k tj tk, tasks w !! j = Some tj → tasks w !! k = Some tk →
                 task_phase tj = Created → task_phase tk = Created →
                 task_url tj = task_url tk → j = k;
  inv_started :
    ∀ j k tj tk, tasks w !! j = Some tj → tasks w !! k = Some tk →
                 task_phase tj = Created → task_phase tk ≠ Fetching;
  inv_saving :
    ∀ st, saving w = Some st → sound_snapshot st;
  inv_file : sound_file (checkpoint_file w)
}.


(* ===================================================================== *)
(** * Further predicates *)
(* ===================================================================== *)

(** The outcomes after which the loop of [fetch] goes round again. *)
Definition retryable (a : Attempt) : bool :=
  match a with
  | Answer status _ => (status =? 429) || (status =? 503)
  | TimedOut => true
  | Raised => true
  end.

(** Every counter of [a] is at most the one of [b]. *)
Definition stats_le (a b : Statistics) : Prop :=
  pages_crawled a <= pages_crawled b
  ∧ pages_failed a <= pages_failed b
  ∧ code_files_collected a <= code_files_collected b
  ∧ total_bytes a <= total_bytes b
  ∧ duplicates_skipped a <= duplicates_skipped b.

(** Number of code records in a log. *)
Fixpoint code_count (log : list DataRecord) : Z :=
  match log with
  | [] => 0
  | Code _ :: rest => 1 + code_count rest
  | Webpage _ :: rest => code_count rest
  end.

(** Sum of the [size_bytes] of the records of a log. *)
Fixpoint bytes_sum (log : list DataRecord) : Z :=
  match log with
  | [] => 0
  | d :: rest => size_bytes d + bytes_sum rest
  end.

(** The record a coroutine has in the log and not yet in the
    counters: its line is appended, [save_data] has not resumed. *)
Definition uncounted (t : Task) : option DataRecord :=
  match task_phase t with
  | Stored d true => Some d
  | _ => None
  end.

Definition uncounted_records (l : list Task) : list DataRecord :=
  omap uncounted l.

(** The record a coroutine holds between [parse_content] or
    [parse_code_content] and the end of [save_data]. *)
Definition held (t : Task) : option DataRecord :=
  match task_phase t with
  | Saving d => Some d
  | Stored d _ => Some d
  | _ => None
  end.

(** No coroutine of the batch is inside [save_data]: so it is when a
    process starts, and whenever a batch is through. *)
Definition settled (w : World) : bool :=
  forallb (λ t, bool_decide (held t = None)) (tasks w).

(** The record that [save_data] of a coroutine is still to append. *)
Definition unwritten (t : Task) : option DataRecord :=
  match task_phase t with
  | Saving d => Some d
  | _ => None
  end.

(** The invariant of the fingerprints, for a process that started with
    the log [log0]: the fingerprints of the records appended since, and
    of those still to append, are in the fingerprint set and pairwise
    different. *)
Record fingerprint_inv (E : Externals) (log0 : list DataRecord) (w : World)
  : Prop := {
  fp_log :
    ∃ new, data_file w = log0 ++ new
           ∧ NoDup (fingerprints E new)
           ∧ (∀ h, h ∈ fingerprints E new → h ∈ content_hashes (collector w))
           ∧ ∀ j t d h, tasks w !! j = Some t → unwritten t = Some d →
                        fingerprint E d = Some h → h ∉ fingerprints E new;
  fp_held :
    ∀ j t d h, tasks w !! j = Some t → unwritten t = Some d →
               fingerprint E d = Some h → h ∈ content_hashes (collector w);
  fp_distinct :
    ∀ j k tj tk dj dk h,
      tasks w !! j = Some tj → tasks w !! k = Some tk →
      unwritten tj = Some dj → unwritten tk = Some dk →
      fingerprint E dj = Some h → fingerprint E dk = Some h → j = k
}.

(** The invariant of the counters, for a process that started in
    [w0]: what the log has gained is what the counters of [save_data]
    have gained, together with the records appended and not yet
    counted. *)
Record account_inv (w0 w : World) : Prop := {
  ai_sizes :
    ∀ j t d, tasks w !! j = Some t → held t = Some d → 0 <= size_bytes d;
  ai_log :
    ∃ new, data_file w = data_file w0 ++ new
           ∧ code_files_collected (stats (collector w))
               + code_count (uncounted_records (tasks w))
             = code_files_collected (stats (collector w0)) + code_count new
           ∧ total_bytes (stats (collector w))
               + bytes_sum (uncounted_records (tasks w))
             = total_bytes (stats (collector w0)) + bytes_sum new
           ∧ pages_crawled (stats (collector w0)) + Z.of_nat (length new)
             <= pages_crawled (stats (collector w))
                + Z.of_nat (length (uncounted_records (tasks w)))
}.

(** The events at which a [fetch] returns. *)
Definition is_complete (e : Event) : bool :=
  match e with
  | Complete _ _ _ => true
  | _ => false
  end.

(** Number of steps of a run at which [u] enters the visited set. *)
Fixpoint entries (E : Externals) (config : Config) (u : string)
    (es : list Event) (w : World) : nat :=
  match es with
  | [] => 0
  | e :: es' =>
      match exec E config e w with
      | Some w' =>
          ((if bool_decide (u ∉ visited_urls (collector w))
               && bool_decide (u ∈ visited_urls (collector w'))
            then 1 else 0)
           + entries E config u es' w')%nat
      | None => 0%nat
      end
  end.

(** A coroutine that has taken its first step has its URL in the
    visited set. *)
Definition marked (w : World) : Prop :=
  ∀ j t, tasks w !! j = Some t → task_phase t ≠ Created →
         task_url t ∈ visited_urls (collector w).

(** Some coroutine of the batch has not taken its first step. *)
Definition some_created (w : World) : Prop :=
  ∃ j t, tasks w !! j = Some t ∧ task_phase t = Created.

(** The URL is visited, pending, or handed to a coroutine that has not
    yet run. *)
Definition known (w : World) (u : string) : Prop :=
  u ∈ visited_urls (collector w)
  ∨ u ∈ urls_to_visit (collector w)
  ∨ ∃ j t, tasks w !! j = Some t ∧ task_phase t = Created ∧ task_url t = u.

(** Number of coroutines of the batch in phase [p]. *)
Definition phase_count (p : Phase) (l : list Task) : nat :=
  length (List.filter (in_phase p) l).

(** The invariant of the failure records. *)
Record failures_inv (w : World) : Prop := {
  fi_once :
    ∀ u n, failed_urls (collector w) !! u = Some n →
           n = 1 ∧ u ∈ visited_urls (collector w);
  fi_total :
    pages_failed (stats (collector w))
    = Z.of_nat (size (failed_urls (collector w)));
  fi_open :
    ∀ j t, tasks w !! j = Some t → task_phase t ≠ Finished →
           failed_urls (collector w) !! task_url t = None;
  fi_distinct :
    ∀ j k tj tk, tasks w !! j = Some tj → tasks w !! k = Some tk →
                 task_phase tj ≠ Finished → task_phase tk ≠ Finished →
                 task_url tj = task_url tk → j = k;
  fi_marked :
    ∀ j t, tasks w !! j = Some t →
           task_phase t = Sleeping ∨ task_phase t = Fetching →
           task_url t ∈ visited_urls (collector w)
}.

(** The events that read or write the checkpoint file. *)
Definition touches_checkpoint (e : Event) : bool :=
  match e with
  | SaveOpen _ _ => true
  | SaveWrite => true
  | Restart _ _ => true
  | _ => false
  end.

(** Every character of [s] is white space. *)
Fixpoint all_space (s : string) : bool :=
  match s with
  | EmptyString => true
  | String c s' => Text.is_space c && all_space s'
  end.

(** [s] without its trailing white space, by recursion on [s]. *)
Fixpoint rstrip (s : string) : string :=
  match s with
  | EmptyString => EmptyString
  | String c s' =>
      if Text.is_space c && all_space s' then EmptyString
      else String c (rstrip s')
  end.

(** Every white-space character of [s] is a plain space that follows
    no white space; [prev] tells whether the character before [s] was
    white space. *)
Fixpoint single_spaced (prev : bool) (s : string) : bool :=
  match s with
  | EmptyString => true
  | String c s' =>
      if Text.is_space c
      then Ascii.eqb c " " && negb prev && single_spaced true s'
      else single_spaced false s'
  end.

(** The same, and the last character, of [s] or before it, is not white
    space. *)
Fixpoint closed_spaced (prev : bool) (s : string) : bool :=
  match s with
  | EmptyString => negb prev
  | String c s' =>
      if Text.is_space c
      then Ascii.eqb c " " && negb prev && closed_spaced true s'
      else closed_spaced false s'
  end.

(** No white space but single plain spaces between other characters. *)
Definition tidy (s : string) : bool :=
  match s with
  | EmptyString => true
  | String c _ => negb (Text.is_space c) && closed_spaced false s
  end.

(** [clean_url.startswith(('http://', 'https://'))] *)
Definition is_http (url : string) : bool :=
  Text.startswith url "http://" || Text.startswith url "https://".

(* ===================================================================== *)
(** * The readers of [dashboard_server.py] *)
(* ===================================================================== *)

(** The dictionary that [save_data] writes as one line of the log. *)
Definition record_to_json (d : DataRecord) : Json :=
  let language (l : option string) :=
    match l with
    | Some s => JStr s
    | None => JNull
    end in
  match d with
  | Webpage r =>
      JObj [ ("type", JStr "webpage");
             ("url", JStr (wp_url r));
             ("timestamp", JStr (wp_timestamp r));
             ("title", JStr (wp_title r));
             ("description", JStr (wp_description r));
             ("keywords", JStr (wp_keywords r));
             ("content", JStr (wp_content r));
             ("language", language (wp_language r));
             ("size_bytes", JInt (wp_size_bytes r));
             ("source_domain", JStr (wp_source_domain r)) ]
  | Code r =>
      JObj [ ("type", JStr "code");
             ("url", JStr (cd_url r));
             ("timestamp", JStr (cd_timestamp r));
             ("file_extension", JStr (cd_file_extension r));
             ("language", language (cd_language r));
             ("code", JStr (cd_code r));
             ("size_bytes", JInt (cd_size_bytes r));
             ("source_domain", JStr (cd_source_domain r)) ]
  end.

(** The lines of the log file as a reader finds them: the parsed
    document of each line, or [None] for a line [json.loads] rejects. *)
Definition log_lines (log : list DataRecord) : list (option Json) :=
  (λ d, Some (record_to_json d)) <$> log.

(** What opening and reading the log file gives one reader. Reading
    raises when the bytes are not valid in the codec of the [open]
    call: [get_recent_data] asks for UTF-8, which a file cut inside a
    multi-byte character is not; [count_total_items] takes the default
    codec of the platform. *)
Inductive LogRead :=
| Absent                              (** no such file *)
| Unreadable                          (** [open] or the read raises *)
| Lines (lines : list (option Json)). (** the lines of the file *)

(** [l[start:]] on a Python list. *)
Definition slice_from {A : Type} (start : Z) (l : list A) : list A :=
  let n := Z.of_nat (length l) in
  let first := if start <? 0 then Z.max (start + n) 0 else Z.min start n in
  drop (Z.to_nat first) l.


Module Dashboard.

(** [json.load] of a file that exists, the default otherwise; [None]
    when [json.load] raises. *)
Definition read_json (dflt : Json) (f : File) : option Json :=
  match f with
  | Missing => Some dflt
  | Truncated => None
  | Document j => Some j
  end.


Definition load_checkpoint (checkpoint_file : File) : option Json :=
  read_json
    (JObj [ ("visited_urls", JArr []);
            ("urls_to_visit", JArr []);
            ("statistics", JObj []) ])
    checkpoint_file.

(** [readlines] raises before [recent] has an entry, and the outer
    handler passes; each [json.loads] has a handler of its own. *)
Definition get_recent_data (limit : Z) (data_file : LogRead) : list Json :=
  match data_file with
  | Absent => []
  | Unreadable => []
  | Lines lines => reverse (omap id (slice_from (- limit) lines))
  end.



(** The reply of [/api/recent-data]. *)
Definition get_recent (data_file : LogRead) (now : string) : Json :=
  JObj [ ("data", JArr (get_recent_data 20 data_file));
         ("timestamp", JStr now) ].

End Dashboard.

(* ===================================================================== *)
(** * Fixtures *)
(* ===================================================================== *)

(** A small site used by the examples: [Fixture.lib] answers as the
    libraries do on the URLs and on the one document that occur here.
    The digest is the identity, which is enough to compare the digests
    of equal texts. *)
Module Fixture.

(** The document served for every page of the site. *)
Definition html : string :=
  "<html><head><title>Mirror</title></head><body><p>same  text here</p><a href='/b'></a></body></html>".

Definition soup : Soup :=
  {| soup_title := Some (Some "Mirror");
     soup_description := None;
     soup_keywords := None;
     soup_main_text := Some "same  text here" |}.

(** [s] without the prefix [p], when it has it. *)
Fixpoint strip_prefix (p s : string) : option string :=
  match p, s with
  | EmptyString, _ => Some s
  | String a p', String b s' =>
      if Ascii.eqb a b then strip_prefix p' s' else None
  | String _ _, EmptyString => None
  end.

Fixpoint up_to_slash (s : string) : string :=
  match s with
  | EmptyString => EmptyString
  | String c s' => if Ascii.eqb c "/" then EmptyString else String c (up_to_slash s')
  end.

Fixpoint from_slash (s : string) : string :=
  match s with
  | EmptyString => EmptyString
  | String c s' => if Ascii.eqb c "/" then s else from_slash s'
  end.

Definition authority_and_path (url : string) : string :=
  match strip_prefix "http://" url with
  | Some rest => rest
  | None => default url (strip_prefix "https://" url)
  end.

(** The characters of [s] before its first dot, and those after it. *)
Fixpoint up_to_dot (s : string) : string :=
  match s with
  | EmptyString => EmptyString
  | String c s' => if Ascii.eqb c "." then EmptyString else String c (up_to_dot s')
  end.

Fixpoint after_dot (s : string) : option string :=
  match s with
  | EmptyString => None
  | String c s' => if Ascii.eqb c "." then Some s' else after_dot s'
  end.

(** [Path(path).suffix]: the last component from its last dot on, when
    that dot is neither its first nor its last character. *)
Definition suffix (path : string) : string :=
  let name := up_to_slash (Text.rev path) in
  match after_dot name with
  | Some (String _ _) =>
      match up_to_dot name with
      | EmptyString => ""
      | ext => "." +:+ Text.rev ext
      end
  | _ => ""
  end.

(** What follows the last [@] of [s]; [s] itself when it has none. *)
Fixpoint after_last_at (s : string) : string :=
  match s with
  | EmptyString => EmptyString
  | String _ s' => if Text.contains "@" s then after_last_at s' else s
  end.

Fixpoint up_to_colon (s : string) : string :=
  match s with
  | EmptyString => EmptyString
  | String c s' => if Ascii.eqb c ":" then EmptyString else String c (up_to_colon s')
  end.

(** [urlparse(url).hostname] as [urllib.parse] derives it from the
    [netloc], bracketed addresses aside: what follows the last [@], up
    to the first colon, in lower case. *)
Definition hostname (netloc : string) : string :=
  Text.lower (up_to_colon (after_last_at netloc)).

Definition lib : Externals :=
  {| urlparse_netloc := λ url, up_to_slash (authority_and_path url);
     urlparse_path := λ url, from_slash (authority_and_path url);
     path_suffix := suffix;
     md5_hexdigest := λ s, s;
     beautiful_soup := λ _, Some soup;
     soup_hrefs := λ _ _, [Some "http://site.test/b"];
     detect := λ _, None;
     LANG_DETECT_AVAILABLE := false |}.

Definition cfg : Config :=
  {| seed_urls := ["http://site.test/a"];
     allowed_domains := ["site.test"];
     code_extensions := [".py"];
     max_concurrent_requests := 1;
     retry_limit := 4;
     follow_external_links := true;
     max_urls_to_crawl := 10;
     max_page_size_mb := 5;
     min_text_length := 5;
     min_code_length := 5;
     remove_duplicates := true;
     dq_detect_language := false |}.

(** The same, with a ceiling of one byte per page. *)
Definition cfg_tiny : Config :=
  {| seed_urls := seed_urls cfg;
     allowed_domains := allowed_domains cfg;
     code_extensions := code_extensions cfg;
     max_concurrent_requests := max_concurrent_requests cfg;
     retry_limit := retry_limit cfg;
     follow_external_links := follow_external_links cfg;
     max_urls_to_crawl := max_urls_to_crawl cfg;
     max_page_size_mb := 1 # 1048576;
     min_text_length := min_text_length cfg;
     min_code_length := min_code_length cfg;
     remove_duplicates := remove_duplicates cfg;
     dq_detect_language := dq_detect_language cfg |}.

(** The same, with room for one URL only. *)
Definition cfg_one : Config :=
  {| seed_urls := seed_urls cfg;
     allowed_domains := allowed_domains cfg;
     code_extensions := code_extensions cfg;
     max_concurrent_requests := max_concurrent_requests cfg;
     retry_limit := retry_limit cfg;
     follow_external_links := follow_external_links cfg;
     max_urls_to_crawl := 1;
     max_page_size_mb := max_page_size_mb cfg;
     min_text_length := min_text_length cfg;
     min_code_length := min_code_length cfg;
     remove_duplicates := remove_duplicates cfg;
     dq_detect_language := dq_detect_language cfg |}.

Definition serves (body : string) : nat -> Attempt :=
  scripted [Answer 200 body].

Definition busy_then (body : string) : nat -> Attempt :=
  scripted [Answer 429 ""; Answer 429 ""; Answer 429 ""; Answer 200 body].

Definition reading : Reading :=
  {| total_mb := 0; elapsed_seconds := 0; elapsed_hours := 0;
     pages_per_minute := 0 |}.

Definition boot : World := start_process cfg false "t0" Missing [].

(** The collector while the seed is being fetched. *)
Definition crawling_seed : Collector :=
  set_visited_urls {["http://site.test/a"]}
    (set_urls_to_visit ∅ (Collector_init cfg)).

(** A collector that has already admitted a page with the text of
    [html]. *)
Definition seen_before : Collector :=
  set_content_hashes {["same text here"]} (Collector_init cfg).

(** The seed is dispatched, marked visited and being fetched. *)
Definition fetch_seed : list Event :=
  [ Dispatch ["http://site.test/a"]; Begin 0; Acquire 0 ].

(** The fetch of the seed returns the document. *)
Definition crawl_seed : list Event :=
  fetch_seed ++ [ Complete 0 (serves html) "t1"; Append 0 true; Saved 0 ].

(** A first run that crawls the seed and stops with a final
    checkpoint. *)
Definition first_run : list Event :=
  crawl_seed ++ [ Signal; SaveOpen "t2" reading; SaveWrite ].

(** The program started again with [--resume], crawling the link that
    the first run found. *)
Definition second_run : list Event :=
  [ Restart true "t3";
    Dispatch ["http://site.test/b"]; Begin 0; Acquire 0;
    Complete 0 (serves html) "t4"; Append 0 true; Saved 0 ].

Definition fetching_seed : World :=
  default boot (exec_all lib cfg fetch_seed boot).

Definition after_seed : World :=
  default boot (exec_all lib cfg crawl_seed boot).


(** One timeout, then a 404. *)
Definition gone_after_timeout : nat -> Attempt :=
  scripted [TimedOut; Answer 404 ""].

(** A code file of the site. *)
Definition script : string := "print('hello world')".

Definition script_record : CodeRecord :=
  {| cd_url := "http://site.test/run.py";
     cd_timestamp := "t1";
     cd_file_extension := ".py";
     cd_language := None;
     cd_code := script;
     cd_size_bytes := 20;
     cd_source_domain := "site.test" |}.

(** The record that [parse_content] makes of the seed page. *)
Definition page_record : WebpageRecord :=
  {| wp_url := "http://site.test/a";
     wp_timestamp := "t1";
     wp_title := "Mirror";
     wp_description := "";
     wp_keywords := "";
     wp_content := "same text here";
     wp_language := None;
     wp_size_bytes := 14;
     wp_source_domain := "site.test" |}.

(** The world after the signal handler has run. *)
Definition stopped : World :=
  default boot (exec_all lib cfg [Signal] boot).

(** The configuration with duplicate removal switched off. *)
Definition cfg_keep : Config :=
  {| seed_urls := seed_urls cfg;
     allowed_domains := allowed_domains cfg;
     code_extensions := code_extensions cfg;
     max_concurrent_requests := max_concurrent_requests cfg;
     retry_limit := retry_limit cfg;
     follow_external_links := follow_external_links cfg;
     max_urls_to_crawl := max_urls_to_crawl cfg;
     max_page_size_mb := max_page_size_mb cfg;
     min_text_length := min_text_length cfg;
     min_code_length := min_code_length cfg;
     remove_duplicates := false;
     dq_detect_language := dq_detect_language cfg |}.

Definition after_seed_keep : World :=
  default boot (exec_all lib cfg_keep crawl_seed
                  (start_process cfg_keep false "t0" Missing [])).

(** A server that answers 500. *)
Definition refuses : nat -> Attempt := scripted [Answer 500 ""].

(** The seed is dispatched and its fetch fails. *)
Definition fail_seed : list Event :=
  fetch_seed ++ [ Complete 0 refuses "t1" ].

Definition after_refusal : World :=
  default boot (exec_all lib cfg fail_seed boot).

(** A checkpoint is opened before the seed is crawled. *)
Definition saving_boot : World :=
  default boot (exec_all lib cfg [SaveOpen "t0" reading] boot).

Definition saving_after_refusal : World :=
  default boot (exec_all lib cfg fail_seed saving_boot).

(** The checkpoint that the first run leaves behind. *)
Definition first_checkpoint : File :=
  Document (dump_state
              (checkpoint_state "t2" reading (collector after_seed))
              (failed_urls (collector after_seed))).

(** The resumed process after it has crawled the link. *)
Definition resumed : World :=
  default boot
    (exec_all lib cfg
       [ Dispatch ["http://site.test/b"]; Begin 0; Acquire 0;
         Complete 0 (serves html) "t4"; Append 0 true; Saved 0 ]
       (start_process cfg true "t3" first_checkpoint [])).

(** The seed is dequeued and its coroutine has not run yet. *)
Definition dequeued_seed : World :=
  default boot (exec_all lib cfg [ Dispatch ["http://site.test/a"] ] boot).

(** The seed is crawled and the link found on its page is dequeued
    as the second batch. *)
Definition dequeue_link : list Event :=
  crawl_seed ++ [ Dispatch ["http://site.test/b"] ].

(** A periodic checkpoint that is due when the second batch is
    dequeued wakes up right behind the dispatch: it builds [state]
    before the coroutine of the link takes its first step, and writes
    the file afterwards. *)
Definition early_checkpoint : list Event :=
  [ SaveOpen "t2" reading; Begin 0; SaveWrite ].

(** A periodic checkpoint that starts while the seed is being fetched
    and writes after the fetch has failed. *)
Definition save_across_refusal : list Event :=
  fetch_seed ++ [ SaveOpen "t1" reading; Complete 0 refuses "t2"; SaveWrite ].

(** A checkpoint is opened when the seed has been crawled, and is
    still to be written while the link is being fetched. *)
Definition saving_after_seed : World :=
  default boot (exec_all lib cfg [SaveOpen "t2" reading] after_seed).

Definition fetch_link : list Event :=
  [ Dispatch ["http://site.test/b"]; Begin 0; Acquire 0 ].

Definition saving_fetching_link : World :=
  default boot (exec_all lib cfg fetch_link saving_after_seed).

(** The line of the seed page is in the log, [save_data] has not
    resumed. *)
Definition appended_seed : World :=
  default boot
    (exec_all lib cfg
       (fetch_seed ++ [ Complete 0 (serves html) "t1"; Append 0 true ]) boot).

End Fixture.

(* ===================================================================== *)
(** * Properties *)
(* ===================================================================== *)

(** ** Substring test *)

Lemma startswith_spec (s p : string) :
  Text.startswith s p = true ↔ ∃ post : string, s = p +:+ post.
Proof.
  revert s. induction p as [|a p IH]; intros s; simpl.
  - split; [intros _; by exists s | done].
  - destruct s as [|b s].
    + split; [done | intros [post H]; discriminate H].
    + destruct (Ascii.eqb_spec a b) as [->|Hne].
      * rewrite IH. split; intros [post H]; exists post.
        -- by rewrite H.
        -- by injection H.
      * split; [done | intros [post H]; injection H; congruence].
Qed.

Lemma contains_spec (needle hay : string) :
  Text.contains needle hay = true ↔ occurs_in needle hay.
Proof.
  unfold occurs_in. induction hay as [|c hay IH]; simpl.
  - rewrite orb_false_r, startswith_spec. split.
    + intros [post H]. exists "", post. done.
    + intros [pre [post H]]. destruct pre; simpl in H.
      * by exists post.
      * discriminate H.
  - rewrite orb_true_iff, startswith_spec, IH. split.
    + intros [[post H] | [pre [post H]]].
      * exists "", post. done.
      * exists (String c pre), post. simpl. by rewrite H.
    + intros [pre [post H]]. destruct pre as [|c' pre]; simpl in H.
      * left. by exists post.
      * right. exists pre, post. by injection H.
Qed.

Lemma any_allowed_spec (domain : string) (alloweds : list string) :
  any_allowed domain alloweds = true ↔
  ∃ allowed, allowed ∈ alloweds ∧ occurs_in allowed domain.
Proof.
  induction alloweds as [|a rest IH]; simpl.
  - split; [done | intros [x [Hx _]]; by apply elem_of_nil in Hx].
  - destruct (Text.contains a domain) eqn:Hc.
    + split; [intros _ | done]. exists a. split; [left | by apply contains_spec].
    + rewrite IH. split.
      * intros [x [Hx Ho]]. exists x. split; [by right | done].
      * intros [x [Hx Ho]]. apply elem_of_cons in Hx as [->|Hx].
        -- apply contains_spec in Ho. congruence.
        -- by exists x.
Qed.

(** ** The domain filter *)

(** C9, as the code has it. With [follow_external_links] off,
    [is_allowed_domain] accepts every URL. With it on, a URL is
    accepted exactly when some entry of [allowed_domains] occurs as a
    substring of the lowercased [netloc], the whole authority of the
    URL: the host name together with the userinfo and the port, when
    the URL has them. In particular a host that merely has an allowed
    domain somewhere inside its name is accepted. *)
Theorem is_allowed_domain_substring (E : Externals) (config : Config) (url : string) :
  (follow_external_links config = false →
     is_allowed_domain E config url = true)
  ∧ (follow_external_links config = true →
     (is_allowed_domain E config url = true ↔
      ∃ allowed, allowed ∈ allowed_domains config
                 ∧ occurs_in allowed (Text.lower (urlparse_netloc E url))))
  ∧ (∀ allowed pre post : string,
       follow_external_links config = true →
       allowed ∈ allowed_domains config →
       Text.lower (urlparse_netloc E url) = pre +:+ allowed +:+ post →
       is_allowed_domain E config url = true).
Proof.
  unfold is_allowed_domain. split; [|split].
  - by intros ->.
  - intros ->. simpl. apply any_allowed_spec.
  - intros allowed pre post -> Hin Heq. simpl.
    apply any_allowed_spec. exists allowed. split; [done|]. by exists pre, post.
Qed.

(** An unrelated host passes because an allowed domain occurs inside
    its name. *)
Lemma is_allowed_domain_substring_witness :
  is_allowed_domain Fixture.lib Fixture.cfg "https://Not-Site.Test.evil.example/x" = true.
Proof.
  apply (is_allowed_domain_substring Fixture.lib Fixture.cfg
           "https://Not-Site.Test.evil.example/x")
    with (allowed := "site.test") (pre := "not-") (post := ".evil.example").
  - reflexivity.
  - left.
  - reflexivity.
Defined.

(** C9 as stated fails: the authority of the URL is
    [site.test@evil.example], its host name is [evil.example], in which
    no allowed domain occurs; the URL is accepted all the same, for the
    allowed domain in its userinfo. *)
Lemma userinfo_passes_the_filter_counterexample :
  follow_external_links Fixture.cfg = true
  ∧ allowed_domains Fixture.cfg = ["site.test"]
  ∧ urlparse_netloc Fixture.lib "http://site.test@evil.example/x"
    = "site.test@evil.example"
  ∧ Fixture.hostname "site.test@evil.example" = "evil.example"
  ∧ Text.contains "site.test" "evil.example" = false
  ∧ is_allowed_domain Fixture.lib Fixture.cfg "http://site.test@evil.example/x"
    = true
  ∧ ¬ ∃ allowed,
        allowed ∈ allowed_domains Fixture.cfg
        ∧ occurs_in allowed
            (Fixture.hostname
               (urlparse_netloc Fixture.lib "http://site.test@evil.example/x")).
Proof.
  split; [reflexivity|]. split; [reflexivity|]. split; [reflexivity|].
  split; [reflexivity|]. split; [reflexivity|]. split; [reflexivity|].
  intros (allowed & Hin & Hocc).
  apply list_elem_of_singleton in Hin as ->.
  apply contains_spec in Hocc. discriminate Hocc.
Qed.

(** ** The retry loop *)

Section FetchFacts.
Variable config : Config.
Variable server : nat -> Attempt.

Lemma fetch_loop_busy (remaining n : nat) (status : Z) (body : string) :
  server n = Answer status body →
  status = 429 ∨ status = 503 →
  fetch_loop config server (S remaining) n =
    after [Get n; Sleep (2 ^ Z.of_nat n)]
          (fetch_loop config server remaining (S n)).
Proof.
  intros Hs Hst. simpl. rewrite Hs.
  destruct Hst as [-> | ->]; reflexivity.
Qed.

Lemma fetch_loop_oversized (remaining n : nat) (body : string) :
  server n = Answer 200 body →
  too_large config body = true →
  fetch_loop config server (S remaining) n =
    {| fetched := None; fetch_trace := [Get n] |}.
Proof. intros Hs Hbig. simpl. by rewrite Hs, Hbig. Qed.

Lemma fetch_loop_accepts (remaining n : nat) (body : string) :
  server n = Answer 200 body →
  too_large config body = false →
  fetch_loop config server (S remaining) n =
    {| fetched := Some body; fetch_trace := [Get n] |}.
Proof. intros Hs Hbig. simpl. by rewrite Hs, Hbig. Qed.

(** A server that is busy at every attempt uses up the whole retry
    budget. *)
Lemma fetch_loop_always_busy (remaining n : nat) :
  (∀ k, ∃ body, server k = Answer 429 body ∨ server k = Answer 503 body) →
  fetched (fetch_loop config server remaining n) = None
  ∧ requests (fetch_trace (fetch_loop config server remaining n)) = remaining
  ∧ slept (fetch_trace (fetch_loop config server remaining n))
    = 2 ^ Z.of_nat (n + remaining) - 2 ^ Z.of_nat n.
Proof.
  intros Hbusy. revert n. induction remaining as [|remaining IH]; intros n.
  - simpl. rewrite Nat.add_0_r. repeat split; lia.
  - destruct (Hbusy n) as [body Hn].
    rewrite (fetch_loop_busy remaining n
               (match server n with Answer s _ => s | _ => 0 end) body).
    + destruct (IH (S n)) as (Hf & Hr & Hs). simpl.
      rewrite Hf, Hr, Hs. split; [done|]. split; [done|].
      replace (n + S remaining)%nat with (S n + remaining)%nat by lia.
      replace (Z.of_nat (S n)) with (Z.of_nat n + 1) by lia.
      rewrite (Z.pow_add_r 2 (Z.of_nat n) 1) by lia. lia.
    + by destruct Hn as [-> | ->].
    + destruct Hn as [-> | ->]; auto.
Qed.

End FetchFacts.

(** C5. A 429 or 503 met at attempt [n] makes [fetch] sleep [2 ^ n]
    seconds and go on with attempt [n + 1]; the loop ends once
    [retry_limit] attempts are used. With three 429 answers followed by
    a 200 whose body is within the page-size ceiling, and a retry limit
    of at least 4, [fetch] returns that body after sleeping 1, 2 and 4
    seconds. *)
Theorem fetch_exponential_backoff (config : Config) (server : nat -> Attempt) :
  (∀ (remaining n : nat) (status : Z) (body : string),
     server n = Answer status body →
     status = 429 ∨ status = 503 →
     fetch_loop config server (S remaining) n =
       after [Get n; Sleep (2 ^ Z.of_nat n)]
             (fetch_loop config server remaining (S n)))
  ∧ ((∀ k, ∃ body, server k = Answer 429 body ∨ server k = Answer 503 body) →
     fetched (fetch config server) = None
     ∧ Z.of_nat (requests (fetch_trace (fetch config server)))
       = Z.max 0 (retry_limit config))
  ∧ (∀ b0 b1 b2 body : string,
       4 <= retry_limit config →
       server 0%nat = Answer 429 b0 →
       server 1%nat = Answer 429 b1 →
       server 2%nat = Answer 429 b2 →
       server 3%nat = Answer 200 body →
       too_large config body = false →
       fetched (fetch config server) = Some body
       ∧ fetch_trace (fetch config server)
         = [Get 0; Sleep 1; Get 1; Sleep 2; Get 2; Sleep 4; Get 3]
       ∧ slept (fetch_trace (fetch config server)) = 1 + 2 + 4).
Proof.
  split; [|split].
  - apply fetch_loop_busy.
  - intros Hbusy. unfold fetch.
    destruct (fetch_loop_always_busy config server
                (Z.to_nat (retry_limit config)) 0 Hbusy) as (Hf & Hr & _).
    rewrite Hf, Hr. split; [done | lia].
  - intros b0 b1 b2 body Hlim H0 H1 H2 H3 Hfit. unfold fetch.
    destruct (Z.to_nat (retry_limit config)) as [|[|[|[|k]]]] eqn:Hk; try lia.
    rewrite (fetch_loop_busy config server _ 0 429 b0) by auto.
    rewrite (fetch_loop_busy config server _ 1 429 b1) by auto.
    rewrite (fetch_loop_busy config server _ 2 429 b2) by auto.
    rewrite (fetch_loop_accepts config server _ 3 body) by auto.
    simpl. done.
Qed.

Lemma fetch_exponential_backoff_witness :
  fetched (fetch Fixture.cfg (Fixture.busy_then Fixture.html)) = Some Fixture.html
  ∧ fetch_trace (fetch Fixture.cfg (Fixture.busy_then Fixture.html))
    = [Get 0; Sleep 1; Get 1; Sleep 2; Get 2; Sleep 4; Get 3]
  ∧ slept (fetch_trace (fetch Fixture.cfg (Fixture.busy_then Fixture.html))) = 7.
Proof.
  apply (proj2 (proj2 (fetch_exponential_backoff
                         Fixture.cfg (Fixture.busy_then Fixture.html))))
    with (b0 := "") (b1 := "") (b2 := "").
  - simpl. lia.
  - reflexivity.
  - reflexivity.
  - reflexivity.
  - reflexivity.
  - vm_compute. reflexivity.
Defined.

(** ** The per-URL pipeline *)

Section PipelineFacts.
Variable E : Externals.
Variable config : Config.

Lemma add_link_cases (visited pending : gset string) (link : string) :
  (add_link config visited pending link = {[link]} ∪ pending
   ∧ (link ∉ visited)
   ∧ Z.of_nat (size pending) < max_urls_to_crawl config)
  ∨ add_link config visited pending link = pending.
Proof.
  unfold add_link. case_bool_decide as Hv; simpl; [|by right].
  destruct (Z.ltb_spec (Z.of_nat (size pending)) (max_urls_to_crawl config));
    [left | right]; done.
Qed.

Lemma size_add_one (x : string) (X : gset string) :
  (size ({[x]} ∪ X) <= S (size X))%nat.
Proof.
  rewrite size_union_alt, size_singleton.
  pose proof (subseteq_size (X ∖ {[x]}) X) as H.
  assert (X ∖ {[x]} ⊆ X) by set_solver. specialize (H ltac:(done)). lia.
Qed.

Lemma add_links_spec (visited : gset string) (links : list string)
    (pending : gset string) :
  pending ⊆ add_links config visited links pending
  ∧ (∀ link, link ∈ add_links config visited links pending →
             link ∉ pending →
             link ∈ links ∧ (link ∉ visited)
             ∧ Z.of_nat (size pending) < max_urls_to_crawl config)
  ∧ Z.of_nat (size (add_links config visited links pending))
    <= Z.max (Z.of_nat (size pending)) (max_urls_to_crawl config).
Proof.
  unfold add_links. revert pending.
  induction links as [|x links IH]; intros pending; simpl.
  - split; [done|]. split; [done | lia].
  - destruct (IH (add_link config visited pending x)) as (Hsub & Hnew & Hsize).
    destruct (add_link_cases visited pending x) as [(Heq & Hx & Hlt) | Heq];
      rewrite Heq in *.
    + split; [set_solver|]. split.
      * intros link Hin Hnot.
        destruct (decide (link = x)) as [->|Hne].
        -- split; [left | done].
        -- destruct (Hnew link Hin) as (? & ? & ?); [set_solver|].
           split; [by right|]. split; [done|].
           pose proof (subseteq_size pending ({[x]} ∪ pending)) as Hs.
           specialize (Hs ltac:(set_solver)). lia.
      * pose proof (size_add_one x pending). lia.
    + split; [done|]. split; [|done].
      intros link Hin Hnot. destruct (Hnew link Hin Hnot) as (? & ? & ?).
      split; [by right | done].
Qed.

Lemma parse_content_frame (html url now : string) (c : Collector) :
  visited_urls (parse_content E config html url now c).2 = visited_urls c
  ∧ urls_to_visit (parse_content E config html url now c).2 = urls_to_visit c
  ∧ failed_urls (parse_content E config html url now c).2 = failed_urls c
  ∧ running (parse_content E config html url now c).2 = running c
  ∧ pages_failed (stats (parse_content E config html url now c).2)
    = pages_failed (stats c)
  ∧ content_hashes c ⊆ content_hashes (parse_content E config html url now c).2.
Proof.
  unfold parse_content. repeat case_match; simpl; repeat split; set_solver.
Qed.

Lemma parse_content_records (html url now : string) (c : Collector)
    (d : DataRecord) :
  (parse_content E config html url now c).1 = Some d →
  ∃ r, d = Webpage r
       ∧ (remove_duplicates config = true →
          (md5_hexdigest E (wp_content r) ∉ content_hashes c)
          ∧ md5_hexdigest E (wp_content r)
            ∈ content_hashes (parse_content E config html url now c).2).
Proof.
  unfold parse_content, get_content_hash.
  repeat case_match; simpl; intros Hd; try discriminate Hd;
    injection Hd as <-; eexists; (split; [reflexivity|]); simpl;
    intros Hrd; try congruence.
  all: match goal with
       | H : bool_decide _ = false |- _ => apply bool_decide_eq_false in H
       end; set_solver.
Qed.

Lemma parse_code_content_code (content url now : string) (d : DataRecord) :
  parse_code_content E config content url now = Some d →
  fingerprint E d = None.
Proof.
  unfold parse_code_content. case_match; [done|]. by intros [= <-].
Qed.

Lemma process_url_finish_failed (url : string) (content : option string)
    (now : string) (write_ok : bool) (c : Collector) (log : list DataRecord) :
  falsy content = true →
  process_url_finish E config url content now write_ok c log =
    (set_failed_urls
       (<[url := default 0 (failed_urls c !! url) + 1]> (failed_urls c))
       (set_stats (bump_pages_failed (stats c)) c), log).
Proof. destruct content as [[|a s]|]; simpl; done. Qed.

(** What [process_url_finish] does to the frontier and to the
    fingerprint set. *)
Lemma process_url_finish_frame (url : string) (content : option string)
    (now : string) (write_ok : bool) (c : Collector) (log : list DataRecord) :
  visited_urls (process_url_finish E config url content now write_ok c log).1
    = visited_urls c
  ∧ running (process_url_finish E config url content now write_ok c log).1
    = running c
  ∧ urls_to_visit c
    ⊆ urls_to_visit (process_url_finish E config url content now write_ok c log).1
  ∧ (∀ link,
       link ∈ urls_to_visit
                (process_url_finish E config url content now write_ok c log).1 →
       link ∉ urls_to_visit c →
       (link ∉ visited_urls c)
       ∧ Z.of_nat (size (urls_to_visit c)) < max_urls_to_crawl config)
  ∧ Z.of_nat (size (urls_to_visit
                (process_url_finish E config url content now write_ok c log).1))
    <= Z.max (Z.of_nat (size (urls_to_visit c))) (max_urls_to_crawl config)
  ∧ content_hashes c
    ⊆ content_hashes (process_url_finish E config url content now write_ok c log).1.
Proof.
  destruct content as [[|a html]|];
    [simpl; repeat split; (done || lia) | | simpl; repeat split; (done || lia)].
  unfold process_url_finish.
  destruct (is_code_url E config url).
  - destruct (parse_code_content E config (String a html) url now) as [d|];
      [destruct write_ok|]; simpl; repeat split; (done || lia).
  - pose proof (parse_content_frame (String a html) url now c) as F.
    destruct (parse_content E config (String a html) url now c) as [data c1].
    simpl in F. destruct F as (Fv & Fp & _ & Fr & _ & Fh).
    destruct data as [d|]; [|simpl; rewrite Fv, Fp, Fr; repeat split; (done || lia)].
    destruct (follow_external_links config).
    + pose proof (add_links_spec (visited_urls c1)
                    (elements (extract_links E config (String a html) url))
                    (urls_to_visit c1)) as (Hsub & Hnew & Hsize).
      rewrite Fv, Fp in *.
      destruct write_ok; simpl; (split; [done|]); (split; [done|]);
        (split; [done|]); (split; [|done]);
        intros link Hin Hnot; destruct (Hnew link Hin Hnot) as (_ & ? & ?); done.
    + destruct write_ok; simpl; rewrite Fv, Fp, Fr;
        repeat split; (done || lia).
Qed.

(** When [process_url_finish] changes the pending set. *)
Lemma process_url_finish_links (url : string) (content : option string)
    (now : string) (write_ok : bool) (c : Collector) (log : list DataRecord) :
  urls_to_visit (process_url_finish E config url content now write_ok c log).1
    ≠ urls_to_visit c →
  is_code_url E config url = false
  ∧ follow_external_links config = true
  ∧ ∃ html, content = Some html
            ∧ is_Some (parse_content E config html url now c).1.
Proof.
  destruct content as [[|a html]|]; [done | | done].
  unfold process_url_finish.
  destruct (is_code_url E config url).
  - destruct (parse_code_content E config (String a html) url now) as [d|];
      [destruct write_ok|]; simpl; done.
  - pose proof (parse_content_frame (String a html) url now c) as F.
    destruct (parse_content E config (String a html) url now c) as [data c1] eqn:Hp.
    simpl in F. destruct F as (_ & Fp & _).
    destruct data as [d|]; [|simpl; by rewrite Fp].
    destruct (follow_external_links config).
    + intros _. split; [done|]. split; [done|].
      exists (String a html). rewrite Hp. split; [done | by eexists].
    + destruct write_ok; simpl; by rewrite Fp.
Qed.

(** [process_url_finish] is [process_url_parse], then the append of
    [save_data], then [process_url_saved]. *)
Lemma process_url_finish_steps (url : string) (content : option string)
    (now : string) (write_ok : bool) (c : Collector) (log : list DataRecord) :
  process_url_finish E config url content now write_ok c log
  = match (process_url_parse E config url content now c).1 with
    | Some d =>
        (process_url_saved d write_ok
           (process_url_parse E config url content now c).2,
         if write_ok then log ++ [d] else log)
    | None => ((process_url_parse E config url content now c).2, log)
    end.
Proof.
  destruct content as [[|a html]|]; [done | | done].
  unfold process_url_finish, process_url_parse, process_url_saved, save_data.
  destruct (is_code_url E config url).
  - destruct (parse_code_content E config (String a html) url now) as [d|];
      [destruct write_ok|]; done.
  - destruct (parse_content E config (String a html) url now c) as [[d|] c1];
      [|done].
    destruct (follow_external_links config), write_ok; done.
Qed.

(** What [process_url_parse] does to the frontier and to the
    fingerprint set. *)
Lemma process_url_parse_frame (url : string) (content : option string)
    (now : string) (c : Collector) :
  visited_urls (process_url_parse E config url content now c).2
    = visited_urls c
  ∧ running (process_url_parse E config url content now c).2 = running c
  ∧ urls_to_visit c
    ⊆ urls_to_visit (process_url_parse E config url content now c).2
  ∧ (∀ link,
       link ∈ urls_to_visit (process_url_parse E config url content now c).2 →
       link ∉ urls_to_visit c →
       (link ∉ visited_urls c)
       ∧ Z.of_nat (size (urls_to_visit c)) < max_urls_to_crawl config)
  ∧ Z.of_nat (size (urls_to_visit
                      (process_url_parse E config url content now c).2))
    <= Z.max (Z.of_nat (size (urls_to_visit c))) (max_urls_to_crawl config)
  ∧ content_hashes c
    ⊆ content_hashes (process_url_parse E config url content now c).2.
Proof.
  pose proof (process_url_finish_frame url content now false c []) as F.
  rewrite process_url_finish_steps in F.
  destruct (process_url_parse E config url content now c) as [[d|] c1];
    exact F.
Qed.

(** A fetch that failed gives no record; it is counted, and nothing
    else changes. *)
Lemma process_url_parse_failed (url : string) (content : option string)
    (now : string) (c : Collector) :
  falsy content = true →
  process_url_parse E config url content now c =
    (None,
     set_failed_urls
       (<[url := default 0 (failed_urls c !! url) + 1]> (failed_urls c))
       (set_stats (bump_pages_failed (stats c)) c)).
Proof. destruct content as [[|a s]|]; simpl; done. Qed.

End PipelineFacts.

(** C1, as the code has it. A 200 answer whose body exceeds
    [max_page_size_mb] ends [fetch] at that request: [None] is returned,
    without sleep or further attempt. [process_url] then appends no
    record, but handles the [None] as it handles every failed fetch:
    [pages_failed] and the failure count of the URL go up by one. *)
Theorem oversized_response_is_a_failed_page
    (E : Externals) (config : Config) (server : nat -> Attempt)
    (url now : string) (write_ok : bool) (c : Collector)
    (log : list DataRecord) (body : string) :
  too_large config body = true →
  server 0%nat = Answer 200 body →
  0 < retry_limit config →
  url ∉ visited_urls c →
  (∀ remaining n : nat,
     server n = Answer 200 body →
     fetch_loop config server (S remaining) n
       = {| fetched := None; fetch_trace := [Get n] |})
  ∧ fetch config server = {| fetched := None; fetch_trace := [Get 0] |}
  ∧ (process_url E config server url now write_ok c log).2 = log
  ∧ pages_crawled (stats (process_url E config server url now write_ok c log).1)
    = pages_crawled (stats c)
  ∧ pages_failed (stats (process_url E config server url now write_ok c log).1)
    = pages_failed (stats c) + 1
  ∧ failed_urls (process_url E config server url now write_ok c log).1 !! url
    = Some (default 0 (failed_urls c !! url) + 1).
Proof.
  intros Hbig H0 Hlim Hnew.
  assert (fetch config server = {| fetched := None; fetch_trace := [Get 0] |})
    as Hfetch.
  { unfold fetch. destruct (Z.to_nat (retry_limit config)) eqn:Hk; [lia|].
    by apply fetch_loop_oversized with body. }
  split; [intros remaining n Hn; by apply fetch_loop_oversized with body|].
  split; [done|].
  unfold process_url, process_url_begin.
  rewrite bool_decide_eq_false_2 by done. rewrite Hfetch. simpl.
  repeat split. by rewrite lookup_insert_eq.
Qed.

Lemma oversized_response_is_a_failed_page_witness :
  fetch Fixture.cfg_tiny (Fixture.serves Fixture.html)
    = {| fetched := None; fetch_trace := [Get 0] |}
  ∧ pages_failed
      (stats (process_url Fixture.lib Fixture.cfg_tiny
                (Fixture.serves Fixture.html) "http://site.test/a" "t1" true
                (Collector_init Fixture.cfg_tiny) []).1)
    = pages_failed (stats (Collector_init Fixture.cfg_tiny)) + 1.
Proof.
  destruct (oversized_response_is_a_failed_page
              Fixture.lib Fixture.cfg_tiny (Fixture.serves Fixture.html)
              "http://site.test/a" "t1" true
              (Collector_init Fixture.cfg_tiny) [] Fixture.html)
    as (_ & Hf & _ & _ & Hp & _).
  - vm_compute. reflexivity.
  - reflexivity.
  - simpl. lia.
  - simpl. apply not_elem_of_empty.
  - split; [exact Hf | exact Hp].
Defined.

(** C1 as stated fails: the page of the fixture is larger than the
    one-byte ceiling, [fetch] rejects it at the first request, and
    [pages_failed] goes from 0 to 1. *)
Lemma oversized_not_counted_counterexample :
  too_large Fixture.cfg_tiny Fixture.html = true
  ∧ fetch Fixture.cfg_tiny (Fixture.serves Fixture.html)
    = {| fetched := None; fetch_trace := [Get 0] |}
  ∧ pages_failed (stats (Collector_init Fixture.cfg_tiny)) = 0
  ∧ pages_failed
      (stats (process_url Fixture.lib Fixture.cfg_tiny
                (Fixture.serves Fixture.html) "http://site.test/a" "t1" true
                (Collector_init Fixture.cfg_tiny) []).1)
    = 1.
Proof. vm_compute. repeat split. Qed.

(** C3, as the code has it. A link enters the pending set only if it is
    not in the visited set and the size of the pending set alone is
    below [max_urls_to_crawl]; the visited URLs are not counted. Links
    added this way never take the pending set above the ceiling. *)
Theorem new_link_needs_room_in_pending
    (E : Externals) (config : Config) (url : string) (content : option string)
    (now : string) (write_ok : bool) (c : Collector) (log : list DataRecord)
    (link : string) :
  link ∈ urls_to_visit
           (process_url_finish E config url content now write_ok c log).1 →
  link ∉ urls_to_visit c →
  (link ∉ visited_urls c)
  ∧ Z.of_nat (size (urls_to_visit c)) < max_urls_to_crawl config
  ∧ Z.of_nat (size (urls_to_visit
                (process_url_finish E config url content now write_ok c log).1))
    <= max_urls_to_crawl config.
Proof.
  intros Hin Hnot.
  destruct (process_url_finish_frame E config url content now write_ok c log)
    as (_ & _ & _ & Hnew & Hsize & _).
  destruct (Hnew link Hin Hnot) as [Hv Hlt].
  split; [done|]. split; [done | lia].
Qed.

Lemma new_link_needs_room_in_pending_witness :
  ("http://site.test/b" ∉ visited_urls Fixture.crawling_seed)
  ∧ Z.of_nat (size (urls_to_visit Fixture.crawling_seed))
    < max_urls_to_crawl Fixture.cfg
  ∧ Z.of_nat (size (urls_to_visit
                (process_url_finish Fixture.lib Fixture.cfg "http://site.test/a"
                   (Some Fixture.html) "t1" true Fixture.crawling_seed []).1))
    <= max_urls_to_crawl Fixture.cfg.
Proof.
  apply (new_link_needs_room_in_pending Fixture.lib Fixture.cfg
           "http://site.test/a" (Some Fixture.html) "t1" true
           Fixture.crawling_seed [] "http://site.test/b").
  - apply (bool_decide_unpack _). vm_compute. exact I.
  - apply (bool_decide_unpack _). vm_compute. exact I.
Defined.

(** C3 as stated fails: with a ceiling of 1, the seed is visited and
    nothing is pending, so visited plus pending has reached the ceiling,
    and yet the link found on the seed page is added. *)
Lemma visited_plus_pending_counterexample :
  ∃ w w',
    exec_all Fixture.lib Fixture.cfg_one
      Fixture.fetch_seed (start_process Fixture.cfg_one false "t0" Missing []) = Some w
    ∧ exec Fixture.lib Fixture.cfg_one
        (Complete 0 (Fixture.serves Fixture.html) "t1") w = Some w'
    ∧ ¬ (Z.of_nat (size (visited_urls (collector w)))
         + Z.of_nat (size (urls_to_visit (collector w)))
         < max_urls_to_crawl Fixture.cfg_one)
    ∧ ("http://site.test/b" ∉ urls_to_visit (collector w))
    ∧ "http://site.test/b" ∈ urls_to_visit (collector w').
Proof.
  eexists. eexists.
  split; [vm_compute; reflexivity|].
  split; [vm_compute; reflexivity|].
  split; [vm_compute; by intros H|].
  split; apply (bool_decide_unpack _); vm_compute; exact I.
Qed.

Lemma parse_content_rejects (E : Externals) (config : Config)
    (html url now : string) (c : Collector) (soup : Soup) :
  beautiful_soup E html = Some soup →
  Text.len (clean_text (default "" (soup_main_text soup))) < min_text_length config
  ∨ (remove_duplicates config = true
     ∧ get_content_hash E (clean_text (default "" (soup_main_text soup)))
       ∈ content_hashes c) →
  (parse_content E config html url now c).1 = None.
Proof.
  intros Hsoup Hrej. unfold parse_content. rewrite Hsoup.
  destruct (Z.ltb_spec (Text.len (clean_text (default "" (soup_main_text soup))))
              (min_text_length config)) as [Hshort | Hlong]; [done|].
  destruct Hrej as [Hshort | [Hrd Hdup]]; [lia|].
  rewrite Hrd. by rewrite bool_decide_eq_true_2.
Qed.

(** C10. [process_url] changes the pending set only for a page that is
    not a code URL, for which [parse_content] returned a record, and
    with [follow_external_links] on. A page whose cleaned text is
    shorter than [min_text_length], or whose fingerprint is already in
    the fingerprint set, yields no record, no link and no log entry. *)
Theorem links_only_from_recorded_pages
    (E : Externals) (config : Config) (url : string) (content : option string)
    (now : string) (write_ok : bool) (c : Collector) (log : list DataRecord) :
  (urls_to_visit (process_url_finish E config url content now write_ok c log).1
     ≠ urls_to_visit c →
   is_code_url E config url = false
   ∧ follow_external_links config = true
   ∧ ∃ html, content = Some html
             ∧ is_Some (parse_content E config html url now c).1)
  ∧ (∀ (html : string) (soup : Soup),
       content = Some html →
       is_code_url E config url = false →
       beautiful_soup E html = Some soup →
       Text.len (clean_text (default "" (soup_main_text soup)))
         < min_text_length config
       ∨ (remove_duplicates config = true
          ∧ get_content_hash E (clean_text (default "" (soup_main_text soup)))
            ∈ content_hashes c) →
       (parse_content E config html url now c).1 = None
       ∧ urls_to_visit
           (process_url_finish E config url content now write_ok c log).1
         = urls_to_visit c
       ∧ (process_url_finish E config url content now write_ok c log).2 = log).
Proof.
  split; [apply process_url_finish_links|].
  intros html soup -> Hcode Hsoup Hrej.
  pose proof (parse_content_rejects E config html url now c soup Hsoup Hrej)
    as Hnone.
  split; [done|].
  destruct html as [|a html]; [done|].
  unfold process_url_finish. rewrite Hcode.
  pose proof (parse_content_frame E config (String a html) url now c) as F.
  destruct (parse_content E config (String a html) url now c) as [data c1].
  simpl in *. subst data. simpl. by destruct F as (_ & -> & _).
Qed.

Lemma links_only_from_recorded_pages_witness :
  (parse_content Fixture.lib Fixture.cfg Fixture.html "http://site.test/c" "t5"
     Fixture.seen_before).1 = None
  ∧ urls_to_visit
      (process_url_finish Fixture.lib Fixture.cfg "http://site.test/c"
         (Some Fixture.html) "t5" true Fixture.seen_before []).1
    = urls_to_visit Fixture.seen_before
  ∧ (process_url_finish Fixture.lib Fixture.cfg "http://site.test/c"
       (Some Fixture.html) "t5" true Fixture.seen_before []).2 = [].
Proof.
  apply (proj2 (links_only_from_recorded_pages Fixture.lib Fixture.cfg
                  "http://site.test/c" (Some Fixture.html) "t5" true
                  Fixture.seen_before []))
    with (soup := Fixture.soup).
  - reflexivity.
  - reflexivity.
  - reflexivity.
  - right. split; [reflexivity|].
    apply (bool_decide_unpack _). vm_compute. exact I.
Defined.

(** ** The checkpoint *)

Lemma mapM_as_str (l : list string) : mapM as_str (JStr <$> l) = Some l.
Proof.
  induction l as [|x l IH]; [done|].
  rewrite fmap_cons. cbn [mapM as_str]. rewrite IH. done.
Qed.

Lemma mapM_as_count (l : list (string * Z)) :
  mapM as_count ((λ kv : string * Z, (kv.1, JInt kv.2)) <$> l) = Some l.
Proof.
  induction l as [|[k v] l IH]; [done|].
  rewrite fmap_cons. cbn [mapM as_count fst snd]. rewrite IH. done.
Qed.

Lemma as_counts_dump (failed : gmap string Z) :
  as_counts (dump_counts failed) = Some failed.
Proof.
  unfold as_counts, dump_counts. rewrite mapM_as_count. simpl.
  by rewrite list_to_map_to_list.
Qed.

Lemma as_str_list_dump (l : list string) :
  as_str_list (JArr (JStr <$> l)) = Some l.
Proof. unfold as_str_list. apply mapM_as_str. Qed.

(** What a complete document gives back, whatever collector loads it. *)
Lemma load_dump_state (now : string) (r : Reading) (c : Collector)
    (failed : gmap string Z) (c0 : Collector) :
  (load_checkpoint
     (Document (dump_state (checkpoint_state now r c) failed)) c0).2 = true
  ∧ visited_urls (load_checkpoint
       (Document (dump_state (checkpoint_state now r c) failed)) c0).1
    = visited_urls c
  ∧ urls_to_visit (load_checkpoint
       (Document (dump_state (checkpoint_state now r c) failed)) c0).1
    = urls_to_visit c
  ∧ failed_urls (load_checkpoint
       (Document (dump_state (checkpoint_state now r c) failed)) c0).1
    = failed
  ∧ stats (load_checkpoint
       (Document (dump_state (checkpoint_state now r c) failed)) c0).1
    = stats c.
Proof.
  unfold load_checkpoint, dump_state, checkpoint_state, to_dict.
  cbn [get assoc String.eqb Ascii.eqb Bool.eqb default mbind option_bind
       snap_visited_urls snap_urls_to_visit snap_statistics snap_start_time
       snap_timestamp].
  unfold id. rewrite !as_str_list_dump, as_counts_dump.
  cbn -[list_to_set elements].
  rewrite !list_to_set_elements_L.
  destruct (start_time c) as [[|a t]|]; cbn; repeat split;
    by destruct (stats c).
Qed.

Lemma attempt_content_hashes {A : Type} (r : option A) (c : Collector)
    (k : A → Collector * bool) (X : gset string) :
  (∀ a, content_hashes (k a).1 = X) →
  content_hashes c = X →
  content_hashes (attempt r c k).1 = X.
Proof. intros Hk Hc. destruct r as [a|]; simpl; [apply Hk | done]. Qed.

(** [load_checkpoint] leaves the fingerprint set alone. *)
Lemma load_checkpoint_content_hashes (file : File) (c : Collector) :
  content_hashes (load_checkpoint file c).1 = content_hashes c.
Proof.
  unfold load_checkpoint. destruct file as [| |state]; [done | done |].
  repeat (apply attempt_content_hashes; [intros ?|reflexivity]).
  destruct (truthy _); [|reflexivity].
  apply attempt_content_hashes; [intros ?|]; reflexivity.
Qed.

(** C7, as the code has it. [save_checkpoint] rewrites the checkpoint
    file in place: opening it with mode ['w'] leaves it empty, and the
    document arrives with the later write. Once the write is done, and
    if nothing else ran in between, the file holds the complete snapshot
    of the collector. *)
Theorem checkpoint_is_rewritten_in_place
    (E : Externals) (config : Config) (w : World) (now : string) (r : Reading) :
  saving w = None →
  ∃ w1 w2,
    exec E config (SaveOpen now r) w = Some w1
    ∧ checkpoint_file w1 = Truncated
    ∧ load_checkpoint (checkpoint_file w1) (Collector_init config)
      = (Collector_init config, false)
    ∧ exec E config SaveWrite w1 = Some w2
    ∧ checkpoint_file w2
      = save_checkpoint now r (collector w) (failed_urls (collector w))
    ∧ collector w2 = collector w.
Proof.
  intros Hs. unfold exec. rewrite Hs. eexists. eexists.
  split; [reflexivity|]. simpl. repeat split; reflexivity.
Qed.

Lemma checkpoint_is_rewritten_in_place_witness :
  ∃ w1 w2,
    exec Fixture.lib Fixture.cfg (SaveOpen "t2" Fixture.reading) Fixture.boot
      = Some w1
    ∧ checkpoint_file w1 = Truncated
    ∧ load_checkpoint (checkpoint_file w1) (Collector_init Fixture.cfg)
      = (Collector_init Fixture.cfg, false)
    ∧ exec Fixture.lib Fixture.cfg SaveWrite w1 = Some w2
    ∧ checkpoint_file w2
      = save_checkpoint "t2" Fixture.reading (collector Fixture.boot)
          (failed_urls (collector Fixture.boot))
    ∧ collector w2 = collector Fixture.boot.
Proof.
  apply (checkpoint_is_rewritten_in_place Fixture.lib Fixture.cfg Fixture.boot
           "t2" Fixture.reading).
  reflexivity.
Defined.

(** C7 as stated fails: after the first run the file holds a complete
    checkpoint; when the next [save_checkpoint] has opened the file, a
    reader finds it empty, which is neither the old document nor the
    new one, and a resume at that point does not load anything. *)
Lemma half_written_checkpoint_counterexample :
  ∃ w w1,
    exec_all Fixture.lib Fixture.cfg Fixture.first_run Fixture.boot = Some w
    ∧ exec Fixture.lib Fixture.cfg (SaveOpen "t3" Fixture.reading) w = Some w1
    ∧ is_document (checkpoint_file w) = true
    ∧ is_document (checkpoint_file w1) = false
    ∧ saving w1 = Some (checkpoint_state "t3" Fixture.reading (collector w))
    ∧ (load_checkpoint (checkpoint_file w1) (Collector_init Fixture.cfg)).2
      = false.
Proof.
  eexists. eexists.
  split; [vm_compute; reflexivity|].
  split; [vm_compute; reflexivity|].
  split; [vm_compute; reflexivity|].
  split; [vm_compute; reflexivity|].
  split; vm_compute; reflexivity.
Qed.

(** ** The event loop *)

Lemma in_phase_spec (p : Phase) (t : Task) :
  in_phase p t = true ↔ task_phase t = p.
Proof.
  unfold in_phase, is_phase. rewrite bool_decide_eq_true. split; congruence.
Qed.

Lemma in_phase_false (p : Phase) (t : Task) :
  in_phase p t = false ↔ task_phase t ≠ p.
Proof. rewrite <- in_phase_spec. by destruct (in_phase p t). Qed.

Lemma forallb_lookup {A : Type} (f : A → bool) (l : list A) (i : nat) (x : A) :
  forallb f l = true → l !! i = Some x → f x = true.
Proof.
  intros Hall Hi. rewrite forallb_forall in Hall. apply Hall.
  apply list_elem_of_In. by eapply list_elem_of_lookup_2.
Qed.


Section RunFacts.
Variable E : Externals.
Variable config : Config.

Arguments in_phase : simpl never.

Lemma all_started_forallb (l : list Task) :
  forallb (λ t', negb (in_phase Created t')) l = true → all_started l.
Proof.
  intros Hall j t Hj Hc.
  pose proof (forallb_lookup _ l j t Hall Hj) as Hn. cbv beta in Hn.
  apply in_phase_spec in Hc. by rewrite Hc in Hn.
Qed.

Lemma all_started_insert (l : list Task) (i : nat) (t' : Task) :
  all_started l → task_phase t' ≠ Created → all_started (<[i := t']> l).
Proof.
  intros Hl Ht' j t Hj.
  apply list_lookup_insert_Some in Hj as [(_ & <- & _) | (_ & Hj)];
    [done | by eapply Hl].
Qed.

(** With every coroutine started, the clauses of the invariant about
    the batch hold trivially. *)
Lemma frontier_inv_started (w : World) :
  visited_urls (collector w) ## urls_to_visit (collector w) →
  all_started (tasks w) →
  (∀ st, saving w = Some st → sound_snapshot st) →
  sound_file (checkpoint_file w) →
  frontier_inv w.
Proof.
  intros Hd Hall Hsv Hf. split; try done.
  - intros j t Hj Hc. by destruct (Hall j t Hj).
  - intros j k tj tk Hj _ Hc. by destruct (Hall j tj Hj).
  - intros j k tj tk Hj _ Hc. by destruct (Hall j tj Hj).
Qed.

Lemma frontier_inv_boot (now : string) :
  frontier_inv (start_process config false now Missing []).
Proof.
  apply frontier_inv_started; simpl; try done; set_solver.
Qed.

Lemma frontier_inv_dispatch (urls_batch : list string) (w w' : World) :
  frontier_inv w → exec E config (Dispatch urls_batch) w = Some w' →
  frontier_inv w'.
Proof.
  intros [Hd Hc Hn Hs Hsv Hf] Hex. simpl in Hex.
  case_match eqn:Hguard; [|discriminate]. injection Hex as <-.
  rewrite !andb_true_iff in Hguard.
  destruct Hguard as (((((_ & _) & _) & _) & Hnd) & Hin).
  apply bool_decide_eq_true in Hnd. apply bool_decide_eq_true in Hin.
  rewrite Forall_forall in Hin.
  split; simpl; try done.
  - set_solver.
  - intros j t Hj _. apply list_lookup_fmap_Some in Hj as (u & -> & Hu).
    simpl. apply list_elem_of_lookup_2 in Hu.
    pose proof (Hin u Hu). set_solver.
  - intros j k tj tk Hj Hk _ _ Heq.
    apply list_lookup_fmap_Some in Hj as (uj & -> & Huj).
    apply list_lookup_fmap_Some in Hk as (uk & -> & Huk).
    simpl in Heq. subst uk. by eapply NoDup_lookup.
  - intros j k tj tk _ Hk _.
    apply list_lookup_fmap_Some in Hk as (uk & -> & _). done.
Qed.

Lemma frontier_inv_begin (i : nat) (w w' : World) :
  frontier_inv w → exec E config (Begin i) w = Some w' →
  frontier_inv w'.
Proof.
  intros [Hd Hc Hn Hs Hsv Hf] Hex. simpl in Hex.
  destruct (tasks w !! i) as [t|] eqn:Hi; [|discriminate].
  destruct (in_phase Created t) eqn:Hp; [|discriminate].
  apply in_phase_spec in Hp. destruct (Hc i t Hi Hp) as [Hv Hq].
  unfold process_url_begin in Hex.
  rewrite bool_decide_eq_false_2 in Hex by done. simpl in Hex.
  injection Hex as <-.
  split; simpl; try done.
  - set_solver.
  - intros j tj Hj Hcj.
    apply list_lookup_insert_Some in Hj as [(_ & <- & _) | (Hne & Hj)];
      [done|].
    destruct (Hc j tj Hj Hcj) as [Hvj Hqj]. split; [|done].
    assert (task_url tj ≠ task_url t)
      by (intros Heq; apply Hne; symmetry; by eapply Hn).
    set_solver.
  - intros j k tj tk Hj Hk Hcj Hck.
    apply list_lookup_insert_Some in Hj as [(_ & <- & _) | (_ & Hj)];
      [done|].
    apply list_lookup_insert_Some in Hk as [(_ & <- & _) | (_ & Hk)];
      [done|].
    by eapply Hn.
  - intros j k tj tk Hj Hk Hcj.
    apply list_lookup_insert_Some in Hj as [(_ & <- & _) | (_ & Hj)];
      [done|].
    apply list_lookup_insert_Some in Hk as [(_ & <- & _) | (_ & Hk)];
      [done | exact (Hs j k tj tk Hj Hk Hcj)].
Qed.

Lemma frontier_inv_acquire (i : nat) (w w' : World) :
  frontier_inv w → exec E config (Acquire i) w = Some w' →
  frontier_inv w'.
Proof.
  intros [Hd Hc Hn Hs Hsv Hf] Hex. simpl in Hex.
  destruct (tasks w !! i) as [t|] eqn:Hi; [|discriminate].
  case_match eqn:Hguard; [|discriminate]. injection Hex as <-.
  rewrite !andb_true_iff in Hguard. destruct Hguard as ((_ & Hall) & _).
  apply frontier_inv_started; simpl; try done.
  apply all_started_insert; [by apply all_started_forallb | done].
Qed.

Lemma frontier_inv_complete (i : nat) (server : nat → Attempt)
    (now : string) (w w' : World) :
  frontier_inv w →
  exec E config (Complete i server now) w = Some w' →
  frontier_inv w'.
Proof.
  intros [Hd Hc Hn Hs Hsv Hf] Hex. simpl in Hex.
  destruct (tasks w !! i) as [t|] eqn:Hi; [|discriminate].
  destruct (in_phase Fetching t) eqn:Hp; [|discriminate].
  apply in_phase_spec in Hp.
  pose proof (process_url_parse_frame E config (task_url t)
                (fetched (fetch config server)) now (collector w)) as F.
  destruct (process_url_parse E config (task_url t)
              (fetched (fetch config server)) now (collector w)) as [data c'].
  simpl in F. destruct F as (Fv & _ & Fsub & Fnew & _).
  injection Hex as <-.
  apply frontier_inv_started; simpl; try done.
  - rewrite Fv. intros x Hx Hx'.
    destruct (decide (x ∈ urls_to_visit (collector w))) as [Hin|Hnin].
    + by apply (Hd x).
    + by destruct (Fnew x Hx' Hnin).
  - apply all_started_insert; [|by destruct data].
    intros j tj Hj Hcj. by apply (Hs j i tj t Hj Hi Hcj).
Qed.

(** The events inside [save_data] leave the frontier alone. *)
Lemma frontier_inv_retask (i : nat) (t t' : Task) (c' : Collector)
    (log : list DataRecord) (w : World) :
  frontier_inv w →
  tasks w !! i = Some t →
  task_phase t ≠ Created → task_phase t' ≠ Created →
  task_phase t' ≠ Fetching →
  visited_urls c' = visited_urls (collector w) →
  urls_to_visit c' = urls_to_visit (collector w) →
  frontier_inv {| collector := c'; semaphore := semaphore w;
                  tasks := <[i := t']> (tasks w); saving := saving w;
                  checkpoint_file := checkpoint_file w; data_file := log |}.
Proof.
  intros [Hd Hc Hn Hs Hsv Hf] Hi Ht Ht' Hnf Hv Hp.
  split; simpl; rewrite ?Hv, ?Hp; try done.
  - intros j tj Hj Hcj.
    apply list_lookup_insert_Some in Hj as [(_ & <- & _) | (_ & Hj)];
      [done | by eapply Hc].
  - intros j k tj tk Hj Hk Hcj Hck.
    apply list_lookup_insert_Some in Hj as [(_ & <- & _) | (_ & Hj)];
      [done|].
    apply list_lookup_insert_Some in Hk as [(_ & <- & _) | (_ & Hk)];
      [done | by eapply Hn].
  - intros j k tj tk Hj Hk Hcj.
    apply list_lookup_insert_Some in Hj as [(_ & <- & _) | (_ & Hj)];
      [done|].
    apply list_lookup_insert_Some in Hk as [(_ & <- & _) | (_ & Hk)];
      [done | exact (Hs j k tj tk Hj Hk Hcj)].
Qed.

Lemma frontier_inv_append (i : nat) (write_ok : bool) (w w' : World) :
  frontier_inv w → exec E config (Append i write_ok) w = Some w' →
  frontier_inv w'.
Proof.
  intros Hinv Hex. simpl in Hex.
  destruct (tasks w !! i) as [t|] eqn:Hi; [|discriminate].
  destruct (task_phase t) as [| | |d|d ok|] eqn:Hp; try discriminate.
  injection Hex as <-.
  apply (frontier_inv_retask i t); try done. congruence.
Qed.

Lemma frontier_inv_saved (i : nat) (w w' : World) :
  frontier_inv w → exec E config (Saved i) w = Some w' →
  frontier_inv w'.
Proof.
  intros Hinv Hex. simpl in Hex.
  destruct (tasks w !! i) as [t|] eqn:Hi; [|discriminate].
  destruct (task_phase t) as [| | |d|d ok|] eqn:Hp; try discriminate.
  injection Hex as <-.
  apply (frontier_inv_retask i t); try done. congruence.
Qed.

Lemma frontier_inv_restart (resume : bool) (now : string) (w w' : World) :
  frontier_inv w → exec E config (Restart resume now) w = Some w' →
  frontier_inv w'.
Proof.
  intros [Hd Hc Hn Hs Hsv Hf] Hex. injection Hex as <-.
  apply frontier_inv_started; [| done | done | done].
  unfold start_process.
  cbn [collector visited_urls urls_to_visit set_start_time].
  destruct resume; [|set_solver].
  destruct (checkpoint_file w) as [| |j]; [set_solver | set_solver |].
  destruct Hf as (st & failed & -> & now' & r & c & -> & Hdc).
  destruct (load_dump_state now' r c failed (Collector_init config))
    as (_ & Hv & Hp & _).
  by rewrite Hv, Hp.
Qed.

(** Every event keeps the invariant of the frontier. *)
Lemma frontier_inv_step (e : Event) (w w' : World) :
  frontier_inv w → exec E config e w = Some w' → frontier_inv w'.
Proof.
  destruct e as [urls_batch|i|i|i server now|i write_ok|i| |now r| |resume now].
  - apply frontier_inv_dispatch.
  - apply frontier_inv_begin.
  - apply frontier_inv_acquire.
  - apply frontier_inv_complete.
  - apply frontier_inv_append.
  - apply frontier_inv_saved.
  - intros [Hd Hc Hn Hs Hsv Hf] [= <-]. by split.
  - intros [Hd Hc Hn Hs Hsv Hf] Hex. simpl in Hex.
    destruct (saving w) eqn:Hsav; [discriminate|]. injection Hex as <-.
    split; simpl; try done.
    intros st [= <-]. by exists now, r, (collector w).
  - intros [Hd Hc Hn Hs Hsv Hf] Hex. simpl in Hex.
    destruct (saving w) as [st|] eqn:Hsav; [|discriminate].
    injection Hex as <-. split; simpl; try done.
    exists st, (failed_urls (collector w)). split; [done | by apply Hsv].
  - apply frontier_inv_restart.
Qed.

Lemma reachable_frontier_inv (w : World) :
  reachable E config w → frontier_inv w.
Proof.
  induction 1 as [now _ | w e w' _ IH Hex].
  - apply frontier_inv_boot.
  - by eapply frontier_inv_step.
Qed.


Lemma reachable_exec_all (es : list Event) (w w' : World) :
  reachable E config w → exec_all E config es w = Some w' →
  reachable E config w'.
Proof.
  revert w. induction es as [|e es IH]; intros w Hw Hex; simpl in Hex.
  - by injection Hex as <-.
  - destruct (exec E config e w) as [w1|] eqn:He; [|discriminate].
    apply (IH w1); [exact (reach_step E config w e w1 Hw He) | done].
Qed.

Lemma same_process_exec_all (es : list Event) (w0 w w' : World) :
  forallb (λ e, negb (is_restart e)) es = true →
  same_process E config w0 w →
  exec_all E config es w = Some w' →
  same_process E config w0 w'.
Proof.
  revert w. induction es as [|e es IH]; intros w Hes Hw Hex; simpl in *.
  - by injection Hex as <-.
  - apply andb_true_iff in Hes as [He Hes].
    destruct (exec E config e w) as [w1|] eqn:Hstep; [|discriminate].
    apply (IH w1); [done | | done].
    apply (same_step E config w0 w e w1);
      [done | by destruct (is_restart e) | done].
Qed.

(** Every event but [Begin] and [Restart] leaves the visited set as
    it is; [Begin] adds the URL of its coroutine. *)
Lemma exec_visited (e : Event) (w w' : World) :
  frontier_inv w → exec E config e w = Some w' →
  match e with
  | Begin i =>
      ∃ t, tasks w !! i = Some t
           ∧ task_phase t = Created
           ∧ (task_url t ∉ visited_urls (collector w))
           ∧ (task_url t ∉ urls_to_visit (collector w'))
           ∧ visited_urls (collector w')
             = {[task_url t]} ∪ visited_urls (collector w)
  | Restart _ _ => True
  | _ => visited_urls (collector w') = visited_urls (collector w)
  end.
Proof.
  intros [Hd Hc Hn Hs Hsv Hf] Hex.
  destruct e as [urls_batch|i|i|i server now|i write_ok|i| |now r| |resume now];
    simpl in Hex; [| | | | | | | | |done].
  - case_match; [|discriminate]. by injection Hex as <-.
  - destruct (tasks w !! i) as [t|] eqn:Hi; [|discriminate].
    destruct (in_phase Created t) eqn:Hp; [|discriminate].
    apply in_phase_spec in Hp. destruct (Hc i t Hi Hp) as [Hv Hq].
    unfold process_url_begin in Hex.
    rewrite bool_decide_eq_false_2 in Hex by done. simpl in Hex.
    injection Hex as <-. by exists t.
  - destruct (tasks w !! i) as [t|]; [|discriminate].
    case_match; [|discriminate]. by injection Hex as <-.
  - destruct (tasks w !! i) as [t|]; [|discriminate].
    destruct (in_phase Fetching t); [|discriminate].
    pose proof (process_url_parse_frame E config (task_url t)
                  (fetched (fetch config server)) now (collector w)) as F.
    destruct (process_url_parse E config (task_url t)
                (fetched (fetch config server)) now (collector w))
      as [data c'].
    injection Hex as <-. by destruct F as (Fv & _).
  - destruct (tasks w !! i) as [t|]; [|discriminate].
    destruct (task_phase t); try discriminate. by injection Hex as <-.
  - destruct (tasks w !! i) as [t|]; [|discriminate].
    destruct (task_phase t); try discriminate. by injection Hex as <-.
  - by injection Hex as <-.
  - destruct (saving w); [discriminate|]. by injection Hex as <-.
  - destruct (saving w); [|discriminate]. by injection Hex as <-.
Qed.

(** *** From the dequeue to the visited set *)

Lemma marked_step (e : Event) (w w' : World) :
  frontier_inv w → exec E config e w = Some w' → marked w → marked w'.
Proof.
  intros Hinv Hex Hm. pose proof (exec_visited e w w' Hinv Hex) as Hv.
  destruct e as [urls_batch|i|i|i server now|i write_ok|i| |now r| |resume now];
    simpl in Hex.
  - case_match; [|discriminate]. injection Hex as <-.
    intros j t Hj Hp. apply list_lookup_fmap_Some in Hj as (u & -> & _).
    by destruct Hp.
  - destruct Hv as (t & Hi & Hc & Hnew & _ & Hv).
    rewrite Hi in Hex. rewrite (proj2 (in_phase_spec Created t) Hc) in Hex.
    unfold process_url_begin in Hex.
    rewrite bool_decide_eq_false_2 in Hex by done. simpl in Hex.
    injection Hex as <-. intros j tj Hj Hp. simpl in *.
    apply list_lookup_insert_Some in Hj as [(_ & <- & _) | (_ & Hj)];
      [set_solver|].
    pose proof (Hm j tj Hj Hp). set_solver.
  - destruct (tasks w !! i) as [t|] eqn:Hi; [|discriminate].
    case_match eqn:Hguard; [|discriminate]. injection Hex as <-.
    rewrite !andb_true_iff in Hguard. destruct Hguard as ((Hp & _) & _).
    apply in_phase_spec in Hp.
    intros j tj Hj Hpj. simpl in *.
    apply list_lookup_insert_Some in Hj as [(_ & <- & _) | (_ & Hj)];
      [apply (Hm i t Hi); congruence | by apply (Hm j tj)].
  - destruct (tasks w !! i) as [t|] eqn:Hi; [|discriminate].
    destruct (in_phase Fetching t) eqn:Hp; [|discriminate].
    apply in_phase_spec in Hp.
    destruct (process_url_parse E config (task_url t)
                (fetched (fetch config server)) now (collector w))
      as [data c'].
    injection Hex as <-. intros j tj Hj Hpj. simpl in *. rewrite Hv.
    apply list_lookup_insert_Some in Hj as [(_ & <- & _) | (_ & Hj)];
      [apply (Hm i t Hi); congruence | by apply (Hm j tj)].
  - destruct (tasks w !! i) as [t|] eqn:Hi; [|discriminate].
    destruct (task_phase t) as [| | |d|d ok|] eqn:Hp; try discriminate.
    injection Hex as <-. intros j tj Hj Hpj. simpl in *.
    apply list_lookup_insert_Some in Hj as [(_ & <- & _) | (_ & Hj)];
      [apply (Hm i t Hi); congruence | by apply (Hm j tj)].
  - destruct (tasks w !! i) as [t|] eqn:Hi; [|discriminate].
    destruct (task_phase t) as [| | |d|d ok|] eqn:Hp; try discriminate.
    injection Hex as <-. intros j tj Hj Hpj. simpl in *.
    apply list_lookup_insert_Some in Hj as [(_ & <- & _) | (_ & Hj)];
      [apply (Hm i t Hi); congruence | by apply (Hm j tj)].
  - injection Hex as <-. exact Hm.
  - destruct (saving w); [discriminate|]. injection Hex as <-. exact Hm.
  - destruct (saving w); [|discriminate]. injection Hex as <-. exact Hm.
  - injection Hex as <-. intros j t Hj. simpl in Hj. discriminate Hj.
Qed.

Lemma reachable_marked (w : World) : reachable E config w → marked w.
Proof.
  induction 1 as [now _ | w e w' Hw IH Hex].
  - intros j t Hj. simpl in Hj. discriminate Hj.
  - apply (marked_step e w w'); [by apply reachable_frontier_inv | done | done].
Qed.

(** The first step of a coroutine that has not run can always be
    taken, and it puts the URL into the visited set. *)
Lemma begin_enabled (i : nat) (t : Task) (w : World) :
  frontier_inv w → tasks w !! i = Some t → task_phase t = Created →
  ∃ w', exec E config (Begin i) w = Some w'
        ∧ visited_urls (collector w')
          = {[task_url t]} ∪ visited_urls (collector w)
        ∧ urls_to_visit (collector w') = urls_to_visit (collector w)
        ∧ tasks w' = <[i := set_phase Sleeping t]> (tasks w).
Proof.
  intros [Hd Hc Hn Hs Hsv Hf] Hi Hp. destruct (Hc i t Hi Hp) as [Hv _].
  simpl. rewrite Hi. rewrite (proj2 (in_phase_spec Created t) Hp).
  unfold process_url_begin. rewrite bool_decide_eq_false_2 by done.
  eexists. split; [reflexivity|]. done.
Qed.

(** While a coroutine of the batch has not run, no coroutine takes a
    slot of the semaphore, no fetch returns and no batch is
    dequeued. *)
Lemma created_blocks (w : World) :
  frontier_inv w → some_created w →
  (∀ i, exec E config (Acquire i) w = None)
  ∧ (∀ i server now, exec E config (Complete i server now) w = None)
  ∧ ∀ urls_batch, exec E config (Dispatch urls_batch) w = None.
Proof.
  intros [Hd Hc Hn Hs Hsv Hf] (j & tj & Hj & Hpj).
  split; [|split].
  - intros i. simpl. destruct (tasks w !! i) as [t|]; [|done].
    case_match eqn:Hguard; [|done].
    rewrite !andb_true_iff in Hguard. destruct Hguard as ((_ & Hall) & _).
    pose proof (forallb_lookup _ _ j tj Hall Hj) as Hn'. cbv beta in Hn'.
    by rewrite (proj2 (in_phase_spec Created tj) Hpj) in Hn'.
  - intros i server now. simpl. destruct (tasks w !! i) as [t|] eqn:Hi; [|done].
    destruct (in_phase Fetching t) eqn:Hp; [|done].
    apply in_phase_spec in Hp. by destruct (Hs j i tj t Hj Hi Hpj).
  - intros urls_batch. simpl. case_match eqn:Hguard; [|done].
    rewrite !andb_true_iff in Hguard.
    destruct Hguard as (((((_ & Hfin) & _) & _) & _) & _).
    pose proof (forallb_lookup _ _ j tj Hfin Hj) as Hp.
    apply in_phase_spec in Hp. congruence.
Qed.

(** What a dequeue leaves behind: the URLs of the batch are in neither
    set, each with a coroutine that has not run. *)
Lemma dispatch_dequeues (urls_batch : list string) (w w' : World) :
  frontier_inv w → exec E config (Dispatch urls_batch) w = Some w' →
  ∀ u, u ∈ urls_batch →
       u ∈ urls_to_visit (collector w)
       ∧ (u ∉ visited_urls (collector w'))
       ∧ (u ∉ urls_to_visit (collector w'))
       ∧ ∃ j, tasks w' !! j = Some {| task_url := u; task_phase := Created |}.
Proof.
  intros [Hd Hc Hn Hs Hsv Hf] Hex u Hu. simpl in Hex.
  case_match eqn:Hguard; [|discriminate]. injection Hex as <-.
  rewrite !andb_true_iff in Hguard.
  destruct Hguard as (((((_ & _) & _) & _) & _) & Hin).
  apply bool_decide_eq_true in Hin. rewrite Forall_forall in Hin.
  pose proof (Hin u Hu) as Hpend. simpl.
  split; [done|]. split; [set_solver|]. split; [set_solver|].
  apply list_elem_of_lookup_1 in Hu as [j Hj]. exists j.
  by rewrite list_lookup_fmap, Hj.
Qed.

(** Within a process the visited set only grows, and a URL enters it
    at one step at most. *)
Lemma exec_visited_mono (e : Event) (w w' : World) :
  frontier_inv w → is_restart e = false → exec E config e w = Some w' →
  visited_urls (collector w) ⊆ visited_urls (collector w').
Proof.
  intros Hinv Hnr Hex. pose proof (exec_visited e w w' Hinv Hex) as Hv.
  destruct e; try discriminate Hnr; try (by rewrite Hv).
  destruct Hv as (t & _ & _ & _ & _ & ->). set_solver.
Qed.

Lemma exec_all_visited_mono (es : list Event) (w w' : World) :
  frontier_inv w → forallb (λ e, negb (is_restart e)) es = true →
  exec_all E config es w = Some w' →
  visited_urls (collector w) ⊆ visited_urls (collector w').
Proof.
  revert w. induction es as [|e es IH]; intros w Hinv Hes Hex; simpl in *.
  - by injection Hex as <-.
  - apply andb_true_iff in Hes as [He Hes]. apply negb_true_iff in He.
    destruct (exec E config e w) as [w1|] eqn:Hstep; [|discriminate].
    pose proof (exec_visited_mono e w w1 Hinv He Hstep).
    pose proof (IH w1 (frontier_inv_step e w w1 Hinv Hstep) Hes Hex).
    set_solver.
Qed.

Lemma entries_visited (u : string) (es : list Event) (w : World) :
  frontier_inv w → forallb (λ e, negb (is_restart e)) es = true →
  u ∈ visited_urls (collector w) → entries E config u es w = 0%nat.
Proof.
  revert w. induction es as [|e es IH]; intros w Hinv Hes Hu; simpl in *;
    [done|].
  apply andb_true_iff in Hes as [He Hes]. apply negb_true_iff in He.
  destruct (exec E config e w) as [w1|] eqn:Hstep; [|done].
  rewrite (bool_decide_eq_false_2 (u ∉ visited_urls (collector w)))
    by (intros Hn; by apply Hn).
  simpl. apply IH; [by eapply frontier_inv_step | done |].
  by apply (exec_visited_mono e w w1 Hinv He Hstep).
Qed.

Lemma entries_once (u : string) (es : list Event) (w : World) :
  frontier_inv w → forallb (λ e, negb (is_restart e)) es = true →
  (entries E config u es w <= 1)%nat.
Proof.
  revert w. induction es as [|e es IH]; intros w Hinv Hes; simpl in *; [lia|].
  apply andb_true_iff in Hes as [He Hes]. apply negb_true_iff in He.
  destruct (exec E config e w) as [w1|] eqn:Hstep; [|lia].
  pose proof (frontier_inv_step e w w1 Hinv Hstep) as Hinv1.
  destruct (bool_decide (u ∉ visited_urls (collector w))
            && bool_decide (u ∈ visited_urls (collector w1))) eqn:Hin.
  - apply andb_true_iff in Hin as [_ Hin]. apply bool_decide_eq_true in Hin.
    rewrite (entries_visited u es w1 Hinv1 Hes Hin). lia.
  - specialize (IH w1 Hinv1 Hes). lia.
Qed.

(** *** The semaphore *)

Lemma fetching_insert (l : list Task) (i : nat) (t t' : Task) :
  l !! i = Some t →
  Z.of_nat (fetching (<[i := t']> l))
  = Z.of_nat (fetching l) - Z.b2z (in_phase Fetching t)
    + Z.b2z (in_phase Fetching t').
Proof.
  unfold fetching. revert i. induction l as [|x l IH]; intros i Hi; [done|].
  destruct i as [|i]; simpl in *.
  - injection Hi as ->.
    destruct (in_phase Fetching t), (in_phase Fetching t'); simpl; lia.
  - specialize (IH i Hi).
    destruct (in_phase Fetching x); simpl; lia.
Qed.

Lemma fetching_none (l : list Task) :
  (∀ j t, l !! j = Some t → in_phase Fetching t = false) → fetching l = 0%nat.
Proof.
  unfold fetching. induction l as [|x l IH]; intros Hall; [done|]. simpl.
  rewrite (Hall 0%nat x eq_refl). apply IH.
  intros j t Hj. by apply (Hall (S j)).
Qed.

Lemma semaphore_inv_step (e : Event) (w w' : World) :
  semaphore_inv config w → exec E config e w = Some w' →
  semaphore_inv config w'.
Proof.
  unfold semaphore_inv, in_flight. fold (fetching (tasks w)).
  fold (fetching (tasks w')). intros [Hsum Hpos] Hex.
  destruct e as [urls_batch|i|i|i server now|i write_ok|i| |now r| |resume now];
    simpl in Hex.
  - case_match eqn:Hguard; [|discriminate]. injection Hex as <-. simpl.
    rewrite !andb_true_iff in Hguard.
    destruct Hguard as (((((_ & Hfin) & _) & _) & _) & _).
    rewrite (fetching_none (tasks w)) in Hsum.
    + rewrite fetching_none; [done|].
      intros j t Hj. by apply list_lookup_fmap_Some in Hj as (u & -> & _).
    + intros j t Hj. pose proof (forallb_lookup _ _ j t Hfin Hj) as Hp.
      apply in_phase_spec in Hp. apply in_phase_false. by rewrite Hp.
  - destruct (tasks w !! i) as [t|] eqn:Hi; [|discriminate].
    destruct (in_phase Created t) eqn:Hp; [|discriminate].
    apply in_phase_spec in Hp.
    assert (in_phase Fetching t = false) as Hnf
      by (apply in_phase_false; by rewrite Hp).
    destruct (process_url_begin (task_url t) (collector w));
      injection Hex as <-; simpl;
      rewrite (fetching_insert _ i t) by done; rewrite Hnf; simpl; lia.
  - destruct (tasks w !! i) as [t|] eqn:Hi; [|discriminate].
    case_match eqn:Hguard; [|discriminate]. injection Hex as <-. simpl.
    rewrite !andb_true_iff in Hguard. destruct Hguard as ((Hp & _) & Hfree).
    apply in_phase_spec in Hp.
    assert (in_phase Fetching t = false) as Hnf
      by (apply in_phase_false; by rewrite Hp).
    apply Z.ltb_lt in Hfree.
    rewrite (fetching_insert _ i t) by done. rewrite Hnf. simpl. lia.
  - destruct (tasks w !! i) as [t|] eqn:Hi; [|discriminate].
    destruct (in_phase Fetching t) eqn:Hp; [|discriminate].
    destruct (process_url_parse E config (task_url t)
                (fetched (fetch config server)) now (collector w))
      as [data c'].
    injection Hex as <-. simpl.
    rewrite (fetching_insert _ i t) by done. rewrite Hp.
    replace (in_phase Fetching
               (set_phase match data with
                          | Some d => Saving d
                          | None => Finished
                          end t)) with false by (by destruct data).
    simpl. lia.
  - destruct (tasks w !! i) as [t|] eqn:Hi; [|discriminate].
    destruct (task_phase t) as [| | |d|d ok|] eqn:Hp; try discriminate.
    injection Hex as <-. simpl.
    rewrite (fetching_insert _ i t) by done.
    rewrite (proj2 (in_phase_false Fetching t)) by congruence.
    change (in_phase Fetching (set_phase (Stored d write_ok) t)) with false.
    simpl. lia.
  - destruct (tasks w !! i) as [t|] eqn:Hi; [|discriminate].
    destruct (task_phase t) as [| | |d|d ok|] eqn:Hp; try discriminate.
    injection Hex as <-. simpl.
    rewrite (fetching_insert _ i t) by done.
    rewrite (proj2 (in_phase_false Fetching t)) by congruence.
    change (in_phase Fetching (set_phase Finished t)) with false.
    simpl. lia.
  - by injection Hex as <-.
  - destruct (saving w); [discriminate|]. by injection Hex as <-.
  - destruct (saving w); [|discriminate]. by injection Hex as <-.
  - injection Hex as <-. simpl. unfold fetching. simpl. lia.
Qed.

Lemma reachable_semaphore_inv (w : World) :
  reachable E config w → semaphore_inv config w.
Proof.
  induction 1 as [now Hsize | w e w' _ IH Hex].
  - unfold semaphore_inv, in_flight. simpl. lia.
  - by eapply semaphore_inv_step.
Qed.

(** *** The record log *)

Lemma fingerprints_app (l k : list DataRecord) :
  fingerprints E (l ++ k) = fingerprints E l ++ fingerprints E k.
Proof. unfold fingerprints. apply omap_app. Qed.

(** A record that [process_url_parse] hands to [save_data] is a code
    record, or a webpage whose fingerprint has just entered the
    fingerprint set. *)
Lemma process_url_parse_record (url : string) (content : option string)
    (now : string) (c : Collector) (d : DataRecord) :
  (process_url_parse E config url content now c).1 = Some d →
  fingerprint E d = None
  ∨ ∃ h, fingerprint E d = Some h
         ∧ (remove_duplicates config = true →
            (h ∉ content_hashes c)
            ∧ h ∈ content_hashes
                    (process_url_parse E config url content now c).2).
Proof.
  destruct content as [[|a html]|]; [done | | done].
  unfold process_url_parse.
  destruct (is_code_url E config url).
  - simpl. intros Hd. left.
    by apply (parse_code_content_code E config (String a html) url now).
  - pose proof (parse_content_records E config (String a html) url now c) as A.
    destruct (parse_content E config (String a html) url now c) as [data c1].
    simpl in A. destruct data as [d'|]; [|done].
    destruct (A d' eq_refl) as (r & -> & Hr).
    destruct (follow_external_links config); simpl; intros [= <-];
      right; exists (md5_hexdigest E (wp_content r)); (split; [done|]);
      intros Hrd; destruct (Hr Hrd); done.
Qed.

Lemma unwritten_spec (t : Task) (d : DataRecord) :
  unwritten t = Some d ↔ task_phase t = Saving d.
Proof.
  unfold unwritten. destruct (task_phase t); split; congruence.
Qed.

(** Every event of one process keeps the invariant of the
    fingerprints. *)
Lemma fingerprint_inv_step (log0 : list DataRecord) (e : Event) (w w' : World) :
  remove_duplicates config = true →
  is_restart e = false → exec E config e w = Some w' →
  fingerprint_inv E log0 w → fingerprint_inv E log0 w'.
Proof.
  intros Hrd Hnr Hex [(new & Hlog & Hnd & Hin & Hfresh) Hheld Hdist].
  destruct e as [urls_batch|i|i|i server now|i write_ok|i| |now r| |resume now];
    simpl in Hex; [| | | | | | | | |done].
  - case_match eqn:Hguard; [|discriminate]. injection Hex as <-.
    assert (∀ j t d, ((λ u, {| task_url := u; task_phase := Created |})
                        <$> urls_batch) !! j = Some t →
                     unwritten t = Some d → False) as Hnone.
    { intros j t d Hj Hu.
      apply list_lookup_fmap_Some in Hj as (u & -> & _). discriminate Hu. }
    split; simpl.
    + exists new. repeat split; try done.
      intros j t d h Hj Hu. by destruct (Hnone j t d Hj Hu).
    + intros j t d h Hj Hu. by destruct (Hnone j t d Hj Hu).
    + intros j k tj tk dj dk h Hj _ Hu. by destruct (Hnone j tj dj Hj Hu).
  - destruct (tasks w !! i) as [t|] eqn:Hi; [|discriminate].
    destruct (in_phase Created t) eqn:Hp; [|discriminate].
    apply in_phase_spec in Hp.
    assert (∀ p j tj d, p ≠ Saving d →
              <[i := set_phase p t]> (tasks w) !! j = Some tj →
              unwritten tj = Some d →
              j ≠ i ∧ tasks w !! j = Some tj) as Hother.
    { intros p j tj d Hpd Hj Hu.
      apply list_lookup_insert_Some in Hj as [(_ & <- & _) | (Hne & Hj)];
        [|done].
      apply unwritten_spec in Hu. simpl in Hu. congruence. }
    unfold process_url_begin in Hex.
    case_bool_decide; injection Hex as <-; (split; simpl).
    + exists new. repeat split; try done.
      intros j tj d h Hj Hu.
      destruct (Hother Finished j tj d ltac:(done) Hj Hu) as [_ Hj'].
      by eapply Hfresh.
    + intros j tj d h Hj Hu.
      destruct (Hother Finished j tj d ltac:(done) Hj Hu) as [_ Hj'].
      by eapply Hheld.
    + intros j k tj tk dj dk h Hj Hk Huj Huk.
      destruct (Hother Finished j tj dj ltac:(done) Hj Huj) as [_ Hj'].
      destruct (Hother Finished k tk dk ltac:(done) Hk Huk) as [_ Hk'].
      by eapply Hdist.
    + exists new. repeat split; try done.
      intros j tj d h Hj Hu.
      destruct (Hother Sleeping j tj d ltac:(done) Hj Hu) as [_ Hj'].
      by eapply Hfresh.
    + intros j tj d h Hj Hu.
      destruct (Hother Sleeping j tj d ltac:(done) Hj Hu) as [_ Hj'].
      by eapply Hheld.
    + intros j k tj tk dj dk h Hj Hk Huj Huk.
      destruct (Hother Sleeping j tj dj ltac:(done) Hj Huj) as [_ Hj'].
      destruct (Hother Sleeping k tk dk ltac:(done) Hk Huk) as [_ Hk'].
      by eapply Hdist.
  - destruct (tasks w !! i) as [t|] eqn:Hi; [|discriminate].
    case_match eqn:Hguard; [|discriminate]. injection Hex as <-.
    assert (∀ j tj d,
              <[i := set_phase Fetching t]> (tasks w) !! j = Some tj →
              unwritten tj = Some d → tasks w !! j = Some tj) as Hother.
    { intros j tj d Hj Hu.
      apply list_lookup_insert_Some in Hj as [(_ & <- & _) | (Hne & Hj)];
        [discriminate Hu | done]. }
    split; simpl.
    + exists new. repeat split; try done.
      intros j tj d h Hj Hu. by eapply Hfresh; [eapply Hother|..].
    + intros j tj d h Hj Hu. by eapply Hheld; [eapply Hother|..].
    + intros j k tj tk dj dk h Hj Hk Huj Huk.
      by eapply Hdist; [eapply Hother | eapply Hother |..].
  - destruct (tasks w !! i) as [t|] eqn:Hi; [|discriminate].
    destruct (in_phase Fetching t) eqn:Hp; [|discriminate].
    apply in_phase_spec in Hp.
    pose proof (process_url_parse_frame E config (task_url t)
                  (fetched (fetch config server)) now (collector w)) as F.
    pose proof (process_url_parse_record (task_url t)
                  (fetched (fetch config server)) now (collector w)) as R.
    destruct (process_url_parse E config (task_url t)
                (fetched (fetch config server)) now (collector w))
      as [data c'].
    simpl in F, R. destruct F as (_ & _ & _ & _ & _ & Fh).
    injection Hex as <-.
    assert (∀ j tj d h,
              <[i := set_phase match data with
                               | Some d => Saving d
                               | None => Finished
                               end t]> (tasks w) !! j = Some tj →
              unwritten tj = Some d → fingerprint E d = Some h →
              (j = i ∧ data = Some d ∧ (h ∉ content_hashes (collector w))
               ∧ h ∈ content_hashes c')
              ∨ (j ≠ i ∧ tasks w !! j = Some tj)) as Hcase.
    { intros j tj d h Hj Hu Hh.
      apply list_lookup_insert_Some in Hj as [(-> & <- & _) | (Hne & Hj)];
        [left | by right].
      apply unwritten_spec in Hu. simpl in Hu.
      destruct data as [d'|]; [|discriminate Hu]. injection Hu as ->.
      destruct (R d eq_refl) as [Hnone | (h' & Hh' & Hfp)]; [congruence|].
      rewrite Hh in Hh'. injection Hh' as <-.
      destruct (Hfp Hrd). done. }
    split; simpl.
    + exists new. repeat split; try done.
      * intros h Hh. apply Fh. by apply Hin.
      * intros j tj d h Hj Hu Hh.
        destruct (Hcase j tj d h Hj Hu Hh)
          as [(_ & _ & Hnew & _) | (_ & Hj')].
        -- intros Hold. apply Hnew. by apply Hin.
        -- by eapply Hfresh.
    + intros j tj d h Hj Hu Hh.
      destruct (Hcase j tj d h Hj Hu Hh) as [(_ & _ & _ & Hnow) | (_ & Hj')];
        [done|]. apply Fh. by eapply Hheld.
    + intros j k tj tk dj dk h Hj Hk Huj Huk Hhj Hhk.
      destruct (Hcase j tj dj h Hj Huj Hhj)
        as [(-> & _ & Hnewj & _) | (Hnej & Hj')];
        destruct (Hcase k tk dk h Hk Huk Hhk)
          as [(-> & _ & Hnewk & _) | (Hnek & Hk')]; try done.
      * destruct Hnewj. by eapply Hheld.
      * destruct Hnewk. by eapply Hheld.
      * by eapply Hdist.
  - destruct (tasks w !! i) as [t|] eqn:Hi; [|discriminate].
    destruct (task_phase t) as [| | |d|d ok|] eqn:Hp; try discriminate.
    injection Hex as <-.
    assert (unwritten t = Some d) as Hut by (by apply unwritten_spec).
    assert (∀ j tj dj,
              <[i := set_phase (Stored d write_ok) t]> (tasks w) !! j = Some tj →
              unwritten tj = Some dj → j ≠ i ∧ tasks w !! j = Some tj)
      as Hother.
    { intros j tj dj Hj Hu.
      apply list_lookup_insert_Some in Hj as [(_ & <- & _) | (Hne & Hj)];
        [discriminate Hu | done]. }
    split; simpl.
    + destruct write_ok.
      * exists (new ++ [d]). rewrite Hlog, <- app_assoc. split; [done|].
        rewrite fingerprints_app.
        destruct (fingerprint E d) as [h|] eqn:Hh.
        -- assert (fingerprints E [d] = [h]) as ->
             by (unfold fingerprints; simpl; by rewrite Hh).
           split; [|split].
           ++ apply NoDup_app. split; [done|]. split; [|apply NoDup_singleton].
              intros x Hx Hx'. apply list_elem_of_singleton in Hx' as ->.
              by apply (Hfresh i t d h).
           ++ intros x Hx. apply elem_of_app in Hx as [Hx | Hx];
                [by apply Hin|].
              apply list_elem_of_singleton in Hx as ->.
              by apply (Hheld i t d h).
           ++ intros j tj dj hj Hj Hu Hhj Hx.
              destruct (Hother j tj dj Hj Hu) as [Hne Hj'].
              apply elem_of_app in Hx as [Hx | Hx].
              ** by apply (Hfresh j tj dj hj).
              ** apply list_elem_of_singleton in Hx as ->.
                 apply Hne. by apply (Hdist j i tj t dj d h).
        -- assert (fingerprints E [d] = []) as ->
             by (unfold fingerprints; simpl; by rewrite Hh).
           rewrite app_nil_r. repeat split; try done.
           intros j tj dj hj Hj Hu.
           destruct (Hother j tj dj Hj Hu) as [_ Hj']. by eapply Hfresh.
      * exists new. repeat split; try done.
        intros j tj dj hj Hj Hu.
        destruct (Hother j tj dj Hj Hu) as [_ Hj']. by eapply Hfresh.
    + intros j tj dj hj Hj Hu.
      destruct (Hother j tj dj Hj Hu) as [_ Hj']. by eapply Hheld.
    + intros j k tj tk dj dk h Hj Hk Huj Huk.
      destruct (Hother j tj dj Hj Huj) as [_ Hj'].
      destruct (Hother k tk dk Hk Huk) as [_ Hk']. by eapply Hdist.
  - destruct (tasks w !! i) as [t|] eqn:Hi; [|discriminate].
    destruct (task_phase t) as [| | |d|d ok|] eqn:Hp; try discriminate.
    injection Hex as <-.
    assert (∀ j tj dj,
              <[i := set_phase Finished t]> (tasks w) !! j = Some tj →
              unwritten tj = Some dj → tasks w !! j = Some tj) as Hother.
    { intros j tj dj Hj Hu.
      apply list_lookup_insert_Some in Hj as [(_ & <- & _) | (Hne & Hj)];
        [discriminate Hu | done]. }
    split; simpl.
    + exists new. repeat split; try done.
      intros j tj dj hj Hj Hu. by eapply Hfresh; [eapply Hother|..].
    + intros j tj dj hj Hj Hu. by eapply Hheld; [eapply Hother|..].
    + intros j k tj tk dj dk h Hj Hk Huj Huk.
      by eapply Hdist; [eapply Hother | eapply Hother |..].
  - injection Hex as <-. split; simpl; [by exists new | done | done].
  - destruct (saving w); [discriminate|]. injection Hex as <-.
    split; simpl; [by exists new | done | done].
  - destruct (saving w); [|discriminate]. injection Hex as <-.
    split; simpl; [by exists new | done | done].
Qed.

Lemma settled_held (w : World) (j : nat) (t : Task) :
  settled w = true → tasks w !! j = Some t → held t = None.
Proof.
  intros Hall Hj. pose proof (forallb_lookup _ _ j t Hall Hj) as H.
  by apply bool_decide_eq_true in H.
Qed.

Lemma settled_unwritten (w : World) (j : nat) (t : Task) :
  settled w = true → tasks w !! j = Some t → unwritten t = None.
Proof.
  intros Hall Hj. pose proof (settled_held w j t Hall Hj) as H.
  unfold held, unwritten in *. by destruct (task_phase t).
Qed.

Lemma same_process_fingerprint_inv (w0 w : World) :
  remove_duplicates config = true →
  settled w0 = true →
  same_process E config w0 w →
  fingerprint_inv E (data_file w0) w.
Proof.
  intros Hrd Hset.
  pose proof (λ j t, settled_unwritten w0 j t Hset) as Hnone.
  induction 1 as [|w e w' _ IH Hnr Hex].
  - split.
    + exists []. rewrite app_nil_r. split; [done|]. split; [constructor|].
      split; [intros h Hh; by apply elem_of_nil in Hh|].
      intros j t d h Hj Hu. rewrite (Hnone j t Hj) in Hu. discriminate Hu.
    + intros j t d h Hj Hu. rewrite (Hnone j t Hj) in Hu. discriminate Hu.
    + intros j k tj tk dj dk h Hj _ Hu. rewrite (Hnone j tj Hj) in Hu.
      discriminate Hu.
  - by apply (fingerprint_inv_step (data_file w0) e w w').
Qed.

End RunFacts.

(** C4, as the code has it. In every world a run can reach, no URL is
    both visited and pending. A URL that the dispatch loop dequeues is
    not added to the visited set there: it is in neither set until the
    coroutine made for it takes its first step, which adds it, before
    the politeness delay and the fetch. That step can always be taken,
    and as long as a coroutine of the batch has not taken it, no
    coroutine of the batch gets a slot of the semaphore, no fetch
    returns and no further batch is dequeued; so every URL of a batch
    is visited before the first request of the batch. No other event
    of a process, whatever a fetch returns, adds or removes a visited
    URL: within a process the visited set only grows, and a URL enters
    it at one step at most. *)
Theorem visited_and_pending_stay_disjoint
    (E : Externals) (config : Config) (w : World) :
  reachable E config w →
  visited_urls (collector w) ## urls_to_visit (collector w)
  ∧ (∀ j t, tasks w !! j = Some t →
            (task_url t ∉ urls_to_visit (collector w))
            ∧ (task_phase t = Created →
               task_url t ∉ visited_urls (collector w))
            ∧ (task_phase t ≠ Created →
               task_url t ∈ visited_urls (collector w)))
  ∧ (∀ i t, tasks w !! i = Some t → task_phase t = Created →
            ∃ w', exec E config (Begin i) w = Some w'
                  ∧ visited_urls (collector w')
                    = {[task_url t]} ∪ visited_urls (collector w)
                  ∧ urls_to_visit (collector w') = urls_to_visit (collector w)
                  ∧ tasks w' = <[i := set_phase Sleeping t]> (tasks w))
  ∧ (some_created w →
     (∀ i, exec E config (Acquire i) w = None)
     ∧ (∀ i server now, exec E config (Complete i server now) w = None)
     ∧ ∀ urls_batch, exec E config (Dispatch urls_batch) w = None)
  ∧ (∀ (e : Event) (w' : World),
       exec E config e w = Some w' →
       match e with
       | Dispatch urls_batch =>
           visited_urls (collector w') = visited_urls (collector w)
           ∧ ∀ u, u ∈ urls_batch →
                  u ∈ urls_to_visit (collector w)
                  ∧ (u ∉ visited_urls (collector w'))
                  ∧ (u ∉ urls_to_visit (collector w'))
                  ∧ ∃ j, tasks w' !! j
                         = Some {| task_url := u; task_phase := Created |}
       | Begin i =>
           ∃ t, tasks w !! i = Some t
                ∧ task_phase t = Created
                ∧ (task_url t ∉ visited_urls (collector w))
                ∧ (task_url t ∉ urls_to_visit (collector w'))
                ∧ visited_urls (collector w')
                  = {[task_url t]} ∪ visited_urls (collector w)
       | Restart _ _ => True
       | _ => visited_urls (collector w') = visited_urls (collector w)
       end)
  ∧ (∀ (es : list Event) (w' : World),
       forallb (λ e, negb (is_restart e)) es = true →
       exec_all E config es w = Some w' →
       visited_urls (collector w) ⊆ visited_urls (collector w')
       ∧ ∀ u, (entries E config u es w <= 1)%nat).
Proof.
  intros Hw. pose proof (reachable_frontier_inv E config w Hw) as Hinv.
  pose proof (reachable_marked E config w Hw) as Hm.
  split; [by destruct Hinv|]. split; [|split; [|split; [|split]]].
  - intros j t Hj.
    destruct (decide (task_phase t = Created)) as [Hc | Hn].
    + destruct (inv_created w Hinv j t Hj Hc) as [Hv Hp].
      split; [done|]. split; [done|]. by intros Hne.
    + pose proof (Hm j t Hj Hn) as Hv. pose proof (inv_disjoint w Hinv).
      split; [set_solver|]. split; [by intros Hc | done].
  - intros i t Hi Hc. by apply begin_enabled.
  - by apply created_blocks.
  - intros e w' Hex. pose proof (exec_visited E config e w w' Hinv Hex) as Hv.
    destruct e; try exact Hv.
    split; [exact Hv|]. by apply (dispatch_dequeues E config urls_batch w w').
  - intros es w' Hes Hex.
    split; [by apply (exec_all_visited_mono E config es) |].
    intros u. by apply entries_once.
Qed.

Lemma fetching_seed_reachable :
  reachable Fixture.lib Fixture.cfg Fixture.fetching_seed.
Proof.
  apply (reachable_exec_all Fixture.lib Fixture.cfg Fixture.fetch_seed
           Fixture.boot).
  - apply reach_boot. simpl. lia.
  - vm_compute. reflexivity.
Defined.

Lemma dequeued_seed_reachable :
  reachable Fixture.lib Fixture.cfg Fixture.dequeued_seed.
Proof.
  apply (reachable_exec_all Fixture.lib Fixture.cfg
           [ Dispatch ["http://site.test/a"] ] Fixture.boot).
  - apply reach_boot. simpl. lia.
  - vm_compute. reflexivity.
Defined.

(** The seed, once dequeued, is in neither set; its first step can be
    taken and makes it visited, and nothing of the batch goes on
    before. *)
Lemma visited_and_pending_stay_disjoint_witness :
  visited_urls (collector Fixture.dequeued_seed)
  ## urls_to_visit (collector Fixture.dequeued_seed)
  ∧ (∃ w', exec Fixture.lib Fixture.cfg (Begin 0) Fixture.dequeued_seed
           = Some w'
           ∧ visited_urls (collector w')
             = {["http://site.test/a"]}
               ∪ visited_urls (collector Fixture.dequeued_seed))
  ∧ exec Fixture.lib Fixture.cfg (Acquire 0) Fixture.dequeued_seed = None.
Proof.
  destruct (visited_and_pending_stay_disjoint Fixture.lib Fixture.cfg
              Fixture.dequeued_seed dequeued_seed_reachable)
    as (Hd & _ & Hbegin & Hblock & _).
  split; [exact Hd|]. split.
  - destruct (Hbegin 0%nat {| task_url := "http://site.test/a";
                              task_phase := Created |} eq_refl eq_refl)
      as (w' & Hex & Hv & _).
    exists w'. split; [exact Hex | exact Hv].
  - apply Hblock.
    exists 0%nat, {| task_url := "http://site.test/a"; task_phase := Created |}.
    split; reflexivity.
Defined.

(** C4 as stated fails: when the link found on the seed page has been
    dequeued, it is not in the visited set, nor in the pending set. A
    periodic checkpoint that is due at that moment builds its [state]
    before the coroutine of the link has run: the file it writes names
    the link in neither list, and a process resumed from it has nothing
    to crawl. *)
Lemma dequeued_url_not_visited_counterexample :
  ∃ w w',
    exec_all Fixture.lib Fixture.cfg Fixture.dequeue_link Fixture.boot = Some w
    ∧ "http://site.test/b" ∈ urls_to_visit (collector Fixture.after_seed)
    ∧ tasks w = [ {| task_url := "http://site.test/b"; task_phase := Created |} ]
    ∧ ("http://site.test/b" ∉ visited_urls (collector w))
    ∧ ("http://site.test/b" ∉ urls_to_visit (collector w))
    ∧ exec_all Fixture.lib Fixture.cfg Fixture.early_checkpoint w = Some w'
    ∧ "http://site.test/b" ∈ visited_urls (collector w')
    ∧ ("http://site.test/b"
       ∉ visited_urls (load_checkpoint (checkpoint_file w')
                         (Collector_init Fixture.cfg)).1)
    ∧ urls_to_visit (load_checkpoint (checkpoint_file w')
                       (Collector_init Fixture.cfg)).1 = ∅
    ∧ should_continue Fixture.cfg
        (collector (start_process Fixture.cfg true "t3"
                      (checkpoint_file w') (data_file w'))) = false.
Proof.
  eexists. eexists.
  split; [vm_compute; reflexivity|].
  split; [apply (bool_decide_unpack _); vm_compute; exact I|].
  split; [vm_compute; reflexivity|].
  split; [apply (bool_decide_unpack _); vm_compute; exact I|].
  split; [apply (bool_decide_unpack _); vm_compute; exact I|].
  split; [vm_compute; reflexivity|].
  split; [apply (bool_decide_unpack _); vm_compute; exact I|].
  split; [apply (bool_decide_unpack _); vm_compute; exact I|].
  split; [apply (bool_decide_unpack _); vm_compute; exact I|].
  vm_compute. reflexivity.
Qed.

(** C8. In every world a run can reach, the coroutines inside
    [async with self.semaphore], the only place where a request is
    issued, are at most [max_concurrent_requests], whatever the size of
    the batch: together with the free slots they make up the size of
    the semaphore. *)
Theorem in_flight_within_limit
    (E : Externals) (config : Config) (w : World) :
  reachable E config w →
  Z.of_nat (in_flight w) <= max_concurrent_requests config
  ∧ semaphore w + Z.of_nat (in_flight w) = max_concurrent_requests config.
Proof.
  intros Hw. destruct (reachable_semaphore_inv E config w Hw) as [Hsum Hpos].
  split; [lia | done].
Qed.

Lemma in_flight_within_limit_witness :
  Z.of_nat (in_flight Fixture.fetching_seed)
    <= max_concurrent_requests Fixture.cfg
  ∧ semaphore Fixture.fetching_seed + Z.of_nat (in_flight Fixture.fetching_seed)
    = max_concurrent_requests Fixture.cfg.
Proof.
  exact (in_flight_within_limit Fixture.lib Fixture.cfg
           Fixture.fetching_seed fetching_seed_reachable).
Defined.

(** C2, as the code has it. The fingerprint set lives in memory only:
    it is not part of the checkpoint, and a process that starts, with
    or without [--resume], starts with an empty set. With
    [remove_duplicates] on, the webpage records that one process
    appends to the log have pairwise different fingerprints, counted
    from its start or from any other moment [w0] at which no coroutine
    is inside [save_data]. *)
Theorem fingerprints_distinct_within_a_process
    (E : Externals) (config : Config) (w0 w : World) :
  remove_duplicates config = true →
  settled w0 = true →
  same_process E config w0 w →
  (∃ new, data_file w = data_file w0 ++ new
          ∧ NoDup (fingerprints E new))
  ∧ (∀ (resume : bool) (now : string),
       content_hashes
         (collector (start_process config resume now
                       (checkpoint_file w) (data_file w))) = ∅).
Proof.
  intros Hrd Hset Hsame. split.
  - destruct (same_process_fingerprint_inv E config w0 w Hrd Hset Hsame)
      as [(new & Hlog & Hnd & _) _ _].
    by exists new.
  - intros resume now. unfold start_process.
    cbn [collector content_hashes set_start_time].
    destruct resume; [|done].
    by rewrite load_checkpoint_content_hashes.
Qed.

Lemma fingerprints_distinct_within_a_process_witness :
  (∃ new, data_file Fixture.after_seed = data_file Fixture.boot ++ new
          ∧ NoDup (fingerprints Fixture.lib new))
  ∧ (∀ (resume : bool) (now : string),
       content_hashes
         (collector (start_process Fixture.cfg resume now
                       (checkpoint_file Fixture.after_seed)
                       (data_file Fixture.after_seed))) = ∅).
Proof.
  apply (fingerprints_distinct_within_a_process Fixture.lib Fixture.cfg
           Fixture.boot Fixture.after_seed).
  - reflexivity.
  - reflexivity.
  - apply (same_process_exec_all Fixture.lib Fixture.cfg Fixture.crawl_seed
             Fixture.boot Fixture.boot).
    + reflexivity.
    + apply same_start.
    + vm_compute. reflexivity.
Defined.

(** C2 as stated fails: the first run admits the seed page and writes
    its final checkpoint; the resumed run crawls the link found there,
    which serves the same text, and admits it again. The log then
    holds two webpage records with one fingerprint. *)
Lemma fingerprint_repeats_after_resume_counterexample :
  ∃ w,
    exec_all Fixture.lib Fixture.cfg
      (Fixture.first_run ++ Fixture.second_run) Fixture.boot = Some w
    ∧ fingerprints Fixture.lib (data_file w)
      = ["same text here"; "same text here"]
    ∧ ¬ NoDup (fingerprints Fixture.lib (data_file w)).
Proof.
  eexists. split; [vm_compute; reflexivity|].
  assert (fingerprints Fixture.lib
            (data_file
               (default Fixture.boot
                  (exec_all Fixture.lib Fixture.cfg
                     (Fixture.first_run ++ Fixture.second_run) Fixture.boot)))
          = ["same text here"; "same text here"]) as Hfp
    by (vm_compute; reflexivity).
  split; [vm_compute; reflexivity|].
  intros Hnd. apply NoDup_cons in Hnd as [Hnot _]. apply Hnot. left.
Qed.

(* ===================================================================== *)
(** * Further properties *)
(* ===================================================================== *)

(** ** More on the retry loop *)

Section FetchBudget.
Variable config : Config.
Variable server : nat -> Attempt.

Lemma fetch_loop_retry (remaining n : nat) :
  retryable (server n) = true →
  ∃ s, fetch_loop config server (S remaining) n
       = after [Get n; Sleep s] (fetch_loop config server remaining (S n))
       ∧ (s = 1 ∨ s = 2 ^ Z.of_nat n).
Proof.
  intros Hr. simpl. destruct (server n) as [status body| |]; simpl in Hr.
  - apply orb_true_iff in Hr as [H429 | H503].
    + apply Z.eqb_eq in H429 as ->. eexists. split; [reflexivity | by right].
    + apply Z.eqb_eq in H503 as ->. eexists. split; [reflexivity | by right].
  - eexists. split; [reflexivity | by left].
  - eexists. split; [reflexivity | by left].
Qed.

Lemma fetch_loop_final (remaining n : nat) (status : Z) (body : string) :
  server n = Answer status body → status ≠ 429 → status ≠ 503 →
  fetch_loop config server (S remaining) n
  = {| fetched := if (status =? 200) && negb (too_large config body)
                  then Some body else None;
       fetch_trace := [Get n] |}.
Proof.
  intros Hs H429 H503. simpl. rewrite Hs.
  destruct (Z.eqb_spec status 200) as [->|_]; simpl.
  - by destruct (too_large config body).
  - destruct (Z.eqb_spec status 429); [done|].
    by destruct (Z.eqb_spec status 503).
Qed.

(** Retryable outcomes are passed over one request each. *)
Lemma fetch_loop_skip (d remaining m : nat) :
  (∀ k, (m <= k < m + d)%nat → retryable (server k) = true) →
  fetched (fetch_loop config server (d + remaining) m)
  = fetched (fetch_loop config server remaining (m + d))
  ∧ requests (fetch_trace (fetch_loop config server (d + remaining) m))
    = (d + requests (fetch_trace (fetch_loop config server remaining (m + d))))%nat.
Proof.
  revert m. induction d as [|d IH]; intros m Hr.
  - rewrite Nat.add_0_r. done.
  - destruct (fetch_loop_retry (d + remaining) m) as (s & Heq & _);
      [apply Hr; lia|].
    change (S d + remaining)%nat with (S (d + remaining)). rewrite Heq.
    destruct (IH (S m)) as [Hf Hq]; [intros k Hk; apply Hr; lia|].
    replace (m + S d)%nat with (S m + d)%nat by lia.
    simpl. rewrite Hf, Hq. done.
Qed.

Lemma fetch_loop_budget (remaining n : nat) :
  (requests (fetch_trace (fetch_loop config server remaining n)) <= remaining)%nat
  ∧ 0 <= slept (fetch_trace (fetch_loop config server remaining n))
    <= 2 ^ Z.of_nat (n + remaining) - 2 ^ Z.of_nat n.
Proof.
  revert n. induction remaining as [|remaining IH]; intros n.
  - simpl. rewrite Nat.add_0_r. lia.
  - assert (0 < 2 ^ Z.of_nat n) as Hpos by (apply Z.pow_pos_nonneg; lia).
    assert (2 ^ Z.of_nat (S n) = 2 * 2 ^ Z.of_nat n) as Hdouble.
    { replace (Z.of_nat (S n)) with (Z.of_nat n + 1) by lia.
      rewrite Z.pow_add_r by lia. lia. }
    assert (2 ^ Z.of_nat (S n) <= 2 ^ Z.of_nat (n + S remaining)) as Hmono
      by (apply Z.pow_le_mono_r; lia).
    destruct (IH (S n)) as (Hq & Hs0 & Hs1).
    replace (S n + remaining)%nat with (n + S remaining)%nat in Hs1 by lia.
    destruct (retryable (server n)) eqn:Hr.
    + destruct (fetch_loop_retry remaining n Hr) as (s & -> & Hs).
      simpl. destruct Hs as [-> | ->]; lia.
    + destruct (server n) as [status body| |] eqn:Hn; simpl in Hr; try done.
      apply orb_false_iff in Hr as [H429 H503].
      apply Z.eqb_neq in H429. apply Z.eqb_neq in H503.
      rewrite (fetch_loop_final remaining n status body Hn H429 H503).
      simpl. lia.
Qed.

Lemma fetch_loop_some (remaining m : nat) (body : string) :
  fetched (fetch_loop config server remaining m) = Some body →
  ∃ n, (m <= n < m + remaining)%nat
       ∧ (∀ k, (m <= k < n)%nat → retryable (server k) = true)
       ∧ server n = Answer 200 body
       ∧ too_large config body = false
       ∧ requests (fetch_trace (fetch_loop config server remaining m))
         = S (n - m).
Proof.
  revert m. induction remaining as [|remaining IH]; intros m Hsome; [done|].
  destruct (retryable (server m)) eqn:Hr.
  - destruct (fetch_loop_retry remaining m Hr) as (s & Heq & _).
    rewrite Heq in *. simpl in Hsome.
    destruct (IH (S m) Hsome) as (n & Hn & Hpre & Hans & Hfit & Hq).
    exists n. split; [lia|]. split.
    + intros k Hk. destruct (decide (k = m)) as [->|]; [done|].
      apply Hpre. lia.
    + split; [done|]. split; [done|]. simpl. rewrite Hq. lia.
  - destruct (server m) as [status content| |] eqn:Hm; simpl in Hr; try done.
    apply orb_false_iff in Hr as [H429 H503].
    apply Z.eqb_neq in H429. apply Z.eqb_neq in H503.
    rewrite (fetch_loop_final remaining m status content Hm H429 H503) in *.
    simpl in Hsome.
    destruct (Z.eqb_spec status 200) as [->|]; [|done].
    destruct (too_large config content) eqn:Hbig; [done|].
    simpl in Hsome. injection Hsome as ->.
    exists m. split; [lia|]. split; [intros k Hk; lia|].
    split; [done|]. split; [done|]. simpl. f_equal. lia.
Qed.

Lemma fetch_loop_transport (remaining n : nat) :
  (∀ k, server k = TimedOut ∨ server k = Raised) →
  fetched (fetch_loop config server remaining n) = None
  ∧ requests (fetch_trace (fetch_loop config server remaining n)) = remaining
  ∧ slept (fetch_trace (fetch_loop config server remaining n))
    = Z.of_nat remaining.
Proof.
  intros Hdown. revert n. induction remaining as [|remaining IH]; intros n.
  - done.
  - destruct (IH (S n)) as (Hf & Hq & Hs). simpl.
    destruct (Hdown n) as [-> | ->]; simpl; rewrite Hf, Hq, Hs;
      (split; [done|]); (split; [done | lia]).
Qed.

End FetchBudget.

(** X1. Whatever the server does, [fetch] issues at most [retry_limit]
    requests (none when the limit is zero or negative), and the time it
    sleeps between them is at most [2 ^ retry_limit - 1] seconds. *)
Theorem fetch_within_budget (config : Config) (server : nat -> Attempt) :
  Z.of_nat (requests (fetch_trace (fetch config server)))
    <= Z.max 0 (retry_limit config)
  ∧ 0 <= slept (fetch_trace (fetch config server))
    <= 2 ^ Z.max 0 (retry_limit config) - 1.
Proof.
  unfold fetch.
  destruct (fetch_loop_budget config server (Z.to_nat (retry_limit config)) 0)
    as (Hq & Hs0 & Hs1).
  simpl in Hs1.
  replace (Z.of_nat (Z.to_nat (retry_limit config)))
    with (Z.max 0 (retry_limit config)) in Hs1 by lia.
  lia.
Qed.

(** X2. The first outcome that is neither a 429, a 503, a timeout nor
    another exception ends [fetch] at that request, however much of the
    retry budget is left: a 200 whose body is within the page-size
    ceiling gives the body, and a larger 200 or any other status gives
    [None]. *)
Theorem fetch_stops_at_first_final_answer
    (config : Config) (server : nat -> Attempt)
    (n : nat) (status : Z) (body : string) :
  Z.of_nat n < retry_limit config →
  (∀ k, (k < n)%nat → retryable (server k) = true) →
  server n = Answer status body →
  status ≠ 429 → status ≠ 503 →
  fetched (fetch config server)
  = (if (status =? 200) && negb (too_large config body)
     then Some body else None)
  ∧ requests (fetch_trace (fetch config server)) = S n.
Proof.
  intros Hn Hpre Hans H429 H503. unfold fetch.
  replace (Z.to_nat (retry_limit config))
    with (n + S (Z.to_nat (retry_limit config) - S n))%nat by lia.
  destruct (fetch_loop_skip config server n
              (S (Z.to_nat (retry_limit config) - S n)) 0) as [Hf Hq];
    [intros k Hk; apply Hpre; lia|].
  rewrite Hf, Hq. simpl (0 + n)%nat.
  rewrite (fetch_loop_final config server _ n status body Hans H429 H503).
  simpl. split; [done | lia].
Qed.

Lemma fetch_stops_at_first_final_answer_witness :
  fetched (fetch Fixture.cfg Fixture.gone_after_timeout) = None
  ∧ requests (fetch_trace (fetch Fixture.cfg Fixture.gone_after_timeout)) = 2%nat.
Proof.
  apply (fetch_stops_at_first_final_answer Fixture.cfg
           Fixture.gone_after_timeout 1 404 "").
  - simpl. lia.
  - intros k Hk. assert (k = 0%nat) as -> by lia. reflexivity.
  - reflexivity.
  - discriminate.
  - discriminate.
Defined.

(** X3. When [fetch] returns a body, that body is the text of a 200
    answer within the page-size ceiling, it was obtained within the
    retry limit, and every earlier request of the call had met a 429, a
    503, a timeout or another exception. *)
Theorem fetch_returns_only_accepted_bodies
    (config : Config) (server : nat -> Attempt) (body : string) :
  fetched (fetch config server) = Some body →
  ∃ n, Z.of_nat n < retry_limit config
       ∧ (∀ k, (k < n)%nat → retryable (server k) = true)
       ∧ server n = Answer 200 body
       ∧ too_large config body = false
       ∧ requests (fetch_trace (fetch config server)) = S n.
Proof.
  unfold fetch. intros Hsome.
  destruct (fetch_loop_some config server _ 0 body Hsome)
    as (n & Hn & Hpre & Hans & Hfit & Hq).
  exists n. split; [lia|]. split; [intros k Hk; apply Hpre; lia|].
  split; [done|]. split; [done|]. rewrite Hq. f_equal. lia.
Qed.

Lemma fetch_returns_only_accepted_bodies_witness :
  ∃ n, Z.of_nat n < retry_limit Fixture.cfg
       ∧ (∀ k, (k < n)%nat →
               retryable (Fixture.busy_then Fixture.html k) = true)
       ∧ Fixture.busy_then Fixture.html n = Answer 200 Fixture.html
       ∧ too_large Fixture.cfg Fixture.html = false
       ∧ requests (fetch_trace
                     (fetch Fixture.cfg (Fixture.busy_then Fixture.html)))
         = S n.
Proof.
  apply (fetch_returns_only_accepted_bodies Fixture.cfg
           (Fixture.busy_then Fixture.html) Fixture.html).
  vm_compute. reflexivity.
Defined.

(** X4. Against a server that only times out or fails at the transport
    level, [fetch] gives up with [None] after exactly [retry_limit]
    requests, having slept one second after each of them. *)
Theorem fetch_gives_up_on_transport_errors
    (config : Config) (server : nat -> Attempt) :
  (∀ k, server k = TimedOut ∨ server k = Raised) →
  fetched (fetch config server) = None
  ∧ Z.of_nat (requests (fetch_trace (fetch config server)))
    = Z.max 0 (retry_limit config)
  ∧ slept (fetch_trace (fetch config server)) = Z.max 0 (retry_limit config).
Proof.
  intros Hdown. unfold fetch.
  destruct (fetch_loop_transport config server
              (Z.to_nat (retry_limit config)) 0 Hdown) as (Hf & Hq & Hs).
  rewrite Hf, Hq, Hs. split; [done|]. split; lia.
Qed.

Lemma fetch_gives_up_on_transport_errors_witness :
  fetched (fetch Fixture.cfg (scripted [])) = None
  ∧ Z.of_nat (requests (fetch_trace (fetch Fixture.cfg (scripted [])))) = 4
  ∧ slept (fetch_trace (fetch Fixture.cfg (scripted []))) = 4.
Proof.
  apply (fetch_gives_up_on_transport_errors Fixture.cfg (scripted [])).
  intros k. left. unfold scripted. by destruct k.
Defined.

(** ** More on the extractors *)

Lemma utf8_len_bounds (s : string) :
  Text.len s <= Text.utf8_len s <= 2 * Text.len s.
Proof.
  unfold Text.len. induction s as [|c s IH]; simpl; [lia|].
  unfold Text.utf8_width. destruct (N_of_ascii c <? 128)%N; lia.
Qed.

Lemma substring_0_length (k : nat) (s : string) :
  String.length (String.substring 0 k s) = Nat.min k (String.length s).
Proof.
  revert s. induction k as [|k IH]; intros [|c s]; simpl; try done.
  by rewrite IH.
Qed.

Lemma substring_0_prefix (k : nat) (s : string) :
  ∃ rest, s = String.substring 0 k s +:+ rest.
Proof.
  revert s. induction k as [|k IH]; intros [|c s]; simpl.
  - by exists "".
  - by exists (String c s).
  - by exists "".
  - destruct (IH s) as [rest Hrest]. exists rest.
    rewrite Hrest at 1. reflexivity.
Qed.

Lemma take_len (n : Z) (s : string) :
  0 <= n → Text.len (Text.take n s) = Z.min n (Text.len s).
Proof.
  intros Hn. unfold Text.len, Text.take. rewrite substring_0_length. lia.
Qed.

(** X5. [parse_code_content] gives no record exactly when the file has
    fewer characters than [min_code_length]. Otherwise the record holds
    the first 50000 characters of the file as [code], while
    [size_bytes] is the UTF-8 size of the whole file, and no language
    is looked for in a file of at most 500 characters. *)
Theorem parse_code_content_truncates
    (E : Externals) (config : Config) (content url now : string) :
  (parse_code_content E config content url now = None
   ↔ Text.len content < min_code_length config)
  ∧ (∀ d, parse_code_content E config content url now = Some d →
          ∃ r, d = Code r
               ∧ cd_url r = url
               ∧ Text.len (cd_code r) = Z.min 50000 (Text.len content)
               ∧ (∃ rest, content = cd_code r +:+ rest)
               ∧ cd_size_bytes r = Text.utf8_len content
               ∧ Text.len (cd_code r) <= cd_size_bytes r
               ∧ (Text.len content <= 500 → cd_language r = None)).
Proof.
  unfold parse_code_content.
  destruct (Z.ltb_spec (Text.len content) (min_code_length config))
    as [Hshort | Hlong].
  - split; [done|]. intros d Hd. discriminate Hd.
  - split; [split; [done | lia]|].
    intros d [= <-]. eexists. split; [reflexivity|]. simpl.
    split; [done|]. split; [by apply take_len|].
    split; [apply substring_0_prefix|]. split; [done|]. split.
    + rewrite take_len by done. pose proof (utf8_len_bounds content). lia.
    + intros Hsmall. destruct (Z.ltb_spec 500 (Text.len content)); [lia | done].
Qed.

Lemma parse_code_content_truncates_witness :
  ∃ r, Code Fixture.script_record = Code r
       ∧ cd_url r = "http://site.test/run.py"
       ∧ Text.len (cd_code r) = Z.min 50000 (Text.len Fixture.script)
       ∧ (∃ rest, Fixture.script = cd_code r +:+ rest)
       ∧ cd_size_bytes r = Text.utf8_len Fixture.script
       ∧ Text.len (cd_code r) <= cd_size_bytes r
       ∧ (Text.len Fixture.script <= 500 → cd_language r = None).
Proof.
  apply (proj2 (parse_code_content_truncates Fixture.lib Fixture.cfg
                  Fixture.script "http://site.test/run.py" "t1")).
  reflexivity.
Defined.

(** X6. A webpage record that [parse_content] returns carries the
    cleaned text as [content], with at least [min_text_length]
    characters, and the UTF-8 size of that text as [size_bytes]; with
    [remove_duplicates] on, its fingerprint was not in the set before
    the call and is in it afterwards. *)
Theorem parse_content_record
    (E : Externals) (config : Config) (html url now : string)
    (c : Collector) (r : WebpageRecord) :
  (parse_content E config html url now c).1 = Some (Webpage r) →
  (∃ soup, beautiful_soup E html = Some soup
           ∧ wp_content r = clean_text (default "" (soup_main_text soup)))
  ∧ wp_url r = url
  ∧ min_text_length config <= Text.len (wp_content r)
  ∧ wp_size_bytes r = Text.utf8_len (wp_content r)
  ∧ duplicates_skipped (stats (parse_content E config html url now c).2)
    = duplicates_skipped (stats c)
  ∧ (remove_duplicates config = true →
     (get_content_hash E (wp_content r) ∉ content_hashes c)
     ∧ content_hashes (parse_content E config html url now c).2
       = {[get_content_hash E (wp_content r)]} ∪ content_hashes c).
Proof.
  unfold parse_content, get_content_hash.
  destruct (beautiful_soup E html) as [soup|]; [|done].
  destruct (Z.ltb_spec (Text.len (clean_text (default "" (soup_main_text soup))))
              (min_text_length config)) as [Hshort | Hlong]; [done|].
  destruct (remove_duplicates config).
  - case_bool_decide as Hdup; [done|].
    destruct (match soup_title soup with Some t => t | None => Some "No Title" end);
      [|done].
    simpl. intros [= <-]. simpl.
    split; [by exists soup|]. repeat split; done.
  - destruct (match soup_title soup with Some t => t | None => Some "No Title" end);
      [|done].
    simpl. intros [= <-]. simpl.
    split; [by exists soup|]. repeat split; done.
Qed.

Lemma parse_content_record_witness :
  wp_url Fixture.page_record = "http://site.test/a"
  ∧ min_text_length Fixture.cfg <= Text.len (wp_content Fixture.page_record)
  ∧ wp_size_bytes Fixture.page_record
    = Text.utf8_len (wp_content Fixture.page_record).
Proof.
  destruct (parse_content_record Fixture.lib Fixture.cfg Fixture.html
              "http://site.test/a" "t1" (Collector_init Fixture.cfg)
              Fixture.page_record) as (_ & Hu & Hl & Hs & _).
  - reflexivity.
  - split; [exact Hu|]. split; [exact Hl | exact Hs].
Defined.

(** X7. With [remove_duplicates] on, a collector never admits the same
    cleaned text twice: once [parse_content] has handled a page, a
    second page with the same cleaned text gives no record, whatever
    its URL, and also when the first page itself gave none. *)
Theorem parse_content_never_records_twice
    (E : Externals) (config : Config)
    (html1 url1 now1 html2 url2 now2 : string) (c : Collector)
    (soup1 soup2 : Soup) :
  remove_duplicates config = true →
  beautiful_soup E html1 = Some soup1 →
  beautiful_soup E html2 = Some soup2 →
  clean_text (default "" (soup_main_text soup1))
  = clean_text (default "" (soup_main_text soup2)) →
  (parse_content E config html2 url2 now2
     (parse_content E config html1 url1 now1 c).2).1 = None.
Proof.
  intros Hrd Hs1 Hs2 Htext.
  apply (parse_content_rejects E config html2 url2 now2 _ soup2 Hs2).
  destruct (Z.ltb_spec (Text.len (clean_text (default "" (soup_main_text soup2))))
              (min_text_length config)) as [Hshort | Hlong]; [by left|].
  right. split; [done|]. rewrite <- Htext.
  unfold parse_content. rewrite Hs1, Hrd.
  destruct (Z.ltb_spec (Text.len (clean_text (default "" (soup_main_text soup1))))
              (min_text_length config)) as [Hshort1 | _];
    [rewrite Htext in Hshort1; lia|].
  unfold get_content_hash. case_bool_decide as Hdup; [done|].
  destruct (match soup_title soup1 with Some t => t | None => Some "No Title" end);
    simpl; set_solver.
Qed.

Lemma parse_content_never_records_twice_witness :
  (parse_content Fixture.lib Fixture.cfg Fixture.html "http://site.test/b" "t2"
     (parse_content Fixture.lib Fixture.cfg Fixture.html "http://site.test/a"
        "t1" (Collector_init Fixture.cfg)).2).1 = None.
Proof.
  apply (parse_content_never_records_twice Fixture.lib Fixture.cfg
           Fixture.html "http://site.test/a" "t1"
           Fixture.html "http://site.test/b" "t2"
           (Collector_init Fixture.cfg) Fixture.soup Fixture.soup);
    reflexivity.
Defined.

(** ** More on [process_url] *)

(** X8. [process_url] acts at most once per URL: a second call for the
    same URL, whatever the server answers then, leaves the collector
    and the log as the first call left them. *)
Theorem process_url_second_call_is_void
    (E : Externals) (config : Config) (server1 server2 : nat -> Attempt)
    (url now1 now2 : string) (ok1 ok2 : bool)
    (c : Collector) (log : list DataRecord) :
  process_url E config server2 url now2 ok2
    (process_url E config server1 url now1 ok1 c log).1
    (process_url E config server1 url now1 ok1 c log).2
  = process_url E config server1 url now1 ok1 c log.
Proof.
  assert (∀ c' log', url ∈ visited_urls c' →
            process_url E config server2 url now2 ok2 c' log' = (c', log'))
    as Hvoid.
  { intros c' log' Hin. unfold process_url, process_url_begin.
    by rewrite bool_decide_eq_true_2. }
  destruct (decide (url ∈ visited_urls c)) as [Hin | Hnew].
  - unfold process_url at 2 3 4, process_url_begin.
    rewrite bool_decide_eq_true_2 by done. simpl. by apply Hvoid.
  - rewrite Hvoid; [by destruct (process_url _ _ _ _ _ _ _ _)|].
    unfold process_url, process_url_begin.
    rewrite bool_decide_eq_false_2 by done.
    destruct (process_url_finish_frame E config url
                (fetched (fetch config server1)) now1 ok1
                (set_visited_urls ({[url]} ∪ visited_urls c) c) log)
      as (-> & _).
    simpl. set_solver.
Qed.

(** X9. A 200 answer with an empty body is handled as a failure:
    whether or not [fetch] lets it through, [process_url] finds it
    falsy, appends no record and counts the URL as failed. *)
Theorem empty_body_is_a_failed_page
    (E : Externals) (config : Config) (server : nat -> Attempt)
    (url now : string) (write_ok : bool) (c : Collector)
    (log : list DataRecord) :
  0 < retry_limit config →
  server 0%nat = Answer 200 "" →
  url ∉ visited_urls c →
  (Qle_bool 0 (max_page_size_mb config) = true →
   fetched (fetch config server) = Some "")
  ∧ (process_url E config server url now write_ok c log).2 = log
  ∧ pages_crawled (stats (process_url E config server url now write_ok c log).1)
    = pages_crawled (stats c)
  ∧ pages_failed (stats (process_url E config server url now write_ok c log).1)
    = pages_failed (stats c) + 1
  ∧ failed_urls (process_url E config server url now write_ok c log).1 !! url
    = Some (default 0 (failed_urls c !! url) + 1).
Proof.
  intros Hlim H0 Hnew.
  assert (fetched (fetch config server)
          = if negb (too_large config "") then Some "" else None) as Hfetch.
  { unfold fetch. destruct (Z.to_nat (retry_limit config)) eqn:Hk; [lia|].
    by rewrite (fetch_loop_final config server _ 0 200 "" H0). }
  split.
  - intros Hpos.
    assert (too_large config "" = false) as Hfit.
    { unfold too_large. apply negb_false_iff. apply Qle_bool_iff.
      apply Qle_bool_iff in Hpos. eapply Qle_trans; [|exact Hpos].
      unfold size_mb, Qle. simpl. lia. }
    by rewrite Hfetch, Hfit.
  - unfold process_url, process_url_begin.
    rewrite bool_decide_eq_false_2 by done.
    rewrite process_url_finish_failed
      by (rewrite Hfetch; by destruct (too_large config "")).
    simpl. repeat split. by rewrite lookup_insert_eq.
Qed.

Lemma empty_body_is_a_failed_page_witness :
  (Qle_bool 0 (max_page_size_mb Fixture.cfg) = true →
   fetched (fetch Fixture.cfg (Fixture.serves "")) = Some "")
  ∧ (process_url Fixture.lib Fixture.cfg (Fixture.serves "")
       "http://site.test/a" "t1" true (Collector_init Fixture.cfg) []).2 = []
  ∧ pages_crawled
      (stats (process_url Fixture.lib Fixture.cfg (Fixture.serves "")
                "http://site.test/a" "t1" true (Collector_init Fixture.cfg) []).1)
    = pages_crawled (stats (Collector_init Fixture.cfg))
  ∧ pages_failed
      (stats (process_url Fixture.lib Fixture.cfg (Fixture.serves "")
                "http://site.test/a" "t1" true (Collector_init Fixture.cfg) []).1)
    = pages_failed (stats (Collector_init Fixture.cfg)) + 1
  ∧ failed_urls
      (process_url Fixture.lib Fixture.cfg (Fixture.serves "")
         "http://site.test/a" "t1" true (Collector_init Fixture.cfg) []).1
      !! "http://site.test/a"
    = Some (default 0 (failed_urls (Collector_init Fixture.cfg)
                         !! "http://site.test/a") + 1).
Proof.
  apply (empty_body_is_a_failed_page Fixture.lib Fixture.cfg
           (Fixture.serves "") "http://site.test/a" "t1" true
           (Collector_init Fixture.cfg) []).
  - simpl. lia.
  - reflexivity.
  - simpl. apply not_elem_of_empty.
Defined.

(** ** More on the event loop *)

Section ProcessFacts.
Variable E : Externals.
Variable config : Config.

Arguments in_phase : simpl never.

(** What an event that happens tells about the world before and the
    world after. *)
Lemma exec_inv (e : Event) (w w' : World) :
  exec E config e w = Some w' →
  match e with
  | Dispatch urls_batch =>
      should_continue config (collector w) = true
      ∧ (∀ j t, tasks w !! j = Some t → task_phase t = Finished)
      ∧ Z.of_nat (length urls_batch) = batch_size config (collector w)
      ∧ NoDup urls_batch
      ∧ (∀ u, u ∈ urls_batch → u ∈ urls_to_visit (collector w))
      ∧ collector w'
        = set_urls_to_visit
            (urls_to_visit (collector w) ∖ list_to_set urls_batch) (collector w)
      ∧ tasks w' = (λ u, {| task_url := u; task_phase := Created |})
                     <$> urls_batch
      ∧ data_file w' = data_file w
  | Begin i =>
      ∃ t, tasks w !! i = Some t ∧ task_phase t = Created
           ∧ data_file w' = data_file w
           ∧ ((task_url t ∈ visited_urls (collector w)
               ∧ collector w' = collector w
               ∧ tasks w' = <[i := set_phase Finished t]> (tasks w))
              ∨ ((task_url t ∉ visited_urls (collector w))
                 ∧ collector w'
                   = set_visited_urls
                       ({[task_url t]} ∪ visited_urls (collector w)) (collector w)
                 ∧ tasks w' = <[i := set_phase Sleeping t]> (tasks w)))
  | Acquire i =>
      ∃ t, tasks w !! i = Some t ∧ task_phase t = Sleeping
           ∧ all_started (tasks w)
           ∧ collector w' = collector w
           ∧ tasks w' = <[i := set_phase Fetching t]> (tasks w)
           ∧ data_file w' = data_file w
  | Complete i server now =>
      ∃ t, tasks w !! i = Some t ∧ task_phase t = Fetching
           ∧ collector w'
             = (process_url_parse E config (task_url t)
                  (fetched (fetch config server)) now (collector w)).2
           ∧ tasks w'
             = <[i := set_phase
                        match (process_url_parse E config (task_url t)
                                 (fetched (fetch config server)) now
                                 (collector w)).1 with
                        | Some d => Saving d
                        | None => Finished
                        end t]> (tasks w)
           ∧ data_file w' = data_file w
  | Append i write_ok =>
      ∃ t d, tasks w !! i = Some t ∧ task_phase t = Saving d
             ∧ collector w' = collector w
             ∧ tasks w' = <[i := set_phase (Stored d write_ok) t]> (tasks w)
             ∧ data_file w'
               = (if write_ok then data_file w ++ [d] else data_file w)
  | Saved i =>
      ∃ t d ok, tasks w !! i = Some t ∧ task_phase t = Stored d ok
                ∧ collector w' = process_url_saved d ok (collector w)
                ∧ tasks w' = <[i := set_phase Finished t]> (tasks w)
                ∧ data_file w' = data_file w
  | Signal =>
      collector w' = set_running false (collector w)
      ∧ tasks w' = tasks w ∧ data_file w' = data_file w
  | SaveOpen now r =>
      saving w = None
      ∧ saving w' = Some (checkpoint_state now r (collector w))
      ∧ collector w' = collector w
      ∧ tasks w' = tasks w ∧ data_file w' = data_file w
  | SaveWrite =>
      ∃ st, saving w = Some st
            ∧ saving w' = None
            ∧ checkpoint_file w'
              = Document (dump_state st (failed_urls (collector w)))
            ∧ collector w' = collector w
            ∧ tasks w' = tasks w ∧ data_file w' = data_file w
  | Restart resume now =>
      w' = start_process config resume now (checkpoint_file w) (data_file w)
  end.
Proof.
  intros Hex.
  destruct e as [urls_batch|i|i|i server now|i write_ok|i| |now r| |resume now];
    simpl in Hex.
  - case_match eqn:Hguard; [|discriminate]. injection Hex as <-. simpl.
    rewrite !andb_true_iff in Hguard.
    destruct Hguard as (((((Hgo & Hfin) & _) & Hlen) & Hnd) & Hin).
    apply bool_decide_eq_true in Hnd. apply bool_decide_eq_true in Hin.
    rewrite Forall_forall in Hin. apply Z.eqb_eq in Hlen.
    split; [done|]. split; [|done].
    intros j t Hj. apply in_phase_spec. by eapply forallb_lookup.
  - destruct (tasks w !! i) as [t|]; [|discriminate].
    destruct (in_phase Created t) eqn:Hp; [|discriminate].
    apply in_phase_spec in Hp. exists t. split; [done|]. split; [done|].
    unfold process_url_begin in Hex.
    case_bool_decide; simpl in Hex; injection Hex as <-; simpl;
      (split; [done|]); [left | right]; done.
  - destruct (tasks w !! i) as [t|]; [|discriminate].
    case_match eqn:Hguard; [|discriminate]. injection Hex as <-. simpl.
    rewrite !andb_true_iff in Hguard. destruct Hguard as ((Hp & Hall) & _).
    apply in_phase_spec in Hp. exists t.
    split; [done|]. split; [done|]. split; [|done].
    by apply all_started_forallb.
  - destruct (tasks w !! i) as [t|]; [|discriminate].
    destruct (in_phase Fetching t) eqn:Hp; [|discriminate].
    apply in_phase_spec in Hp. exists t.
    destruct (process_url_parse E config (task_url t)
                (fetched (fetch config server)) now (collector w))
      as [data c'].
    by injection Hex as <-.
  - destruct (tasks w !! i) as [t|]; [|discriminate].
    destruct (task_phase t) as [| | |d|d ok|] eqn:Hp; try discriminate.
    injection Hex as <-. by exists t, d.
  - destruct (tasks w !! i) as [t|]; [|discriminate].
    destruct (task_phase t) as [| | |d|d ok|] eqn:Hp; try discriminate.
    injection Hex as <-. by exists t, d, ok.
  - by injection Hex as <-.
  - destruct (saving w); [discriminate|]. by injection Hex as <-.
  - destruct (saving w) as [st|]; [|discriminate]. injection Hex as <-.
    by exists st.
  - by injection Hex as <-.
Qed.

Lemma utf8_len_nonneg (s : string) : 0 <= Text.utf8_len s.
Proof. pose proof (utf8_len_bounds s). unfold Text.len in *. lia. Qed.

Lemma parse_content_stats (html url now : string) (c : Collector) :
  match (parse_content E config html url now c).1 with
  | Some d => stats (parse_content E config html url now c).2 = stats c
              ∧ 0 <= size_bytes d
  | None => stats (parse_content E config html url now c).2 = stats c
            ∨ stats (parse_content E config html url now c).2
              = bump_duplicates_skipped (stats c)
  end.
Proof.
  unfold parse_content.
  destruct (beautiful_soup E html) as [soup|]; [|by left].
  destruct (Text.len (clean_text (default "" (soup_main_text soup)))
            <? min_text_length config); [by left|].
  destruct (remove_duplicates config).
  - case_bool_decide; [by right|].
    destruct (match soup_title soup with Some t => t | None => Some "No Title" end);
      simpl; [split; [done | apply utf8_len_nonneg] | ].
    (* the title is [None]: no record, the fingerprint stays *)
    by left.
  - destruct (match soup_title soup with Some t => t | None => Some "No Title" end);
      simpl; [split; [done | apply utf8_len_nonneg] | by left].
Qed.

Lemma parse_code_content_size (content url now : string) (d : DataRecord) :
  parse_code_content E config content url now = Some d → 0 <= size_bytes d.
Proof.
  unfold parse_code_content.
  destruct (Text.len content <? min_code_length config); [done|].
  intros [= <-]. apply utf8_len_nonneg.
Qed.

(** How [process_url_parse] moves the statistics: a failure or a
    duplicate is counted, and a record has a size. *)
Lemma process_url_parse_stats (url : string) (content : option string)
    (now : string) (c : Collector) :
  match (process_url_parse E config url content now c).1 with
  | Some d => stats (process_url_parse E config url content now c).2 = stats c
              ∧ 0 <= size_bytes d
  | None => stats (process_url_parse E config url content now c).2 = stats c
            ∨ stats (process_url_parse E config url content now c).2
              = bump_pages_failed (stats c)
            ∨ stats (process_url_parse E config url content now c).2
              = bump_duplicates_skipped (stats c)
  end.
Proof.
  destruct content as [[|a html]|]; [simpl; auto | | simpl; auto].
  unfold process_url_parse.
  destruct (is_code_url E config url).
  - destruct (parse_code_content E config (String a html) url now)
      as [d|] eqn:Hd; simpl; [|auto].
    split; [done | by apply parse_code_content_size in Hd].
  - pose proof (parse_content_stats (String a html) url now c) as S.
    destruct (parse_content E config (String a html) url now c) as [data c1].
    simpl in S. destruct data as [d|].
    + by destruct (follow_external_links config).
    + simpl. destruct S as [-> | ->]; auto.
Qed.

Lemma omap_insert {A B : Type} (f : A → option B) (l : list A) (i : nat)
    (x y : A) :
  l !! i = Some x →
  ∃ a b, omap f l = a ++ option_list (f x) ++ b
         ∧ omap f (<[i := y]> l) = a ++ option_list (f y) ++ b.
Proof.
  intros Hi. exists (omap f (take i l)), (omap f (drop (S i) l)).
  pose proof (lookup_lt_Some _ _ _ Hi) as Hlt.
  rewrite insert_take_drop by done.
  rewrite <- (take_drop_middle l i x Hi) at 1.
  rewrite !omap_app.
  change (omap f (x :: drop (S i) l))
    with (match f x with
          | Some z => z :: omap f (drop (S i) l)
          | None => omap f (drop (S i) l)
          end).
  change (omap f (y :: drop (S i) l))
    with (match f y with
          | Some z => z :: omap f (drop (S i) l)
          | None => omap f (drop (S i) l)
          end).
  by destruct (f x), (f y).
Qed.

Lemma uncounted_records_none (l : list Task) :
  (∀ j t, l !! j = Some t → uncounted t = None) → uncounted_records l = [].
Proof.
  unfold uncounted_records. induction l as [|x l IH]; intros Hall; [done|].
  change (omap uncounted (x :: l))
    with (match uncounted x with
          | Some z => z :: omap uncounted l
          | None => omap uncounted l
          end).
  rewrite (Hall 0%nat x eq_refl). apply IH.
  intros j t Hj. by apply (Hall (S j)).
Qed.

Lemma held_uncounted (t : Task) : held t = None → uncounted t = None.
Proof. unfold held, uncounted. by destruct (task_phase t). Qed.

Lemma code_count_app (l k : list DataRecord) :
  code_count (l ++ k) = code_count l + code_count k.
Proof. induction l as [|[r|r] l IH]; simpl; lia. Qed.

Lemma bytes_sum_app (l k : list DataRecord) :
  bytes_sum (l ++ k) = bytes_sum l + bytes_sum k.
Proof. induction l as [|d l IH]; simpl; lia. Qed.

(** A change of phase that leaves the uncounted record of the
    coroutine as it is leaves the sums as they are. *)
Lemma uncounted_records_same (l : list Task) (i : nat) (t t' : Task) :
  l !! i = Some t → uncounted t' = uncounted t →
  uncounted_records (<[i := t']> l) = uncounted_records l.
Proof.
  intros Hi Heq. unfold uncounted_records.
  destruct (omap_insert uncounted l i t t' Hi) as (a & b & -> & ->).
  by rewrite Heq.
Qed.

(** Every event of one process keeps the invariant of the counters. *)
Lemma account_inv_step (w0 : World) (e : Event) (w w' : World) :
  is_restart e = false → exec E config e w = Some w' →
  account_inv w0 w → account_inv w0 w'.
Proof.
  intros Hnr Hex [Hsz (new & Hlog & Hcode & Hbytes & Hpages)].
  apply exec_inv in Hex.
  destruct e as [urls_batch|i|i|i server now|i write_ok|i| |now r| |resume now];
    [| | | | | | | | |done].
  - destruct Hex as (_ & Hfin & _ & _ & _ & Hcol & Htasks & Hdata).
    assert (uncounted_records (tasks w) = []) as Hu.
    { apply uncounted_records_none. intros j t Hj. unfold uncounted.
      by rewrite (Hfin j t Hj). }
    assert (uncounted_records (tasks w') = []) as Hu'.
    { apply uncounted_records_none. intros j t Hj. rewrite Htasks in Hj.
      by apply list_lookup_fmap_Some in Hj as (u & -> & _). }
    split.
    + intros j t d Hj Hh. rewrite Htasks in Hj.
      apply list_lookup_fmap_Some in Hj as (u & -> & _). discriminate Hh.
    + exists new. rewrite Hdata, Hcol, Hu'. rewrite Hu in *. done.
  - destruct Hex as (t & Hi & Hp & Hdata & Hcase).
    assert (∀ p, p = Finished ∨ p = Sleeping →
                 uncounted (set_phase p t) = uncounted t) as Hsame.
    { intros p [-> | ->]; unfold uncounted; simpl; by rewrite Hp. }
    destruct Hcase as [(_ & Hcol & Htasks) | (_ & Hcol & Htasks)];
      (split; [|exists new; rewrite Hdata, Hcol, Htasks;
                rewrite (uncounted_records_same _ i t) by auto; done]);
      intros j tj d Hj Hh; rewrite Htasks in Hj;
      (apply list_lookup_insert_Some in Hj as [(_ & <- & _) | (_ & Hj)];
         [discriminate Hh | by eapply Hsz]).
  - destruct Hex as (t & Hi & Hp & _ & Hcol & Htasks & Hdata). split.
    + intros j tj d Hj Hh. rewrite Htasks in Hj.
      apply list_lookup_insert_Some in Hj as [(_ & <- & _) | (_ & Hj)];
        [discriminate Hh | by eapply Hsz].
    + exists new. rewrite Hdata, Hcol, Htasks.
      rewrite (uncounted_records_same _ i t); [done | done |].
      unfold uncounted. simpl. by rewrite Hp.
  - destruct Hex as (t & Hi & Hp & Hcol & Htasks & Hdata).
    pose proof (process_url_parse_stats (task_url t)
                  (fetched (fetch config server)) now (collector w)) as S.
    destruct (process_url_parse E config (task_url t)
                (fetched (fetch config server)) now (collector w))
      as [data c'].
    simpl in *. subst c'. split.
    + intros j tj d Hj Hh. rewrite Htasks in Hj.
      apply list_lookup_insert_Some in Hj as [(_ & <- & _) | (_ & Hj)];
        [|by eapply Hsz].
      destruct data as [d'|]; [|discriminate Hh].
      injection Hh as <-. by destruct S.
    + exists new. rewrite Hdata, Htasks.
      rewrite (uncounted_records_same _ i t);
        [| done | unfold uncounted; simpl; rewrite Hp; by destruct data].
      split; [done|].
      destruct data as [d|]; [destruct S as [-> _]; done|].
      destruct S as [-> | [-> | ->]]; simpl; done.
  - destruct Hex as (t & d & Hi & Hp & Hcol & Htasks & Hdata).
    assert (held t = Some d) as Hheld by (unfold held; by rewrite Hp).
    pose proof (Hsz i t d Hi Hheld) as Hd.
    assert (uncounted t = None) as Hut by (unfold uncounted; by rewrite Hp).
    split.
    + intros j tj dj Hj Hh. rewrite Htasks in Hj.
      apply list_lookup_insert_Some in Hj as [(_ & <- & _) | (_ & Hj)];
        [|by eapply Hsz].
      injection Hh as <-. done.
    + unfold uncounted_records in *. rewrite Hcol, Htasks, Hdata.
      destruct (omap_insert uncounted (tasks w) i t
                  (set_phase (Stored d write_ok) t) Hi)
        as (a & b & Ha & ->).
      rewrite Ha, Hut in *. unfold uncounted. simpl.
      destruct write_ok; simpl in *.
      * exists (new ++ [d]). rewrite Hlog, <- app_assoc. split; [done|].
        rewrite !code_count_app, !bytes_sum_app, !length_app in *.
        simpl. destruct d; simpl in *; repeat split; lia.
      * by exists new.
  - destruct Hex as (t & d & ok & Hi & Hp & Hcol & Htasks & Hdata).
    assert (held t = Some d) as Hheld by (unfold held; by rewrite Hp).
    pose proof (Hsz i t d Hi Hheld) as Hd.
    split.
    + intros j tj dj Hj Hh. rewrite Htasks in Hj.
      apply list_lookup_insert_Some in Hj as [(_ & <- & _) | (_ & Hj)];
        [discriminate Hh | by eapply Hsz].
    + unfold uncounted_records in *. rewrite Hcol, Htasks, Hdata.
      destruct (omap_insert uncounted (tasks w) i t
                  (set_phase Finished t) Hi)
        as (a & b & Ha & ->).
      rewrite Ha in *. unfold uncounted in *. simpl. rewrite Hp in *.
      exists new. split; [done|].
      rewrite !code_count_app, !bytes_sum_app, !length_app in *.
      destruct ok; simpl in *;
        rewrite ?code_count_app, ?bytes_sum_app, ?length_app in *;
        destruct d; simpl in *; repeat split; lia.
  - destruct Hex as (Hcol & Htasks & Hdata). split.
    + intros j t d Hj. rewrite Htasks in Hj. by apply (Hsz j).
    + exists new. by rewrite Hcol, Htasks, Hdata.
  - destruct Hex as (_ & _ & Hcol & Htasks & Hdata). split.
    + intros j t d Hj. rewrite Htasks in Hj. by apply (Hsz j).
    + exists new. by rewrite Hcol, Htasks, Hdata.
  - destruct Hex as (st & _ & _ & _ & Hcol & Htasks & Hdata). split.
    + intros j t d Hj. rewrite Htasks in Hj. by apply (Hsz j).
    + exists new. by rewrite Hcol, Htasks, Hdata.
Qed.

Lemma same_process_account_inv (w0 w : World) :
  settled w0 = true → same_process E config w0 w → account_inv w0 w.
Proof.
  intros Hset. induction 1 as [|w e w' _ IH Hnr Hex].
  - split.
    + intros j t d Hj Hh. rewrite (settled_held w0 j t Hset Hj) in Hh.
      discriminate Hh.
    + exists []. rewrite app_nil_r.
      rewrite uncounted_records_none.
      * simpl. repeat split; lia.
      * intros j t Hj. apply held_uncounted. by apply (settled_held w0 j).
  - by apply (account_inv_step w0 e w w').
Qed.

(** No event of a process takes a counter down. *)
Lemma exec_stats_le (e : Event) (w w' : World) :
  (∀ j t d, tasks w !! j = Some t → held t = Some d → 0 <= size_bytes d) →
  is_restart e = false → exec E config e w = Some w' →
  stats_le (stats (collector w)) (stats (collector w')).
Proof.
  intros Hsz Hnr Hex. apply exec_inv in Hex. unfold stats_le.
  destruct e as [urls_batch|i|i|i server now|i write_ok|i| |now r| |resume now];
    [| | | | | | | | |done].
  - destruct Hex as (_ & _ & _ & _ & _ & -> & _). simpl. lia.
  - destruct Hex as (t & _ & _ & _ & [(_ & -> & _) | (_ & -> & _)]);
      simpl; lia.
  - destruct Hex as (t & _ & _ & _ & -> & _). lia.
  - destruct Hex as (t & _ & _ & -> & _).
    pose proof (process_url_parse_stats (task_url t)
                  (fetched (fetch config server)) now (collector w)) as S.
    destruct (process_url_parse E config (task_url t)
                (fetched (fetch config server)) now (collector w))
      as [[d|] c']; simpl in *.
    + destruct S as [-> _]. lia.
    + destruct S as [-> | [-> | ->]]; simpl; lia.
  - destruct Hex as (t & d & _ & _ & -> & _). lia.
  - destruct Hex as (t & d & ok & Hi & Hp & -> & _).
    assert (held t = Some d) as Hheld by (unfold held; by rewrite Hp).
    pose proof (Hsz i t d Hi Hheld).
    destruct ok, d; simpl in *; lia.
  - destruct Hex as (-> & _). simpl. lia.
  - destruct Hex as (_ & _ & -> & _). lia.
  - destruct Hex as (st & _ & _ & _ & -> & _). lia.
Qed.

Lemma same_process_stats_le (w0 w : World) :
  settled w0 = true →
  same_process E config w0 w → stats_le (stats (collector w0)) (stats (collector w)).
Proof.
  intros Hset. induction 1 as [|w e w' Hsame IH Hnr Hex].
  - unfold stats_le. lia.
  - destruct (same_process_account_inv w0 w Hset Hsame) as [Hsz _].
    pose proof (exec_stats_le e w w' Hsz Hnr Hex) as Hle.
    unfold stats_le in *. lia.
Qed.

(** Once [running] is off it stays off in the process. *)
Lemma same_process_stopped (w0 w : World) :
  same_process E config w0 w →
  running (collector w0) = false → running (collector w) = false.
Proof.
  induction 1 as [|w e w' _ IH Hnr Hex]; [done|]. intros Hoff.
  specialize (IH Hoff). apply exec_inv in Hex.
  destruct e as [urls_batch|i|i|i server now|i write_ok|i| |now r| |resume now];
    [| | | | | | | | |done].
  - destruct Hex as (Hgo & _). unfold should_continue in Hgo.
    by rewrite IH in Hgo.
  - by destruct Hex as (t & _ & _ & _ & [(_ & -> & _) | (_ & -> & _)]).
  - by destruct Hex as (t & _ & _ & _ & -> & _).
  - destruct Hex as (t & _ & _ & -> & _).
    by destruct (process_url_parse_frame E config (task_url t)
                   (fetched (fetch config server)) now (collector w))
      as (_ & -> & _).
  - by destruct Hex as (t & d & _ & _ & -> & _).
  - by destruct Hex as (t & d & ok & _ & _ & -> & _).
  - by destruct Hex as (-> & _).
  - by destruct Hex as (_ & _ & -> & _).
  - by destruct Hex as (st & _ & _ & _ & -> & _).
Qed.

Lemma parse_content_without_dedup (html url now : string) (c : Collector) :
  remove_duplicates config = false →
  content_hashes (parse_content E config html url now c).2 = content_hashes c
  ∧ stats (parse_content E config html url now c).2 = stats c.
Proof.
  intros Hrd. unfold parse_content. rewrite Hrd. by repeat case_match.
Qed.

Lemma process_url_finish_without_dedup (url : string) (content : option string)
    (now : string) (write_ok : bool) (c : Collector) (log : list DataRecord) :
  remove_duplicates config = false →
  content_hashes (process_url_finish E config url content now write_ok c log).1
  = content_hashes c
  ∧ duplicates_skipped
      (stats (process_url_finish E config url content now write_ok c log).1)
    = duplicates_skipped (stats c).
Proof.
  intros Hrd. destruct content as [[|a html]|]; [done | | done].
  unfold process_url_finish.
  destruct (is_code_url E config url).
  - destruct (parse_code_content E config (String a html) url now) as [d|];
      [destruct write_ok|]; done.
  - pose proof (parse_content_without_dedup (String a html) url now c Hrd)
      as [Hh Hs].
    destruct (parse_content E config (String a html) url now c) as [data c1].
    simpl in *. destruct data as [d|]; [|simpl; by rewrite Hh, Hs].
    destruct (follow_external_links config), write_ok; simpl;
      by rewrite Hh, Hs.
Qed.

Lemma process_url_parse_without_dedup (url : string) (content : option string)
    (now : string) (c : Collector) :
  remove_duplicates config = false →
  content_hashes (process_url_parse E config url content now c).2
  = content_hashes c
  ∧ duplicates_skipped
      (stats (process_url_parse E config url content now c).2)
    = duplicates_skipped (stats c).
Proof.
  intros Hrd.
  pose proof (process_url_finish_without_dedup url content now false c [] Hrd)
    as F.
  rewrite process_url_finish_steps in F.
  by destruct (process_url_parse E config url content now c) as [[d|] c1].
Qed.

Lemma same_process_without_dedup (w0 w : World) :
  remove_duplicates config = false →
  same_process E config w0 w →
  content_hashes (collector w) = content_hashes (collector w0)
  ∧ duplicates_skipped (stats (collector w))
    = duplicates_skipped (stats (collector w0)).
Proof.
  intros Hrd. induction 1 as [|w e w' _ IH Hnr Hex]; [done|].
  destruct IH as [IHh IHd]. rewrite <- IHh, <- IHd. apply exec_inv in Hex.
  destruct e as [urls_batch|i|i|i server now|i write_ok|i| |now r| |resume now];
    [| | | | | | | | |done].
  - by destruct Hex as (_ & _ & _ & _ & _ & -> & _).
  - by destruct Hex as (t & _ & _ & _ & [(_ & -> & _) | (_ & -> & _)]).
  - by destruct Hex as (t & _ & _ & _ & -> & _).
  - destruct Hex as (t & _ & _ & -> & _).
    by apply process_url_parse_without_dedup.
  - by destruct Hex as (t & d & _ & _ & -> & _).
  - destruct Hex as (t & d & ok & _ & _ & -> & _). by destruct ok.
  - by destruct Hex as (-> & _).
  - by destruct Hex as (_ & _ & -> & _).
  - by destruct Hex as (st & _ & _ & _ & -> & _).
Qed.

Lemma process_url_finish_fetched (url : string) (content : option string)
    (now : string) (write_ok : bool) (c : Collector) (log : list DataRecord) :
  falsy content = false →
  failed_urls (process_url_finish E config url content now write_ok c log).1
  = failed_urls c
  ∧ pages_failed
      (stats (process_url_finish E config url content now write_ok c log).1)
    = pages_failed (stats c).
Proof.
  destruct content as [[|a html]|]; [done | | done]. intros _.
  unfold process_url_finish.
  destruct (is_code_url E config url).
  - destruct (parse_code_content E config (String a html) url now) as [d|];
      [destruct write_ok|]; done.
  - pose proof (parse_content_frame E config (String a html) url now c) as F.
    destruct (parse_content E config (String a html) url now c) as [data c1].
    simpl in F. destruct F as (_ & _ & Ff & _ & Fp & _).
    destruct data as [d|]; [|simpl; by rewrite Ff, Fp].
    destruct (follow_external_links config), write_ok; simpl;
      by rewrite Ff, Fp.
Qed.

Lemma process_url_parse_fetched (url : string) (content : option string)
    (now : string) (c : Collector) :
  falsy content = false →
  failed_urls (process_url_parse E config url content now c).2 = failed_urls c
  ∧ pages_failed (stats (process_url_parse E config url content now c).2)
    = pages_failed (stats c).
Proof.
  intros Hfalsy.
  pose proof (process_url_finish_fetched url content now false c [] Hfalsy)
    as F.
  rewrite process_url_finish_steps in F.
  by destruct (process_url_parse E config url content now c) as [[d|] c1].
Qed.

(** *** Nothing known is forgotten *)

Lemma exec_known (e : Event) (w w' : World) (u : string) :
  is_restart e = false → exec E config e w = Some w' →
  known w u → known w' u.
Proof.
  intros Hnr Hex Hk. apply exec_inv in Hex. unfold known in *.
  destruct e as [urls_batch|i|i|i server now|i write_ok|i| |now r| |resume now];
    [| | | | | | | | |done].
  - destruct Hex as (_ & Hfin & _ & _ & _ & -> & -> & _). simpl.
    destruct Hk as [Hv | [Hp | (j & t & Hj & Hc & _)]].
    + by left.
    + destruct (decide (u ∈ urls_batch)) as [Hin | Hout].
      * right. right. apply list_elem_of_lookup_1 in Hin as [j Hj].
        exists j, {| task_url := u; task_phase := Created |}.
        rewrite list_lookup_fmap, Hj. done.
      * right. left. set_solver.
    + rewrite (Hfin j t Hj) in Hc. discriminate Hc.
  - destruct Hex as (t & Hi & Hp & _ & Hcase).
    destruct Hk as [Hv | [Hq | (j & tj & Hj & Hc & Hu)]].
    + left. destruct Hcase as [(_ & -> & _) | (_ & -> & _)]; simpl; set_solver.
    + right. left.
      by destruct Hcase as [(_ & -> & _) | (_ & -> & _)].
    + destruct (decide (j = i)) as [-> | Hne].
      * left. rewrite Hi in Hj. injection Hj as <-. subst u.
        destruct Hcase as [(Hin & -> & _) | (_ & -> & _)]; simpl; set_solver.
      * right. right. exists j, tj.
        destruct Hcase as [(_ & _ & ->) | (_ & _ & ->)];
          by rewrite list_lookup_insert_ne.
  - destruct Hex as (t & Hi & Hp & _ & -> & -> & _).
    destruct Hk as [Hv | [Hq | (j & tj & Hj & Hc & Hu)]]; [by left | by right; left |].
    right. right. exists j, tj.
    rewrite list_lookup_insert_ne; [done|].
    intros ->. rewrite Hi in Hj. injection Hj as <-. congruence.
  - destruct Hex as (t & Hi & Hp & -> & -> & _).
    destruct (process_url_parse_frame E config (task_url t)
                (fetched (fetch config server)) now (collector w))
      as (-> & _ & Hsub & _).
    destruct Hk as [Hv | [Hq | (j & tj & Hj & Hc & Hu)]];
      [by left | right; left; by apply Hsub |].
    right. right. exists j, tj.
    rewrite list_lookup_insert_ne; [done|].
    intros ->. rewrite Hi in Hj. injection Hj as <-. congruence.
  - destruct Hex as (t & d & Hi & Hp & -> & -> & _).
    destruct Hk as [Hv | [Hq | (j & tj & Hj & Hc & Hu)]]; [by left | by right; left |].
    right. right. exists j, tj.
    rewrite list_lookup_insert_ne; [done|].
    intros ->. rewrite Hi in Hj. injection Hj as <-. congruence.
  - destruct Hex as (t & d & ok & Hi & Hp & -> & -> & _).
    destruct Hk as [Hv | [Hq | (j & tj & Hj & Hc & Hu)]]; [by left | by right; left |].
    right. right. exists j, tj.
    rewrite list_lookup_insert_ne; [done|].
    intros ->. rewrite Hi in Hj. injection Hj as <-. congruence.
  - by destruct Hex as (-> & -> & _).
  - by destruct Hex as (_ & _ & -> & -> & _).
  - by destruct Hex as (st & _ & _ & _ & -> & -> & _).
Qed.

Lemma same_process_known (w0 w : World) (u : string) :
  same_process E config w0 w → known w0 u → known w u.
Proof.
  induction 1 as [|w e w' _ IH Hnr Hex]; [done|].
  intros Hk. apply (exec_known e w w'); [done | done | by apply IH].
Qed.

(** *** Bounds on the frontier *)

Lemma phase_count_insert (p : Phase) (l : list Task) (i : nat) (t t' : Task) :
  l !! i = Some t →
  Z.of_nat (phase_count p (<[i := t']> l))
  = Z.of_nat (phase_count p l) - Z.b2z (in_phase p t) + Z.b2z (in_phase p t').
Proof.
  unfold phase_count. revert i. induction l as [|x l IH]; intros i Hi; [done|].
  destruct i as [|i]; simpl in *.
  - injection Hi as ->.
    destruct (in_phase p t), (in_phase p t'); simpl; lia.
  - specialize (IH i Hi). destruct (in_phase p x); simpl; lia.
Qed.

Lemma phase_count_created (urls : list string) :
  phase_count Created
    ((λ u, {| task_url := u; task_phase := Created |}) <$> urls)
  = length urls.
Proof.
  unfold phase_count. induction urls as [|u urls IH]; [done|].
  rewrite fmap_cons. cbn [List.filter].
  change (in_phase Created {| task_url := u; task_phase := Created |})
    with true.
  cbn [length]. by rewrite IH.
Qed.

Lemma in_phase_other (p q : Phase) (t : Task) :
  task_phase t = q → p ≠ q → in_phase p t = false.
Proof. intros <- Hne. apply in_phase_false. congruence. Qed.

Lemma exec_bounds (e : Event) (w w' : World) (V P : Z) :
  max_urls_to_crawl config - 1 + 2 * max_concurrent_requests config <= V →
  max_urls_to_crawl config <= P →
  is_restart e = false → exec E config e w = Some w' →
  Z.of_nat (size (visited_urls (collector w)))
    + Z.of_nat (phase_count Created (tasks w)) <= V
  ∧ Z.of_nat (size (urls_to_visit (collector w))) <= P →
  Z.of_nat (size (visited_urls (collector w')))
    + Z.of_nat (phase_count Created (tasks w')) <= V
  ∧ Z.of_nat (size (urls_to_visit (collector w'))) <= P.
Proof.
  intros HV HP Hnr Hex [Hv Hp]. apply exec_inv in Hex.
  destruct e as [urls_batch|i|i|i server now|i write_ok|i| |now r| |resume now];
    [| | | | | | | | |done].
  - destruct Hex as (Hgo & _ & Hlen & _ & _ & -> & -> & _). simpl.
    rewrite phase_count_created. unfold should_continue in Hgo.
    rewrite !andb_true_iff in Hgo. destruct Hgo as [_ Hroom].
    apply negb_true_iff, Z.leb_gt in Hroom. unfold batch_size in Hlen.
    split; [lia|].
    pose proof (subseteq_size
                  (urls_to_visit (collector w) ∖ list_to_set urls_batch)
                  (urls_to_visit (collector w))) as Hs.
    specialize (Hs ltac:(set_solver)). lia.
  - destruct Hex as (t & Hi & Hc & _ & Hcase).
    pose proof (proj2 (in_phase_spec Created t) Hc) as Hin.
    destruct Hcase as [(_ & -> & ->) | (_ & -> & ->)]; simpl;
      rewrite (phase_count_insert Created _ i t) by done; rewrite Hin; simpl.
    + split; [lia | done].
    + pose proof (size_add_one (task_url t) (visited_urls (collector w))).
      split; [lia | done].
  - destruct Hex as (t & Hi & Hs & _ & -> & -> & _).
    rewrite (phase_count_insert Created _ i t) by done.
    rewrite (in_phase_other Created Sleeping t) by done. simpl.
    split; [lia | done].
  - destruct Hex as (t & Hi & Hf & -> & -> & _).
    destruct (process_url_parse_frame E config (task_url t)
                (fetched (fetch config server)) now (collector w))
      as (-> & _ & _ & _ & Hsize & _).
    rewrite (phase_count_insert Created _ i t) by done.
    rewrite (in_phase_other Created Fetching t) by done.
    replace (in_phase Created
               (set_phase
                  match (process_url_parse E config (task_url t)
                           (fetched (fetch config server)) now
                           (collector w)).1 with
                  | Some d => Saving d
                  | None => Finished
                  end t)) with false
      by (by destruct (process_url_parse E config (task_url t)
                         (fetched (fetch config server)) now
                         (collector w)).1).
    simpl. split; lia.
  - destruct Hex as (t & d & Hi & Hs & -> & -> & _).
    rewrite (phase_count_insert Created _ i t) by done.
    rewrite (in_phase_other Created (Saving d) t) by done.
    change (in_phase Created (set_phase (Stored d write_ok) t)) with false.
    simpl. split; [lia | done].
  - destruct Hex as (t & d & ok & Hi & Hs & -> & -> & _).
    rewrite (phase_count_insert Created _ i t) by done.
    rewrite (in_phase_other Created (Stored d ok) t) by done.
    change (in_phase Created (set_phase Finished t)) with false.
    simpl. split; [lia | done].
  - by destruct Hex as (-> & -> & _).
  - by destruct Hex as (_ & _ & -> & -> & _).
  - by destruct Hex as (st & _ & _ & _ & -> & -> & _).
Qed.

Lemma same_process_bounds (w0 w : World) (V P : Z) :
  max_urls_to_crawl config - 1 + 2 * max_concurrent_requests config <= V →
  max_urls_to_crawl config <= P →
  Z.of_nat (size (visited_urls (collector w0)))
    + Z.of_nat (phase_count Created (tasks w0)) <= V
  ∧ Z.of_nat (size (urls_to_visit (collector w0))) <= P →
  same_process E config w0 w →
  Z.of_nat (size (visited_urls (collector w)))
    + Z.of_nat (phase_count Created (tasks w)) <= V
  ∧ Z.of_nat (size (urls_to_visit (collector w))) <= P.
Proof.
  intros HV HP H0. induction 1 as [|w e w' _ IH Hnr Hex]; [done|].
  exact (exec_bounds e w w' V P HV HP Hnr Hex IH).
Qed.

(** *** Failure records *)

Lemma frontier_inv_start (now : string) (file : File) (log : list DataRecord) :
  sound_file file → frontier_inv (start_process config false now file log).
Proof.
  intros Hf. apply frontier_inv_started; simpl; try done; set_solver.
Qed.

Lemma same_process_frontier_inv (w0 w : World) :
  frontier_inv w0 → same_process E config w0 w → frontier_inv w.
Proof.
  intros H0. induction 1 as [|w e w' _ IH Hnr Hex]; [done|].
  by apply (frontier_inv_step E config e w w').
Qed.

(** A coroutine that has not returned moves on, and the failure
    records stay as they are. *)
Lemma failures_inv_retask (i : nat) (t : Task) (p : Phase) (w w' : World) :
  failures_inv w → tasks w !! i = Some t → task_phase t ≠ Finished →
  tasks w' = <[i := set_phase p t]> (tasks w) →
  failed_urls (collector w') = failed_urls (collector w) →
  pages_failed (stats (collector w')) = pages_failed (stats (collector w)) →
  visited_urls (collector w') = visited_urls (collector w) →
  p ≠ Sleeping → p ≠ Fetching →
  failures_inv w'.
Proof.
  intros [Honce Htotal Hopen Hdist Hmark] Hi Ht Htasks Hf Hp Hv Hns Hnf.
  assert (∀ j tj, tasks w' !! j = Some tj →
                  ∃ tj', tasks w !! j = Some tj'
                         ∧ task_url tj' = task_url tj
                         ∧ (task_phase tj ≠ Finished → task_phase tj' ≠ Finished)
                         ∧ (task_phase tj = Sleeping ∨ task_phase tj = Fetching →
                            task_phase tj' = Sleeping ∨ task_phase tj' = Fetching))
    as Hold.
  { intros j tj Hj. rewrite Htasks in Hj.
    apply list_lookup_insert_Some in Hj as [(<- & <- & _) | (_ & Hj)].
    - exists t. split; [done|]. split; [done|]. split; [done|].
      simpl. intros [? | ?]; congruence.
    - by exists tj. }
  split; rewrite ?Hf, ?Hp, ?Hv.
  - exact Honce.
  - exact Htotal.
  - intros j tj Hj Hph. destruct (Hold j tj Hj) as (tj' & Hj' & <- & Hfin & _).
    apply (Hopen j tj' Hj'). by apply Hfin.
  - intros j k tj tk Hj Hk Hpj Hpk Heq.
    destruct (Hold j tj Hj) as (tj' & Hj' & Huj & Hfj & _).
    destruct (Hold k tk Hk) as (tk' & Hk' & Huk & Hfk & _).
    apply (Hdist j k tj' tk' Hj' Hk'); [by apply Hfj | by apply Hfk | congruence].
  - intros j tj Hj Hph. destruct (Hold j tj Hj) as (tj' & Hj' & <- & _ & Hsf).
    apply (Hmark j tj' Hj'). by apply Hsf.
Qed.

Lemma failures_inv_step (e : Event) (w w' : World) :
  frontier_inv w → is_restart e = false → exec E config e w = Some w' →
  failures_inv w → failures_inv w'.
Proof.
  intros [Hd _ _ _ _ _] Hnr Hex Hfi.
  pose proof Hfi as [Honce Htotal Hopen Hdist Hmark].
  apply exec_inv in Hex.
  destruct e as [urls_batch|i|i|i server now|i write_ok|i| |now r| |resume now];
    [| | | | | | | | |done].
  - destruct Hex as (_ & _ & _ & Hnd & Hin & Hcol & Htasks & _).
    split; rewrite ?Hcol, ?Htasks; simpl; try done.
    + intros j t Hj _. apply list_lookup_fmap_Some in Hj as (u & -> & Hu).
      simpl. apply list_elem_of_lookup_2 in Hu.
      destruct (failed_urls (collector w) !! u) as [n|] eqn:Hn; [|done].
      destruct (Honce u n Hn) as [_ Hv]. pose proof (Hin u Hu). set_solver.
    + intros j k tj tk Hj Hk _ _ Heq.
      apply list_lookup_fmap_Some in Hj as (uj & -> & Huj).
      apply list_lookup_fmap_Some in Hk as (uk & -> & Huk).
      simpl in Heq. subst uk. by eapply NoDup_lookup.
    + intros j t Hj Hph.
      apply list_lookup_fmap_Some in Hj as (u & -> & _).
      simpl in Hph. by destruct Hph.
  - destruct Hex as (t & Hi & Hc & _ & Hcase).
    destruct Hcase as [(Hin & Hcol & Htasks) | (Hnew & Hcol & Htasks)];
      split; rewrite ?Hcol, ?Htasks; simpl; try done.
    + intros j tj Hj Hph.
      apply list_lookup_insert_Some in Hj as [(_ & <- & _) | (_ & Hj)];
        [done | by eapply Hopen].
    + intros j k tj tk Hj Hk Hpj Hpk.
      apply list_lookup_insert_Some in Hj as [(_ & <- & _) | (_ & Hj)];
        [done|].
      apply list_lookup_insert_Some in Hk as [(_ & <- & _) | (_ & Hk)];
        [done | by eapply Hdist].
    + intros j tj Hj Hph.
      apply list_lookup_insert_Some in Hj as [(_ & <- & _) | (_ & Hj)];
        [simpl in Hph; by destruct Hph | by eapply Hmark].
    + intros u n Hn. destruct (Honce u n Hn). split; [done | set_solver].
    + intros j tj Hj Hph.
      apply list_lookup_insert_Some in Hj as [(_ & <- & _) | (_ & Hj)];
        [|by eapply Hopen].
      simpl. apply (Hopen i t Hi). congruence.
    + intros j k tj tk Hj Hk Hpj Hpk Heq.
      assert (task_phase t ≠ Finished) as Ht by congruence.
      apply list_lookup_insert_Some in Hj as [(<- & <- & _) | (Hnj & Hj)];
        apply list_lookup_insert_Some in Hk as [(<- & <- & _) | (Hnk & Hk)];
        simpl in Heq; try done.
      * exact (Hdist i k t tk Hi Hk Ht Hpk Heq).
      * exact (Hdist j i tj t Hj Hi Hpj Ht Heq).
      * exact (Hdist j k tj tk Hj Hk Hpj Hpk Heq).
    + intros j tj Hj Hph.
      apply list_lookup_insert_Some in Hj as [(_ & <- & _) | (_ & Hj)];
        [simpl; set_solver|].
      pose proof (Hmark j tj Hj Hph). set_solver.
  - destruct Hex as (t & Hi & Hs & _ & Hcol & Htasks & _).
    assert (task_phase t ≠ Finished) as Ht by congruence.
    split; rewrite ?Hcol, ?Htasks; simpl; try done.
    + intros j tj Hj Hph.
      apply list_lookup_insert_Some in Hj as [(_ & <- & _) | (_ & Hj)];
        [by apply (Hopen i t Hi) | by eapply Hopen].
    + intros j k tj tk Hj Hk Hpj Hpk Heq.
      apply list_lookup_insert_Some in Hj as [(<- & <- & _) | (Hnj & Hj)];
        apply list_lookup_insert_Some in Hk as [(<- & <- & _) | (Hnk & Hk)];
        simpl in Heq; try done.
      * exact (Hdist i k t tk Hi Hk Ht Hpk Heq).
      * exact (Hdist j i tj t Hj Hi Hpj Ht Heq).
      * exact (Hdist j k tj tk Hj Hk Hpj Hpk Heq).
    + intros j tj Hj Hph.
      apply list_lookup_insert_Some in Hj as [(_ & <- & _) | (_ & Hj)];
        [simpl; apply (Hmark i t Hi); by left | by eapply Hmark].
  - destruct Hex as (t & Hi & Hf & Hcol & Htasks & _).
    assert (task_phase t ≠ Finished) as Ht by congruence.
    pose proof (Hopen i t Hi Ht) as Hnone.
    pose proof (Hmark i t Hi (or_intror Hf)) as Hvis.
    destruct (falsy (fetched (fetch config server))) eqn:Hfalsy.
    + rewrite process_url_parse_failed in Hcol, Htasks by done.
      simpl in Hcol, Htasks.
      assert (∀ j tj, <[i := set_phase Finished t]> (tasks w) !! j = Some tj →
                      task_phase tj ≠ Finished →
                      j ≠ i ∧ tasks w !! j = Some tj ∧ task_url tj ≠ task_url t)
        as Hother.
      { intros j tj Hj Hph.
        apply list_lookup_insert_Some in Hj as [(_ & <- & _) | (Hne & Hj)];
          [done|].
        split; [done|]. split; [done|]. intros Heq. apply Hne.
        exact (Hdist i j t tj Hi Hj Ht Hph (eq_sym Heq)). }
      split; rewrite ?Hcol, ?Htasks; simpl.
      * intros u n Hn. rewrite Hnone in Hn. simpl in Hn.
        apply lookup_insert_Some in Hn as [[<- <-] | [_ Hn]];
          [done | by apply Honce].
      * rewrite Hnone, map_size_insert_None by done. lia.
      * intros j tj Hj Hph. destruct (Hother j tj Hj Hph) as (_ & Hj' & Hne).
        rewrite lookup_insert_ne by done. by eapply Hopen.
      * intros j k tj tk Hj Hk Hpj Hpk.
        destruct (Hother j tj Hj Hpj) as (_ & Hj' & _).
        destruct (Hother k tk Hk Hpk) as (_ & Hk' & _). by eapply Hdist.
      * intros j tj Hj Hph.
        assert (task_phase tj ≠ Finished) as Hpj by (destruct Hph; congruence).
        destruct (Hother j tj Hj Hpj) as (_ & Hj' & _). by eapply Hmark.
    + destruct (process_url_parse_fetched (task_url t)
                  (fetched (fetch config server)) now (collector w) Hfalsy)
        as [Hfu Hpf].
      destruct (process_url_parse_frame E config (task_url t)
                  (fetched (fetch config server)) now (collector w))
        as (Hv & _).
      apply (failures_inv_retask i t _ w w' Hfi Hi Ht Htasks);
        rewrite ?Hcol; try done;
        by destruct (process_url_parse E config (task_url t)
                       (fetched (fetch config server)) now (collector w)).1.
  - destruct Hex as (t & d & Hi & Hp & Hcol & Htasks & _).
    apply (failures_inv_retask i t (Stored d write_ok) w w' Hfi Hi);
      rewrite ?Hcol; try done; congruence.
  - destruct Hex as (t & d & ok & Hi & Hp & Hcol & Htasks & _).
    apply (failures_inv_retask i t Finished w w' Hfi Hi);
      rewrite ?Hcol; try done; try congruence; by destruct ok.
  - destruct Hex as (Hcol & Htasks & _).
    split; rewrite ?Hcol, ?Htasks; simpl; done.
  - destruct Hex as (_ & _ & Hcol & Htasks & _).
    split; rewrite ?Hcol, ?Htasks; done.
  - destruct Hex as (st & _ & _ & _ & Hcol & Htasks & _).
    split; rewrite ?Hcol, ?Htasks; done.
Qed.

Lemma same_process_failures_inv (w0 w : World) :
  frontier_inv w0 → failures_inv w0 →
  same_process E config w0 w → failures_inv w.
Proof.
  intros Hfr H0. induction 1 as [|w e w' Hsame IH Hnr Hex]; [done|].
  apply (failures_inv_step e w w'); try done.
  by apply (same_process_frontier_inv w0).
Qed.

(** *** A checkpoint written while the batch goes on *)

Lemma exec_all_saving (es : list Event) (w w' : World) :
  forallb (λ e, negb (touches_checkpoint e)) es = true →
  exec_all E config es w = Some w' →
  saving w' = saving w.
Proof.
  revert w. induction es as [|e es IH]; intros w Hes Hex; simpl in *.
  - by injection Hex as <-.
  - apply andb_true_iff in Hes as [He Hes].
    destruct (exec E config e w) as [w1|] eqn:Hstep; [|discriminate].
    rewrite (IH w1 Hes Hex). clear IH Hex.
    destruct e as [urls_batch|i|i|i server now|i write_ok|i| |now r| |resume now];
      try done; simpl in Hstep.
    + case_match; [|discriminate]. by injection Hstep as <-.
    + destruct (tasks w !! i) as [t|]; [|discriminate].
      destruct (in_phase Created t); [|discriminate].
      destruct (process_url_begin (task_url t) (collector w));
        by injection Hstep as <-.
    + destruct (tasks w !! i) as [t|]; [|discriminate].
      case_match; [|discriminate]. by injection Hstep as <-.
    + destruct (tasks w !! i) as [t|]; [|discriminate].
      destruct (in_phase Fetching t); [|discriminate].
      destruct (process_url_parse E config (task_url t)
                  (fetched (fetch config server)) now (collector w)).
      by injection Hstep as <-.
    + destruct (tasks w !! i) as [t|]; [|discriminate].
      destruct (task_phase t); try discriminate. by injection Hstep as <-.
    + destruct (tasks w !! i) as [t|]; [|discriminate].
      destruct (task_phase t); try discriminate. by injection Hstep as <-.
    + by injection Hstep as <-.
Qed.

(** The failure records change only where a fetch returns. *)
Lemma exec_all_failed (es : list Event) (w w' : World) :
  forallb (λ e, negb (is_restart e) && negb (is_complete e)) es = true →
  exec_all E config es w = Some w' →
  failed_urls (collector w') = failed_urls (collector w).
Proof.
  revert w. induction es as [|e es IH]; intros w Hes Hex; simpl in *.
  - by injection Hex as <-.
  - apply andb_true_iff in Hes as [He Hes].
    destruct (exec E config e w) as [w1|] eqn:Hstep; [|discriminate].
    rewrite (IH w1 Hes Hex). clear IH Hex. apply exec_inv in Hstep.
    destruct e as [urls_batch|i|i|i server now|i write_ok|i| |now r| |resume now];
      try done.
    + by destruct Hstep as (_ & _ & _ & _ & _ & -> & _).
    + by destruct Hstep as (t & _ & _ & _ & [(_ & -> & _) | (_ & -> & _)]).
    + by destruct Hstep as (t & _ & _ & _ & -> & _).
    + by destruct Hstep as (t & d & _ & _ & -> & _).
    + by destruct Hstep as (t & d & ok & _ & _ & -> & _).
    + by destruct Hstep as (-> & _).
    + by destruct Hstep as (_ & _ & -> & _).
    + by destruct Hstep as (st & _ & _ & _ & -> & _).
Qed.

End ProcessFacts.

Lemma after_seed_same_process :
  same_process Fixture.lib Fixture.cfg Fixture.boot Fixture.after_seed.
Proof.
  apply (same_process_exec_all Fixture.lib Fixture.cfg Fixture.crawl_seed
           Fixture.boot Fixture.boot).
  - reflexivity.
  - apply same_start.
  - vm_compute. reflexivity.
Defined.

Lemma after_refusal_same_process :
  same_process Fixture.lib Fixture.cfg Fixture.boot Fixture.after_refusal.
Proof.
  apply (same_process_exec_all Fixture.lib Fixture.cfg Fixture.fail_seed
           Fixture.boot Fixture.boot).
  - reflexivity.
  - apply same_start.
  - vm_compute. reflexivity.
Defined.

(** X10. Within one process no counter of the statistics ever goes
    down: pages crawled, pages failed, code files collected, total
    bytes and duplicates skipped only grow, counted from the start of
    the process or from any other moment [w0] at which no coroutine is
    inside [save_data]. *)
Theorem counters_never_decrease
    (E : Externals) (config : Config) (w0 w : World) :
  settled w0 = true →
  same_process E config w0 w →
  stats_le (stats (collector w0)) (stats (collector w)).
Proof. apply same_process_stats_le. Qed.

Lemma counters_never_decrease_witness :
  stats_le (stats (collector Fixture.boot)) (stats (collector Fixture.after_seed)).
Proof.
  apply (counters_never_decrease Fixture.lib Fixture.cfg Fixture.boot
           Fixture.after_seed).
  - reflexivity.
  - exact after_seed_same_process.
Defined.

Lemma appended_seed_same_process :
  same_process Fixture.lib Fixture.cfg Fixture.boot Fixture.appended_seed.
Proof.
  apply (same_process_exec_all Fixture.lib Fixture.cfg
           (Fixture.fetch_seed
              ++ [ Complete 0 (Fixture.serves Fixture.html) "t1";
                   Append 0 true ])
           Fixture.boot Fixture.boot).
  - reflexivity.
  - apply same_start.
  - vm_compute. reflexivity.
Defined.

Lemma bytes_sum_nonneg (l : list DataRecord) :
  (∀ d, d ∈ l → 0 <= size_bytes d) → 0 <= bytes_sum l.
Proof.
  induction l as [|d l IH]; intros Hall; simpl; [lia|].
  pose proof (Hall d ltac:(left)).
  assert (0 <= bytes_sum l) by (apply IH; intros d' Hd'; apply Hall; by right).
  lia.
Qed.

Lemma code_count_nonneg (l : list DataRecord) : 0 <= code_count l.
Proof. induction l as [|[r|r] l IH]; simpl; lia. Qed.

Lemma settled_uncounted (w : World) :
  settled w = true → uncounted_records (tasks w) = [].
Proof.
  intros Hset. apply uncounted_records_none. intros j t Hj.
  apply held_uncounted. by apply (settled_held w j).
Qed.

(** X11. The counters of [save_data] follow the log, and never run
    ahead of it. Counted from the start of a process, or from any
    other moment at which no coroutine is inside [save_data], what
    [code_files_collected] and [total_bytes] have gained, together with
    the records whose line is in the log while their [save_data] has
    not resumed, is the number of code records and the sum of the
    [size_bytes] that the log has gained. The two counters are
    therefore at most what the log tells, and exactly that whenever no
    coroutine is inside [save_data], as at the end of every batch.
    [pages_crawled] is updated at the same step, also for a record
    whose write failed. *)
Theorem counters_follow_the_log
    (E : Externals) (config : Config) (w0 w : World) :
  settled w0 = true →
  same_process E config w0 w →
  ∃ new, data_file w = data_file w0 ++ new
         ∧ code_files_collected (stats (collector w))
             + code_count (uncounted_records (tasks w))
           = code_files_collected (stats (collector w0)) + code_count new
         ∧ total_bytes (stats (collector w))
             + bytes_sum (uncounted_records (tasks w))
           = total_bytes (stats (collector w0)) + bytes_sum new
         ∧ pages_crawled (stats (collector w0)) + Z.of_nat (length new)
           <= pages_crawled (stats (collector w))
              + Z.of_nat (length (uncounted_records (tasks w)))
         ∧ code_files_collected (stats (collector w))
           <= code_files_collected (stats (collector w0)) + code_count new
         ∧ total_bytes (stats (collector w))
           <= total_bytes (stats (collector w0)) + bytes_sum new
         ∧ (settled w = true →
            code_files_collected (stats (collector w))
            = code_files_collected (stats (collector w0)) + code_count new
            ∧ total_bytes (stats (collector w))
              = total_bytes (stats (collector w0)) + bytes_sum new
            ∧ pages_crawled (stats (collector w0)) + Z.of_nat (length new)
              <= pages_crawled (stats (collector w))).
Proof.
  intros Hset Hsame.
  destruct (same_process_account_inv E config w0 w Hset Hsame)
    as [Hsz (new & Hlog & Hcode & Hbytes & Hpages)].
  exists new. split; [done|]. split; [done|]. split; [done|]. split; [done|].
  pose proof (code_count_nonneg (uncounted_records (tasks w))).
  assert (0 <= bytes_sum (uncounted_records (tasks w))) as Hnn.
  { apply bytes_sum_nonneg. intros d Hd. unfold uncounted_records in Hd.
    apply list_elem_of_omap in Hd as (t & Ht & Hu).
    apply list_elem_of_lookup_1 in Ht as [j Hj].
    apply (Hsz j t d Hj). unfold uncounted, held in *.
    destruct (task_phase t) as [| | |d'|d' [|]|]; congruence. }
  split; [lia|]. split; [lia|].
  intros Hset'. rewrite (settled_uncounted w Hset') in *. simpl in *. lia.
Qed.

(** The line of the seed page is in the log and not yet counted. *)
Lemma counters_follow_the_log_witness :
  ∃ new, data_file Fixture.appended_seed = data_file Fixture.boot ++ new
         ∧ code_files_collected (stats (collector Fixture.appended_seed))
             + code_count (uncounted_records (tasks Fixture.appended_seed))
           = code_files_collected (stats (collector Fixture.boot))
             + code_count new
         ∧ total_bytes (stats (collector Fixture.appended_seed))
             + bytes_sum (uncounted_records (tasks Fixture.appended_seed))
           = total_bytes (stats (collector Fixture.boot)) + bytes_sum new
         ∧ pages_crawled (stats (collector Fixture.boot))
             + Z.of_nat (length new)
           <= pages_crawled (stats (collector Fixture.appended_seed))
              + Z.of_nat (length (uncounted_records
                                    (tasks Fixture.appended_seed)))
         ∧ code_files_collected (stats (collector Fixture.appended_seed))
           <= code_files_collected (stats (collector Fixture.boot))
              + code_count new
         ∧ total_bytes (stats (collector Fixture.appended_seed))
           <= total_bytes (stats (collector Fixture.boot)) + bytes_sum new
         ∧ (settled Fixture.appended_seed = true →
            code_files_collected (stats (collector Fixture.appended_seed))
            = code_files_collected (stats (collector Fixture.boot))
              + code_count new
            ∧ total_bytes (stats (collector Fixture.appended_seed))
              = total_bytes (stats (collector Fixture.boot)) + bytes_sum new
            ∧ pages_crawled (stats (collector Fixture.boot))
                + Z.of_nat (length new)
              <= pages_crawled (stats (collector Fixture.appended_seed))).
Proof.
  apply (counters_follow_the_log Fixture.lib Fixture.cfg Fixture.boot
           Fixture.appended_seed).
  - reflexivity.
  - exact appended_seed_same_process.
Defined.

(** X12. Once [running] is off, by the signal handler or at the end of
    the loop, it stays off for the rest of the process and no further
    batch is dispatched. *)
Theorem no_dispatch_after_stop
    (E : Externals) (config : Config) (w0 w : World) :
  running (collector w0) = false →
  same_process E config w0 w →
  running (collector w) = false
  ∧ ∀ urls_batch, exec E config (Dispatch urls_batch) w = None.
Proof.
  intros Hoff Hsame.
  pose proof (same_process_stopped E config w0 w Hsame Hoff) as Hstill.
  split; [done|]. intros urls_batch. simpl. unfold should_continue.
  by rewrite Hstill.
Qed.

Lemma no_dispatch_after_stop_witness :
  running (collector Fixture.stopped) = false
  ∧ ∀ urls_batch,
      exec Fixture.lib Fixture.cfg (Dispatch urls_batch) Fixture.stopped = None.
Proof.
  apply (no_dispatch_after_stop Fixture.lib Fixture.cfg Fixture.stopped
           Fixture.stopped).
  - reflexivity.
  - apply same_start.
Defined.

(** X13. With [remove_duplicates] off, a process never touches the
    fingerprint set nor the [duplicates_skipped] counter. *)
Theorem fingerprints_unused_without_dedup
    (E : Externals) (config : Config) (w0 w : World) :
  remove_duplicates config = false →
  same_process E config w0 w →
  content_hashes (collector w) = content_hashes (collector w0)
  ∧ duplicates_skipped (stats (collector w))
    = duplicates_skipped (stats (collector w0)).
Proof. apply same_process_without_dedup. Qed.

Lemma fingerprints_unused_without_dedup_witness :
  content_hashes (collector Fixture.after_seed_keep)
  = content_hashes (collector (start_process Fixture.cfg_keep false "t0" Missing []))
  ∧ duplicates_skipped (stats (collector Fixture.after_seed_keep))
    = duplicates_skipped
        (stats (collector (start_process Fixture.cfg_keep false "t0" Missing []))).
Proof.
  apply (fingerprints_unused_without_dedup Fixture.lib Fixture.cfg_keep).
  - reflexivity.
  - apply (same_process_exec_all Fixture.lib Fixture.cfg_keep Fixture.crawl_seed
             _ (start_process Fixture.cfg_keep false "t0" Missing [])).
    + reflexivity.
    + apply same_start.
    + vm_compute. reflexivity.
Defined.

(** X14. Within one process no URL drops out of the crawl: a URL that
    is visited, pending, or dispatched and waiting for its first step
    is still one of the three after any further events. *)
Theorem nothing_known_is_forgotten
    (E : Externals) (config : Config) (w0 w : World) (u : string) :
  same_process E config w0 w → known w0 u → known w u.
Proof. apply same_process_known. Qed.

Lemma nothing_known_is_forgotten_witness :
  known Fixture.after_seed "http://site.test/a".
Proof.
  apply (nothing_known_is_forgotten Fixture.lib Fixture.cfg Fixture.boot
           Fixture.after_seed "http://site.test/a" after_seed_same_process).
  right. left. apply (bool_decide_unpack _). vm_compute. exact I.
Defined.

(** X15. In a process started without [--resume], the visited set
    never holds more than [max_urls_to_crawl - 1 + 2 *
    max_concurrent_requests] URLs (the last batch may overshoot the
    ceiling), and the pending set never more than the larger of the
    number of seeds and [max_urls_to_crawl]. *)
Theorem frontier_stays_bounded
    (E : Externals) (config : Config) (now : string) (file : File)
    (log : list DataRecord) (w : World) :
  same_process E config (start_process config false now file log) w →
  Z.of_nat (size (visited_urls (collector w)))
    <= Z.max 0 (max_urls_to_crawl config - 1
                + 2 * max_concurrent_requests config)
  ∧ Z.of_nat (size (urls_to_visit (collector w)))
    <= Z.max (Z.of_nat (size (list_to_set (seed_urls config) : gset string)))
             (max_urls_to_crawl config).
Proof.
  intros Hsame.
  destruct (same_process_bounds E config
              (start_process config false now file log) w
              (Z.max 0 (max_urls_to_crawl config - 1
                        + 2 * max_concurrent_requests config))
              (Z.max (Z.of_nat (size (list_to_set (seed_urls config) : gset string)))
                     (max_urls_to_crawl config))
              ltac:(lia) ltac:(lia)) as [Hv Hp]; [| exact Hsame |].
  - unfold start_process, Collector_init, phase_count.
    cbn [collector visited_urls urls_to_visit tasks set_start_time
         List.filter length].
    rewrite size_empty. lia.
  - split; [lia | done].
Qed.

Lemma frontier_stays_bounded_witness :
  Z.of_nat (size (visited_urls (collector Fixture.after_seed)))
    <= Z.max 0 (max_urls_to_crawl Fixture.cfg - 1
                + 2 * max_concurrent_requests Fixture.cfg)
  ∧ Z.of_nat (size (urls_to_visit (collector Fixture.after_seed)))
    <= Z.max (Z.of_nat (size (list_to_set (seed_urls Fixture.cfg) : gset string)))
             (max_urls_to_crawl Fixture.cfg).
Proof.
  exact (frontier_stays_bounded Fixture.lib Fixture.cfg "t0" Missing []
           Fixture.after_seed after_seed_same_process).
Defined.

(** X16. In a process started without [--resume], a URL never fails
    twice: every entry of [failed_urls] is 1 and belongs to a visited
    URL, and [pages_failed] is the number of entries. *)
Theorem failures_are_counted_once
    (E : Externals) (config : Config) (now : string) (file : File)
    (log : list DataRecord) (w : World) :
  sound_file file →
  same_process E config (start_process config false now file log) w →
  (∀ u n, failed_urls (collector w) !! u = Some n →
          n = 1 ∧ u ∈ visited_urls (collector w))
  ∧ pages_failed (stats (collector w))
    = Z.of_nat (size (failed_urls (collector w))).
Proof.
  intros Hfile Hsame.
  destruct (same_process_failures_inv E config
              (start_process config false now file log) w)
    as [Honce Htotal _ _ _];
    [by apply frontier_inv_start | | exact Hsame | done].
  split; simpl; try done.
Qed.

Lemma failures_are_counted_once_witness :
  (∀ u n, failed_urls (collector Fixture.after_refusal) !! u = Some n →
          n = 1 ∧ u ∈ visited_urls (collector Fixture.after_refusal))
  ∧ pages_failed (stats (collector Fixture.after_refusal))
    = Z.of_nat (size (failed_urls (collector Fixture.after_refusal))).
Proof.
  exact (failures_are_counted_once Fixture.lib Fixture.cfg "t0" Missing []
           Fixture.after_refusal I after_refusal_same_process).
Defined.

(** C6, as the code has it. Loading the file that [save_checkpoint]
    leaves succeeds and gives, in whatever collector loads it, the
    visited set, the pending set and the statistics counters that the
    saving collector had when [save_checkpoint] was called, and the
    failure counts it had when the text was written, after the file was
    opened. When no fetch has returned in between, as for the final
    checkpoint of [run], the failure counts are those of the call as
    well, and what is loaded is the state that was saved. *)
Theorem load_save_checkpoint
    (E : Externals) (config : Config) (now : string) (r : Reading) :
  (∀ (c : Collector) (failed : gmap string Z) (c0 : Collector),
     (load_checkpoint (save_checkpoint now r c failed) c0).2 = true
     ∧ visited_urls (load_checkpoint (save_checkpoint now r c failed) c0).1
       = visited_urls c
     ∧ urls_to_visit (load_checkpoint (save_checkpoint now r c failed) c0).1
       = urls_to_visit c
     ∧ stats (load_checkpoint (save_checkpoint now r c failed) c0).1 = stats c
     ∧ failed_urls (load_checkpoint (save_checkpoint now r c failed) c0).1
       = failed)
  ∧ (∀ (w w1 w2 : World) (es : list Event),
       exec E config (SaveOpen now r) w = Some w1 →
       forallb (λ e, negb (touches_checkpoint e)) es = true →
       exec_all E config es w1 = Some w2 →
       ∃ w3, exec E config SaveWrite w2 = Some w3
             ∧ checkpoint_file w3
               = save_checkpoint now r (collector w) (failed_urls (collector w2))
             ∧ (forallb (λ e, negb (is_complete e)) es = true →
                failed_urls (collector w2) = failed_urls (collector w)
                ∧ ∀ c0,
                    visited_urls (load_checkpoint (checkpoint_file w3) c0).1
                      = visited_urls (collector w)
                    ∧ urls_to_visit (load_checkpoint (checkpoint_file w3) c0).1
                      = urls_to_visit (collector w)
                    ∧ stats (load_checkpoint (checkpoint_file w3) c0).1
                      = stats (collector w)
                    ∧ failed_urls (load_checkpoint (checkpoint_file w3) c0).1
                      = failed_urls (collector w))).
Proof.
  split.
  - intros c failed c0. unfold save_checkpoint.
    destruct (load_dump_state now r c failed c0) as (Hok & Hv & Hp & Hf & Hs).
    done.
  - intros w w1 w2 es Hopen Hquiet Hrun.
    pose proof (exec_all_saving E config es w1 w2 Hquiet Hrun) as Hsav.
    apply exec_inv in Hopen. destruct Hopen as (_ & Hst & Hcol & _).
    rewrite Hst in Hsav. simpl. rewrite Hsav. eexists.
    split; [reflexivity|]. simpl. split; [done|]. intros Hnone.
    assert (failed_urls (collector w2) = failed_urls (collector w)) as Hfailed.
    { rewrite <- Hcol. apply (exec_all_failed E config es); [|done].
      clear Hrun Hsav. induction es as [|e es IH]; [done|]. simpl in *.
      apply andb_true_iff in Hquiet as [Hq Hquiet].
      apply andb_true_iff in Hnone as [Hn Hnone].
      rewrite (IH Hquiet Hnone), Hn, andb_true_r.
      by destruct e. }
    split; [done|]. intros c0. rewrite Hfailed.
    destruct (load_dump_state now r (collector w) (failed_urls (collector w)) c0)
      as (_ & Hv & Hp & Hf & Hs).
    done.
Qed.

(** A checkpoint that starts when the seed has been crawled and is
    written while the link is being fetched: no fetch has returned in
    between, and it loads as the state of its start. *)
Lemma load_save_checkpoint_witness :
  ∃ w3, exec Fixture.lib Fixture.cfg SaveWrite Fixture.saving_fetching_link
        = Some w3
        ∧ checkpoint_file w3
          = save_checkpoint "t2" Fixture.reading (collector Fixture.after_seed)
              (failed_urls (collector Fixture.saving_fetching_link))
        ∧ ∀ c0,
            visited_urls (load_checkpoint (checkpoint_file w3) c0).1
              = visited_urls (collector Fixture.after_seed)
            ∧ urls_to_visit (load_checkpoint (checkpoint_file w3) c0).1
              = urls_to_visit (collector Fixture.after_seed)
            ∧ stats (load_checkpoint (checkpoint_file w3) c0).1
              = stats (collector Fixture.after_seed)
            ∧ failed_urls (load_checkpoint (checkpoint_file w3) c0).1
              = failed_urls (collector Fixture.after_seed).
Proof.
  destruct (proj2 (load_save_checkpoint Fixture.lib Fixture.cfg "t2"
                     Fixture.reading)
              Fixture.after_seed Fixture.saving_after_seed
              Fixture.saving_fetching_link Fixture.fetch_link)
    as (w3 & Hex & Hfile & Hquiet).
  - vm_compute. reflexivity.
  - reflexivity.
  - vm_compute. reflexivity.
  - exists w3. split; [exact Hex|]. split; [exact Hfile|].
    exact (proj2 (Hquiet eq_refl)).
Defined.

(** C6 as stated fails: [save_checkpoint] is called while the seed is
    being fetched, when nothing has failed; the fetch fails before the
    text is written. The file then loads with a failure count for the
    seed, which the saved state did not have, and with [pages_failed]
    at 0, which the collector no longer has: what is loaded is neither
    the state at the call nor the state at the write. *)
Lemma interleaved_checkpoint_counterexample :
  ∃ w,
    exec_all Fixture.lib Fixture.cfg Fixture.save_across_refusal Fixture.boot
      = Some w
    ∧ saving Fixture.fetching_seed = None
    ∧ failed_urls (collector Fixture.fetching_seed) = ∅
    ∧ failed_urls (load_checkpoint (checkpoint_file w)
                     (Collector_init Fixture.cfg)).1
        !! "http://site.test/a" = Some 1
    ∧ pages_failed (stats (load_checkpoint (checkpoint_file w)
                             (Collector_init Fixture.cfg)).1) = 0
    ∧ pages_failed (stats (collector w)) = 1
    ∧ failed_urls (collector w) !! "http://site.test/a" = Some 1.
Proof.
  eexists.
  split; [vm_compute; reflexivity|].
  split; [vm_compute; reflexivity|].
  split; [vm_compute; reflexivity|].
  split; [vm_compute; reflexivity|].
  split; [vm_compute; reflexivity|].
  split; vm_compute; reflexivity.
Qed.

(** X17. A checkpoint mixes two moments. The visited list, the pending
    list and the statistics are those of the collector when
    [save_checkpoint] started, while the failure counts are those of
    the collector when the text is written: what ran in between shows
    in ["failed_urls"] only. *)
Theorem checkpoint_mixes_two_moments
    (E : Externals) (config : Config) (w w1 w2 : World)
    (now : string) (r : Reading) (es : list Event) :
  exec E config (SaveOpen now r) w = Some w1 →
  forallb (λ e, negb (touches_checkpoint e)) es = true →
  exec_all E config es w1 = Some w2 →
  ∃ w3, exec E config SaveWrite w2 = Some w3
        ∧ checkpoint_file w3
          = Document (dump_state (checkpoint_state now r (collector w))
                                 (failed_urls (collector w2)))
        ∧ ∀ c0,
            visited_urls (load_checkpoint (checkpoint_file w3) c0).1
              = visited_urls (collector w)
            ∧ urls_to_visit (load_checkpoint (checkpoint_file w3) c0).1
              = urls_to_visit (collector w)
            ∧ stats (load_checkpoint (checkpoint_file w3) c0).1
              = stats (collector w)
            ∧ failed_urls (load_checkpoint (checkpoint_file w3) c0).1
              = failed_urls (collector w2).
Proof.
  intros Hopen Hquiet Hrun.
  pose proof (exec_all_saving E config es w1 w2 Hquiet Hrun) as Hsav.
  apply exec_inv in Hopen. destruct Hopen as (_ & Hst & _).
  rewrite Hst in Hsav. simpl. rewrite Hsav. eexists. split; [reflexivity|].
  simpl. split; [done|]. intros c0.
  destruct (load_dump_state now r (collector w) (failed_urls (collector w2)) c0)
    as (_ & Hv & Hp & Hf & Hs).
  done.
Qed.

Lemma checkpoint_mixes_two_moments_witness :
  ∃ w3, exec Fixture.lib Fixture.cfg SaveWrite Fixture.saving_after_refusal
        = Some w3
        ∧ checkpoint_file w3
          = Document (dump_state
                        (checkpoint_state "t0" Fixture.reading
                           (collector Fixture.boot))
                        (failed_urls (collector Fixture.saving_after_refusal)))
        ∧ ∀ c0,
            visited_urls (load_checkpoint (checkpoint_file w3) c0).1
              = visited_urls (collector Fixture.boot)
            ∧ urls_to_visit (load_checkpoint (checkpoint_file w3) c0).1
              = urls_to_visit (collector Fixture.boot)
            ∧ stats (load_checkpoint (checkpoint_file w3) c0).1
              = stats (collector Fixture.boot)
            ∧ failed_urls (load_checkpoint (checkpoint_file w3) c0).1
              = failed_urls (collector Fixture.saving_after_refusal).
Proof.
  apply (checkpoint_mixes_two_moments Fixture.lib Fixture.cfg Fixture.boot
           Fixture.saving_boot Fixture.saving_after_refusal
           "t0" Fixture.reading Fixture.fail_seed).
  - vm_compute. reflexivity.
  - reflexivity.
  - vm_compute. reflexivity.
Defined.

(** ** Text *)

Lemma app_cons (c : ascii) (s t : string) :
  String c s +:+ t = String c (s +:+ t).
Proof. reflexivity. Qed.

Lemma app_empty_r (s : string) : s +:+ "" = s.
Proof. induction s as [|c s IH]; [done|]. by rewrite app_cons, IH. Qed.

Lemma app_assoc_string (a b c : string) : (a +:+ b) +:+ c = a +:+ (b +:+ c).
Proof. induction a as [|x a IH]; [done|]. by rewrite !app_cons, IH. Qed.

Lemma rev_onto_app (s acc : string) :
  Text.rev_onto s acc = Text.rev s +:+ acc.
Proof.
  unfold Text.rev. revert acc. induction s as [|c s IH]; intros acc; [done|].
  simpl. rewrite (IH (String c acc)), (IH (String c "")).
  by rewrite app_assoc_string.
Qed.

Lemma rev_cons (c : ascii) (s : string) :
  Text.rev (String c s) = Text.rev s +:+ String c "".
Proof. unfold Text.rev at 1. simpl. apply rev_onto_app. Qed.

Lemma rev_app (a b : string) : Text.rev (a +:+ b) = Text.rev b +:+ Text.rev a.
Proof.
  induction a as [|c a IH].
  - by rewrite app_empty_r.
  - by rewrite app_cons, !rev_cons, IH, app_assoc_string.
Qed.

Lemma all_space_app (a b : string) :
  all_space (a +:+ b) = all_space a && all_space b.
Proof.
  induction a as [|c a IH]; [done|].
  rewrite app_cons. simpl. rewrite IH. by rewrite andb_assoc.
Qed.

Lemma all_space_rev (s : string) : all_space (Text.rev s) = all_space s.
Proof.
  induction s as [|c s IH]; [done|].
  rewrite rev_cons, all_space_app, IH. simpl.
  rewrite andb_true_r. apply andb_comm.
Qed.

Lemma lstrip_app (a b : string) :
  Text.lstrip (a +:+ b)
  = if all_space a then Text.lstrip b else Text.lstrip a +:+ b.
Proof.
  induction a as [|c a IH]; [done|].
  rewrite app_cons. simpl. destruct (Text.is_space c); [exact IH | done].
Qed.

Lemma rstrip_all_space (s : string) : all_space s = true → rstrip s = "".
Proof.
  destruct s as [|c s]; [done|]. simpl. by intros ->.
Qed.

(** The [rev]-[lstrip]-[rev] of [strip] removes the trailing white
    space. *)
Lemma rev_lstrip_rev (s : string) :
  Text.rev (Text.lstrip (Text.rev s)) = rstrip s.
Proof.
  induction s as [|c s IH]; [done|].
  rewrite rev_cons, lstrip_app, all_space_rev. simpl.
  destruct (all_space s) eqn:Hall.
  - rewrite andb_true_r. destruct (Text.is_space c); [done|].
    by rewrite (rstrip_all_space s Hall).
  - rewrite andb_false_r, rev_app, IH. done.
Qed.

Lemma clean_text_unfold (s : string) :
  clean_text s = rstrip (Text.lstrip (Text.collapse_ws false s)).
Proof. unfold clean_text, Text.strip. apply rev_lstrip_rev. Qed.

Lemma is_space_plain (c : ascii) :
  Ascii.eqb c " " = true → c = " "%char.
Proof. apply Ascii.eqb_eq. Qed.

Lemma single_spaced_collapse (prev : bool) (s : string) :
  single_spaced prev (Text.collapse_ws prev s) = true.
Proof.
  revert prev. induction s as [|c s IH]; intros prev; [done|]. simpl.
  destruct (Text.is_space c) eqn:Hc.
  - destruct prev; [apply IH|]. simpl. by rewrite IH.
  - simpl. rewrite Hc. apply IH.
Qed.

Lemma single_spaced_weaken (prev : bool) (s : string) :
  single_spaced prev s = true → single_spaced false s = true.
Proof.
  destruct s as [|c s]; [done|]. simpl.
  destruct (Text.is_space c); [|done].
  rewrite !andb_true_iff. intros [[Hc _] Hs]. done.
Qed.

Lemma single_spaced_lstrip (prev : bool) (s : string) :
  single_spaced prev s = true → single_spaced false (Text.lstrip s) = true.
Proof.
  revert prev. induction s as [|c s IH]; intros prev; [done|]. simpl.
  destruct (Text.is_space c) eqn:Hc.
  - rewrite !andb_true_iff. intros [_ Hs]. by apply (IH true).
  - intros Hs. simpl. by rewrite Hc.
Qed.

Lemma lstrip_head (s : string) :
  match Text.lstrip s with
  | EmptyString => True
  | String c _ => Text.is_space c = false
  end.
Proof.
  induction s as [|c s IH]; [done|]. simpl.
  destruct (Text.is_space c) eqn:Hc; [exact IH | done].
Qed.

Lemma closed_spaced_rstrip (prev : bool) (s : string) :
  single_spaced prev s = true →
  closed_spaced prev (rstrip s) = true ∨ all_space s = true.
Proof.
  revert prev. induction s as [|c s IH]; intros prev; [by right|]. simpl.
  destruct (Text.is_space c) eqn:Hc; simpl.
  - rewrite !andb_true_iff. intros [[Hplain Hprev] Hs].
    destruct (all_space s) eqn:Hall; [by right|]. left. simpl.
    rewrite Hc, Hplain, Hprev. simpl.
    destruct (IH true Hs) as [Hok | Habs]; [done | congruence].
  - intros Hs. left. simpl. rewrite Hc.
    destruct (IH false Hs) as [Hok | Hall]; [done|].
    by rewrite (rstrip_all_space s Hall).
Qed.

Lemma closed_spaced_single (prev : bool) (s : string) :
  closed_spaced prev s = true → single_spaced prev s = true.
Proof.
  revert prev. induction s as [|c s IH]; intros prev; [done|]. simpl.
  destruct (Text.is_space c); [|apply IH].
  rewrite !andb_true_iff. intros [Hc Hs]. split; [done | by apply IH].
Qed.

Lemma closed_spaced_not_all_space (prev : bool) (c : ascii) (s : string) :
  closed_spaced prev (String c s) = true → all_space (String c s) = false.
Proof.
  revert prev c. induction s as [|d s IH]; intros prev c; simpl.
  - destruct (Text.is_space c); [|done]. rewrite !andb_true_iff.
    intros [_ Hend]. done.
  - destruct (Text.is_space c); [|done]. rewrite !andb_true_iff.
    intros [_ Hs]. simpl in IH. by rewrite (IH true d Hs).
Qed.

Lemma closed_spaced_collapse (prev : bool) (s : string) :
  closed_spaced prev s = true → Text.collapse_ws prev s = s.
Proof.
  revert prev. induction s as [|c s IH]; intros prev; [done|]. simpl.
  destruct (Text.is_space c).
  - rewrite !andb_true_iff. intros [[Hplain Hprev] Hs].
    apply negb_true_iff in Hprev as ->. apply is_space_plain in Hplain as ->.
    by rewrite (IH true Hs).
  - intros Hs. by rewrite (IH false Hs).
Qed.

Lemma closed_spaced_rstrip_id (prev : bool) (s : string) :
  closed_spaced prev s = true → rstrip s = s.
Proof.
  revert prev. induction s as [|c s IH]; intros prev Hs; [done|].
  pose proof (closed_spaced_not_all_space prev c s Hs) as Hns.
  simpl in Hns. simpl. rewrite Hns. f_equal.
  simpl in Hs. destruct (Text.is_space c).
  - rewrite !andb_true_iff in Hs. destruct Hs as [_ Hs]. by apply (IH true).
  - by apply (IH false).
Qed.

Lemma tidy_clean (s : string) : tidy s = true → clean_text s = s.
Proof.
  rewrite clean_text_unfold. destruct s as [|c s]; [done|].
  unfold tidy. rewrite andb_true_iff. intros [Hc Hs].
  apply negb_true_iff in Hc.
  rewrite (closed_spaced_collapse false _ Hs).
  assert (Text.lstrip (String c s) = String c s) as -> by (simpl; by rewrite Hc).
  by apply (closed_spaced_rstrip_id false).
Qed.

Lemma clean_tidy (s : string) : tidy (clean_text s) = true.
Proof.
  rewrite clean_text_unfold.
  pose proof (single_spaced_lstrip false _ (single_spaced_collapse false s))
    as Hs.
  pose proof (lstrip_head (Text.collapse_ws false s)) as Hhead.
  destruct (Text.lstrip (Text.collapse_ws false s)) as [|c u]; [done|].
  destruct (closed_spaced_rstrip false _ Hs) as [Hok | Hall].
  - assert (rstrip (String c u) = String c (rstrip u)) as Hr
      by (simpl; by rewrite Hhead).
    rewrite Hr in *. unfold tidy. rewrite Hhead. exact Hok.
  - simpl in Hall. by rewrite Hhead in Hall.
Qed.

Lemma lstrip_all_space (s : string) : all_space s = true → Text.lstrip s = "".
Proof.
  induction s as [|c s IH]; [done|]. simpl.
  destruct (Text.is_space c); [exact IH | done].
Qed.

Lemma collapse_all_space (prev : bool) (s : string) :
  all_space s = true → all_space (Text.collapse_ws prev s) = true.
Proof.
  revert prev. induction s as [|c s IH]; intros prev; [done|]. simpl.
  destruct (Text.is_space c); [|done]. simpl. intros Hs.
  destruct prev; simpl; by apply IH.
Qed.

Lemma collapse_len (prev : bool) (s : string) :
  (String.length (Text.collapse_ws prev s) <= String.length s)%nat.
Proof.
  revert prev. induction s as [|c s IH]; intros prev; [done|]. simpl.
  pose proof (IH true). pose proof (IH false).
  destruct (Text.is_space c); [destruct prev|]; simpl; lia.
Qed.

Lemma lstrip_len (s : string) :
  (String.length (Text.lstrip s) <= String.length s)%nat.
Proof.
  induction s as [|c s IH]; [done|]. simpl.
  destruct (Text.is_space c); simpl; lia.
Qed.

Lemma rstrip_len (s : string) :
  (String.length (rstrip s) <= String.length s)%nat.
Proof.
  induction s as [|c s IH]; [done|]. simpl.
  destruct (Text.is_space c && all_space s); simpl; lia.
Qed.

(** X18. [clean_text] brings every text to a normal form: the result
    has no white space except single plain spaces between other
    characters, a text already of that form is returned as it is, so
    cleaning twice is the same as cleaning once; a text of white space
    only becomes the empty string, and the result is never longer than
    the text. *)
Theorem clean_text_normal_form (s : string) :
  tidy (clean_text s) = true
  ∧ (tidy s = true → clean_text s = s)
  ∧ clean_text (clean_text s) = clean_text s
  ∧ (all_space s = true → clean_text s = "")
  ∧ Text.len (clean_text s) <= Text.len s.
Proof.
  split; [apply clean_tidy|]. split; [apply tidy_clean|].
  split; [apply tidy_clean, clean_tidy|]. split.
  - intros Hall. rewrite clean_text_unfold.
    by rewrite (lstrip_all_space _ (collapse_all_space false s Hall)).
  - rewrite clean_text_unfold. unfold Text.len.
    pose proof (rstrip_len (Text.lstrip (Text.collapse_ws false s))).
    pose proof (lstrip_len (Text.collapse_ws false s)).
    pose proof (collapse_len false s). lia.
Qed.

Lemma clean_text_normal_form_witness :
  clean_text "same text here" = "same text here".
Proof.
  apply (proj1 (proj2 (clean_text_normal_form "same text here"))).
  reflexivity.
Defined.

(** ** URL filters and link extraction *)

Lemma endswith_spec (s e : string) :
  Text.endswith s e = true ↔ ∃ pre : string, s = pre +:+ e.
Proof.
  induction s as [|c s IH]; cbn [Text.endswith].
  - rewrite orb_false_r. split.
    + intros He. apply String.eqb_eq in He as <-. by exists "".
    + intros [pre Hpre]. apply String.eqb_eq.
      destruct pre; [done | discriminate Hpre].
  - rewrite orb_true_iff, IH. split.
    + intros [He | [pre Hpre]].
      * apply String.eqb_eq in He as <-. by exists "".
      * exists (String c pre). by rewrite app_cons, <- Hpre.
    + intros [pre Hpre]. destruct pre as [|d pre].
      * left. apply String.eqb_eq. exact Hpre.
      * right. exists pre. rewrite app_cons in Hpre. by injection Hpre.
Qed.

Lemma lower_char_idem (c : ascii) :
  Text.lower_char (Text.lower_char c) = Text.lower_char c.
Proof.
  destruct c as [[] [] [] [] [] [] [] []]; vm_compute; reflexivity.
Qed.

Lemma lower_idem (s : string) : Text.lower (Text.lower s) = Text.lower s.
Proof.
  induction s as [|c s IH]; [done|]. simpl. by rewrite lower_char_idem, IH.
Qed.

Lemma lower_app (a b : string) :
  Text.lower (a +:+ b) = Text.lower a +:+ Text.lower b.
Proof.
  induction a as [|c a IH]; [done|]. rewrite !app_cons. simpl.
  by rewrite IH, app_cons.
Qed.

Lemma lower_length (s : string) :
  String.length (Text.lower s) = String.length s.
Proof. induction s as [|c s IH]; [done|]. simpl. by rewrite IH. Qed.

Lemma app_inv_length (a a' b b' : string) :
  a +:+ b = a' +:+ b' → String.length a = String.length a' → b = b'.
Proof.
  revert a'. induction a as [|c a IH]; intros [|c' a'] Heq Hlen;
    try discriminate Hlen.
  - exact Heq.
  - rewrite !app_cons in Heq. injection Heq as _ Heq.
    apply (IH a' Heq). simpl in Hlen. lia.
Qed.

Lemma endswith_lower (p ext : string) :
  Text.endswith (Text.lower p) ext = true → Text.lower ext = ext.
Proof.
  intros [pre Hpre]%endswith_spec.
  pose proof (lower_idem p) as Hidem.
  rewrite Hpre, lower_app in Hidem.
  exact (app_inv_length _ _ _ _ Hidem (lower_length pre)).
Qed.

Lemma any_suffix_spec (path : string) (exts : list string) :
  any_suffix path exts = true
  ↔ ∃ ext, ext ∈ exts ∧ Text.endswith path ext = true.
Proof.
  induction exts as [|e exts IH]; simpl.
  - split; [done | intros (ext & Hin & _); by apply elem_of_nil in Hin].
  - destruct (Text.endswith path e) eqn:He.
    + split; [intros _; exists e; split; [left | done] | done].
    + rewrite IH. split.
      * intros (ext & Hin & Hext). exists ext. split; [by right | done].
      * intros (ext & Hin & Hext). apply elem_of_cons in Hin as [-> | Hin];
          [congruence | by exists ext].
Qed.

(** X19. [is_code_url] holds exactly when the lower-cased path of the
    URL ends with one of the configured extensions. The extensions are
    compared as they are written, so only one without capital letters
    can match; an empty extension matches every URL. *)
Theorem is_code_url_suffix (E : Externals) (config : Config) (url : string) :
  (is_code_url E config url = true
   ↔ ∃ ext, ext ∈ code_extensions config
            ∧ ∃ pre : string, Text.lower (urlparse_path E url) = pre +:+ ext)
  ∧ (is_code_url E config url = true →
     ∃ ext, ext ∈ code_extensions config ∧ Text.lower ext = ext)
  ∧ ("" ∈ code_extensions config → is_code_url E config url = true).
Proof.
  unfold is_code_url. split; [|split].
  - rewrite any_suffix_spec. split; intros (ext & Hin & Hext); exists ext;
      (split; [done|]); by apply endswith_spec.
  - intros (ext & Hin & Hext)%any_suffix_spec. exists ext.
    split; [done | by apply (endswith_lower (urlparse_path E url))].
  - intros Hin. apply any_suffix_spec. exists "". split; [done|].
    apply endswith_spec. exists (Text.lower (urlparse_path E url)).
    by rewrite app_empty_r.
Qed.

Lemma is_code_url_suffix_witness :
  is_code_url Fixture.lib Fixture.cfg "http://site.test/run.PY" = true.
Proof.
  apply (proj1 (is_code_url_suffix Fixture.lib Fixture.cfg
                  "http://site.test/run.PY")).
  exists ".py". split; [left|]. by exists "/run".
Defined.

Lemma collect_links_spec (E : Externals) (config : Config)
    (hrefs : list (option string)) (links : gset string) (link : string) :
  link ∈ collect_links E config hrefs links
  ↔ link ∈ links
    ∨ ∃ i, hrefs !! i = Some (Some link)
           ∧ (∀ j, (j < i)%nat → hrefs !! j ≠ Some None)
           ∧ is_http link = true
           ∧ is_allowed_domain E config link = true.
Proof.
  revert links. induction hrefs as [|[u|] hrefs IH]; intros links.
  - simpl. split; [by left|]. intros [Hin | (i & Hi & _)]; [done|].
    by rewrite lookup_nil in Hi.
  - cbn [collect_links]. fold (is_http u).
    assert ((∃ i, (Some u :: hrefs) !! i = Some (Some link)
                  ∧ (∀ j, (j < i)%nat → (Some u :: hrefs) !! j ≠ Some None)
                  ∧ is_http link = true
                  ∧ is_allowed_domain E config link = true)
            ↔ (u = link ∧ is_http link = true
               ∧ is_allowed_domain E config link = true)
              ∨ ∃ i, hrefs !! i = Some (Some link)
                     ∧ (∀ j, (j < i)%nat → hrefs !! j ≠ Some None)
                     ∧ is_http link = true
                     ∧ is_allowed_domain E config link = true) as Hshift.
    { split.
      - intros ([|i] & Hi & Hpre & Hh & Ha).
        + left. simpl in Hi. by injection Hi as ->.
        + right. exists i. split; [done|]. split; [|done].
          intros j Hj. apply (Hpre (S j)). lia.
      - intros [(-> & Hh & Ha) | (i & Hi & Hpre & Hh & Ha)].
        + exists 0%nat. split; [done|]. split; [intros j Hj; lia | done].
        + exists (S i). split; [done|]. split; [|done].
          intros [|j] Hj; [done|]. apply Hpre. lia. }
    rewrite Hshift.
    destruct (is_http u && is_allowed_domain E config u) eqn:Hok;
      rewrite IH.
    + apply andb_true_iff in Hok as [Hh Ha]. split.
      * intros [Hin | Hrest]; [|by right; right].
        apply elem_of_union in Hin as [->%elem_of_singleton | Hin];
          [right; by left | by left].
      * intros [Hin | [(-> & _) | Hrest]];
          [left; set_solver | left; set_solver | by right].
    + split.
      * intros [Hin | Hrest]; [by left | by right; right].
      * intros [Hin | [(-> & Hh & Ha) | Hrest]]; [by left | | by right].
        rewrite Hh, Ha in Hok. discriminate Hok.
  - cbn [collect_links]. split; [by left|].
    intros [Hin | ([|i] & Hi & Hpre & _)]; [done | done |].
    exfalso. apply (Hpre 0%nat); [lia | done].
Qed.

(** X20. [extract_links] returns exactly the cleaned link targets that
    start with [http://] or [https://] and pass [is_allowed_domain],
    taken from the tags that come before the first one on which the
    parser or the URL functions raise. With [follow_external_links] on
    and no allowed domain configured it returns nothing. *)
Theorem extract_links_filter
    (E : Externals) (config : Config) (html base_url : string) :
  (∀ link,
     link ∈ extract_links E config html base_url
     ↔ ∃ i, soup_hrefs E html base_url !! i = Some (Some link)
            ∧ (∀ j, (j < i)%nat → soup_hrefs E html base_url !! j ≠ Some None)
            ∧ is_http link = true
            ∧ is_allowed_domain E config link = true)
  ∧ (follow_external_links config = true →
     allowed_domains config = [] →
     extract_links E config html base_url = ∅).
Proof.
  assert (∀ link,
     link ∈ extract_links E config html base_url
     ↔ ∃ i, soup_hrefs E html base_url !! i = Some (Some link)
            ∧ (∀ j, (j < i)%nat → soup_hrefs E html base_url !! j ≠ Some None)
            ∧ is_http link = true
            ∧ is_allowed_domain E config link = true) as Hspec.
  { intros link. unfold extract_links. rewrite collect_links_spec.
    split; [intros [Hin | Hex]; [set_solver | done] | by right]. }
  split; [exact Hspec|].
  intros Hfollow Hnone. apply set_eq. intros link. split; [|set_solver].
  intros (i & _ & _ & _ & Ha)%Hspec.
  unfold is_allowed_domain in Ha. rewrite Hfollow, Hnone in Ha. discriminate Ha.
Qed.

Lemma extract_links_filter_witness :
  "http://site.test/b"
  ∈ extract_links Fixture.lib Fixture.cfg Fixture.html "http://site.test/a".
Proof.
  apply (proj1 (extract_links_filter Fixture.lib Fixture.cfg Fixture.html
                  "http://site.test/a")).
  exists 0%nat. split; [reflexivity|]. split; [intros j Hj; lia|].
  split; reflexivity.
Defined.

(** ** Loading without a usable checkpoint *)

(** X21. A checkpoint file that is missing, empty, or whose document
    is not a JSON object is not loaded: the collector stays as it is,
    and a start with [--resume] is then the same as a start without
    it. A JSON object that has none of the expected keys, on the other
    hand, loads successfully with the defaults: the frontier becomes
    empty, the seeds are dropped, and the run has nothing to do. *)
Theorem load_checkpoint_without_content
    (config : Config) (file : File) (c : Collector) :
  (file = Missing ∨ file = Truncated
   ∨ (∃ j, file = Document j ∧ ∀ fields, j ≠ JObj fields) →
   load_checkpoint file c = (c, false)
   ∧ ∀ now log, start_process config true now file log
                = start_process config false now file log)
  ∧ (∀ fields,
       file = Document (JObj fields) →
       assoc "visited_urls" fields = None →
       assoc "urls_to_visit" fields = None →
       assoc "failed_urls" fields = None →
       assoc "statistics" fields = None →
       assoc "start_time" fields = None →
       load_checkpoint file c
       = (set_stats Statistics_init
            (set_failed_urls ∅
               (set_urls_to_visit ∅ (set_visited_urls ∅ c))), true)
       ∧ should_continue config (load_checkpoint file c).1 = false).
Proof.
  split.
  - intros Hbad.
    assert (∀ c', load_checkpoint file c' = (c', false)) as Hload.
    { intros c'. destruct Hbad as [-> | [-> | (j & -> & Hj)]]; [done | done |].
      destruct j; try done. by destruct (Hj fields). }
    split; [apply Hload|]. intros now log. unfold start_process.
    by rewrite Hload.
  - intros fields -> Hv Hp Hf Hs Ht.
    assert (load_checkpoint (Document (JObj fields)) c
            = (set_stats Statistics_init
                 (set_failed_urls ∅
                    (set_urls_to_visit ∅ (set_visited_urls ∅ c))), true))
      as Hload.
    { unfold load_checkpoint, get. rewrite Hv, Hp, Hf, Hs, Ht. reflexivity. }
    rewrite Hload. split; [done|]. unfold should_continue. simpl.
    rewrite bool_decide_eq_true_2 by done. by rewrite andb_false_r.
Qed.

Lemma load_checkpoint_without_content_witness :
  load_checkpoint (Document (JObj [])) (Collector_init Fixture.cfg)
  = (set_stats Statistics_init
       (set_failed_urls ∅
          (set_urls_to_visit ∅
             (set_visited_urls ∅ (Collector_init Fixture.cfg)))), true)
  ∧ should_continue Fixture.cfg
      (load_checkpoint (Document (JObj [])) (Collector_init Fixture.cfg)).1
    = false.
Proof.
  apply (proj2 (load_checkpoint_without_content Fixture.cfg
                  (Document (JObj [])) (Collector_init Fixture.cfg))
           []); reflexivity.
Defined.

(** ** The dashboard *)

Lemma omap_id_some {A : Type} (l : list A) : omap id (Some <$> l) = l.
Proof.
  induction l as [|x l IH]; [done|]. rewrite fmap_cons.
  change (omap id (Some x :: (Some <$> l)))
    with (x :: omap id (Some <$> l)).
  by rewrite IH.
Qed.

Lemma length_omap_le {A B : Type} (f : A → option B) (l : list A) :
  (length (omap f l) <= length l)%nat.
Proof.
  induction l as [|x l IH]; [done|].
  change (omap f (x :: l))
    with (match f x with Some y => y :: omap f l | None => omap f l end).
  destruct (f x); simpl; lia.
Qed.

Lemma slice_last {A : Type} (limit : Z) (l : list A) :
  0 < limit →
  slice_from (- limit) l = drop (length l - Z.to_nat limit) l.
Proof.
  intros Hpos. unfold slice_from.
  destruct (Z.ltb_spec (- limit) 0); [|lia]. f_equal. lia.
Qed.

(** X22. [get_recent_data(limit)] returns nothing when the log does
    not exist or cannot be read as UTF-8, whatever complete records it
    holds. Otherwise, with a positive [limit], it returns the lines
    that parse among the last [limit] lines of the log, newest first,
    so at most [limit] items; on a log that holds the records of the
    crawler and nothing else these are its last [limit] records. With
    [limit] zero the slice [lines[-0:]] is the whole file, and every
    line that parses is returned. *)
Theorem get_recent_data_window (limit : Z) (data_file : LogRead) :
  match data_file with
  | Absent | Unreadable => Dashboard.get_recent_data limit data_file = []
  | Lines lines =>
      (0 < limit →
       Dashboard.get_recent_data limit data_file
       = reverse (omap id (drop (length lines - Z.to_nat limit) lines))
       ∧ Z.of_nat (length (Dashboard.get_recent_data limit data_file)) <= limit
       ∧ ∀ log, lines = log_lines log →
                Dashboard.get_recent_data limit data_file
                = record_to_json <$> take (Z.to_nat limit) (reverse log))
      ∧ (limit = 0 →
         Dashboard.get_recent_data limit data_file = reverse (omap id lines))
  end.
Proof.
  destruct data_file as [| |lines]; [done | done |]. split.
  2: { intros ->. unfold Dashboard.get_recent_data, slice_from.
       change (- 0 <? 0) with false. cbv iota.
       by replace (Z.to_nat (Z.min (- 0) (Z.of_nat (length lines))))
         with 0%nat by lia. }
  intros Hpos. unfold Dashboard.get_recent_data.
  rewrite (slice_last limit lines Hpos). split; [done|]. split.
  - rewrite length_reverse.
    pose proof (length_omap_le id (drop (length lines - Z.to_nat limit) lines)).
    rewrite length_drop in *. lia.
  - intros log ->. unfold log_lines.
    rewrite length_fmap, <- fmap_drop.
    rewrite (list_fmap_compose record_to_json Some), omap_id_some.
    rewrite <- fmap_reverse, reverse_drop. f_equal.
    destruct (decide (Z.to_nat limit <= length log)%nat).
    + f_equal. lia.
    + by rewrite !take_ge by (rewrite length_reverse; lia).
Qed.

(** A log of two records whose last line is cut short: of the last two
    lines, the one that parses is returned. *)
Lemma get_recent_data_window_witness :
  Dashboard.get_recent_data 2
    (Lines (log_lines [Webpage Fixture.page_record; Code Fixture.script_record]
            ++ [None]))
  = [record_to_json (Code Fixture.script_record)].
Proof.
  destruct (proj1 (get_recent_data_window 2
                     (Lines (log_lines [Webpage Fixture.page_record;
                                        Code Fixture.script_record]
                             ++ [None]))) ltac:(lia))
    as (Heq & _).
  rewrite Heq. reflexivity.
Defined.



(** ** Resuming *)

Lemma same_process_visited (E : Externals) (config : Config) (w0 w : World) :
  frontier_inv w0 → same_process E config w0 w →
  visited_urls (collector w0) ⊆ visited_urls (collector w).
Proof.
  intros H0. induction 1 as [|w e w' Hsame IH Hnr Hex]; [done|].
  pose proof (same_process_frontier_inv E config w0 w H0 Hsame) as Hinv.
  pose proof (exec_visited E config e w w' Hinv Hex) as Hstep.
  destruct e as [urls_batch|i|i|i server now|i write_ok|i| |now r| |resume now];
    try discriminate Hnr; try (rewrite Hstep; exact IH).
  destruct Hstep as (t & _ & _ & _ & _ & ->). set_solver.
Qed.

(** X24. A process resumed from a checkpoint that [save_checkpoint]
    wrote for a collector with disjoint visited and pending sets keeps
    every URL of the checkpoint's visited list visited, and never
    starts a coroutine for one of them. *)
Theorem resume_never_revisits
    (E : Externals) (config : Config) (now : string) (r : Reading)
    (c : Collector) (failed : gmap string Z) (now' : string)
    (log : list DataRecord) (w : World) :
  visited_urls c ## urls_to_visit c →
  same_process E config
    (start_process config true now'
       (Document (dump_state (checkpoint_state now r c) failed)) log) w →
  visited_urls c ⊆ visited_urls (collector w)
  ∧ ∀ i w', exec E config (Begin i) w = Some w' →
            ∃ t, tasks w !! i = Some t ∧ task_url t ∉ visited_urls c.
Proof.
  intros Hdisj Hsame.
  assert (visited_urls
            (collector (start_process config true now'
               (Document (dump_state (checkpoint_state now r c) failed)) log))
          = visited_urls c
          ∧ urls_to_visit
              (collector (start_process config true now'
                 (Document (dump_state (checkpoint_state now r c) failed)) log))
            = urls_to_visit c) as [Hv Hp].
  { unfold start_process.
    cbn [collector visited_urls urls_to_visit set_start_time].
    destruct (load_dump_state now r c failed (Collector_init config))
      as (_ & -> & -> & _). done. }
  assert (frontier_inv
            (start_process config true now'
               (Document (dump_state (checkpoint_state now r c) failed)) log))
    as Hstart.
  { apply frontier_inv_started; [by rewrite Hv, Hp | done | done |].
    exists (checkpoint_state now r c), failed. split; [done|].
    by exists now, r, c. }
  pose proof (same_process_visited E config _ w Hstart Hsame) as Hsub.
  rewrite Hv in Hsub. split; [done|].
  intros i w' Hex.
  pose proof (same_process_frontier_inv E config _ w Hstart Hsame) as Hinv.
  destruct (exec_visited E config (Begin i) w w' Hinv Hex)
    as (t & Hi & _ & Hnew & _).
  exists t. split; [done | set_solver].
Qed.

Lemma resume_never_revisits_witness :
  visited_urls (collector Fixture.after_seed)
  ⊆ visited_urls (collector Fixture.resumed)
  ∧ ∀ i w', exec Fixture.lib Fixture.cfg (Begin i) Fixture.resumed = Some w' →
            ∃ t, tasks Fixture.resumed !! i = Some t
                 ∧ task_url t ∉ visited_urls (collector Fixture.after_seed).
Proof.
  apply (resume_never_revisits Fixture.lib Fixture.cfg "t2" Fixture.reading
           (collector Fixture.after_seed)
           (failed_urls (collector Fixture.after_seed)) "t3" []
           Fixture.resumed).
  - apply (bool_decide_unpack _). vm_compute. exact I.
  - apply (same_process_exec_all Fixture.lib Fixture.cfg
             [ Dispatch ["http://site.test/b"]; Begin 0; Acquire 0;
               Complete 0 (Fixture.serves Fixture.html) "t4"; Append 0 true;
               Saved 0 ]
             _ (start_process Fixture.cfg true "t3" Fixture.first_checkpoint [])).
    + reflexivity.
    + apply same_start.
    + vm_compute. reflexivity.
Defined.
